(** * bioptim: the direct-transcription integration layer

    A shallow embedding of [bioptim/dynamics/integrator.py]: the control
    interpolation [get_u], the explicit Runge-Kutta sub-steps [RK4.next_x]
    and [RK8.next_x], the finite-element loop [RK.dxdt] with its quaternion
    renormalisation, and the implicit collocation integrator [IRK.dxdt].

    Conventions of the embedding.
    - A CasADi expression is modelled by the real number it denotes: scalars
      are [R], a column vector is a [list R], a matrix is the list of its
      columns.  Rounding of IEEE doubles is outside that model; where a
      statement is about the very value that the code returns, as for the
      end points of the control interpolation, the expression is evaluated
      on binary64 floats as well.
    - A Python exception is an error value.  CasADi does not raise on a
      division by zero, it yields a value that is not a real number; the
      embedding stops there with the error [NotANumber].
    - Operands of different shapes raise [ShapeError]; CasADi's broadcast of
      1x1 operands is not modelled, and no statement below asserts that a
      [ShapeError] is raised.
    - The calls of the control interpolation, of the dynamics function and of
      the root-finder are recorded, in order, in a trace of events. *)

From Stdlib Require Import Floats Reals Lra Lia List ZArith.
From stdpp Require Import base list gmap strings pretty.
Import ListNotations.

Open Scope R_scope.

(** ** Errors, results and the trace monad *)

Inductive error : Type :=
  | RuntimeError
  | NotImplementedError
  | ZeroDivisionError
  | IndexError
  | ShapeError
  | NotANumber.

Inductive result (A : Type) : Type :=
  | Ok (a : A)
  | Raise (e : error).
Arguments Ok {A} a.
Arguments Raise {A} e.

Abbreviation vec := (list R).
Abbreviation matrix := (list (list R)).

Inductive event : Type :=
  | EvGetU (t : R)
  | EvDyn (x : vec) (u : matrix) (p : vec)
  | EvSolve.

Definition M (A : Type) : Type := (list event * result A)%type.

Definition ret {A} (a : A) : M A := ([], Ok a).
Definition raise {A} (e : error) : M A := ([], Raise e).
Definition lift {A} (r : result A) : M A := ([], r).
Definition emit (e : event) : M unit := ([e], Ok tt).

Definition bind {A B} (m : M A) (f : A -> M B) : M B :=
  match snd m with
  | Ok a => (fst m ++ fst (f a), snd (f a))
  | Raise e => (fst m, Raise e)
  end.

Definition rbind {A B} (r : result A) (f : A -> result B) : result B :=
  match r with
  | Ok a => f a
  | Raise e => Raise e
  end.

Notation "x <- m ;; k" := (bind m (fun x => k))
  (at level 100, m at next level, right associativity).
Notation "x <~ r ;; k" := (rbind r (fun x => k))
  (at level 100, r at next level, right associativity).

Definition trace_of {A} (m : M A) : list event := fst m.
Definition result_of {A} (m : M A) : result A := snd m.

Definition is_dyn (e : event) : bool :=
  match e with EvDyn _ _ _ => true | _ => false end.

Definition count_dyn (tr : list event) : nat := length (filter is_dyn tr).

(** ** Scalars, vectors and matrices *)

(** [a / b] on CasADi values: no exception, but no real number either when
    [b] is zero. *)
Definition cdiv (a b : R) : result R :=
  if Req_dec_T b 0 then Raise NotANumber else Ok (a / b).

(** [1 / n] on Python numbers raises [ZeroDivisionError] when [n] is zero. *)
Definition pydiv (a b : R) : result R :=
  if Req_dec_T b 0 then Raise ZeroDivisionError else Ok (a / b).

Definition zeros (n : nat) : vec := replicate n 0.

Definition smul (c : R) (v : vec) : vec := map (Rmult c) v.
Definition vmulr (v : vec) (c : R) : vec := map (fun a => a * c) v.

Definition vzip (f : R -> R -> R) (a b : vec) : result vec :=
  if Nat.eqb (length a) (length b) then Ok (zip_with f a b) else Raise ShapeError.

Definition vadd : vec -> vec -> result vec := vzip Rplus.
Definition vsub : vec -> vec -> result vec := vzip Rminus.

(** [cx(nrow, ncol)]: the all-zero matrix. *)
Definition cx_zeros (nrow ncol : nat) : matrix := replicate ncol (zeros nrow).

(** A Python index: negative indices count from the end. *)
Definition py_index (len : nat) (k : Z) : result nat :=
  if (0 <=? k)%Z then
    (if (k <? Z.of_nat len)%Z then Ok (Z.to_nat k) else Raise IndexError)
  else
    (if (- Z.of_nat len <=? k)%Z then Ok (Z.to_nat (Z.of_nat len + k)) else Raise IndexError).

(** [x[:, k]] *)
Definition get_col (x : matrix) (k : Z) : result vec :=
  match py_index (length x) k with
  | Ok i => match x !! i with Some c => Ok c | None => Raise IndexError end
  | Raise e => Raise e
  end.

(** [x[:, k] = v] *)
Definition set_col (x : matrix) (k : Z) (v : vec) : result matrix :=
  match py_index (length x) k with
  | Ok i =>
      match x !! i with
      | Some c => if Nat.eqb (length c) (length v) then Ok (<[i := v]> x) else Raise ShapeError
      | None => Raise IndexError
      end
  | Raise e => Raise e
  end.

(** [v[j]] *)
Definition lookup_or_raise {A} (l : list A) (j : nat) : result A :=
  match l !! j with Some a => Ok a | None => Raise IndexError end.

(** [v[j] = a] *)
Definition vset (v : vec) (j : nat) (a : R) : result vec :=
  if decide (j < length v)%nat then Ok (<[j := a]> v) else Raise IndexError.

(** [v[lo:hi]] for [0 <= lo <= hi <= len(v)] *)
Definition slice (v : vec) (lo hi : nat) : vec := take (hi - lo) (drop lo v).

(** [v[lo:hi] = vals] *)
Definition set_rows (v : vec) (lo hi : nat) (vals : vec) : result vec :=
  if decide (lo <= hi <= length v)%nat then
    if Nat.eqb (hi - lo) (length vals) then Ok (take lo v ++ vals ++ drop hi v)
    else Raise ShapeError
  else Raise IndexError.

(** [x[r, i]] *)
Definition mget (x : matrix) (r i : nat) : result R :=
  match x !! i with
  | Some c => lookup_or_raise c r
  | None => Raise IndexError
  end.

(** [x[r, i] = a] *)
Definition mset (x : matrix) (r i : nat) (a : R) : result matrix :=
  match x !! i with
  | Some c => c' <~ vset c r a ;; Ok (<[i := c']> x)
  | None => Raise IndexError
  end.

(** [x[lo:hi, i] = vals] *)
Definition mset_rows (x : matrix) (lo hi i : nat) (vals : vec) : result matrix :=
  match x !! i with
  | Some c => c' <~ set_rows c lo hi vals ;; Ok (<[i := c']> x)
  | None => Raise IndexError
  end.

(** ** Control interpolation *)

(** Modelled from the spec: [misc/enums.py] is not part of the sources; the
    spec names the two policies CONSTANT and LINEAR_CONTINUOUS, and Python
    lets any other value reach [get_u]. *)
Inductive ControlType : Type :=
  | CONSTANT
  | LINEAR_CONTINUOUS
  | OTHER_CONTROL (tag : nat).

(** [Integrator.get_u] *)
Definition Integrator_get_u (control_type : ControlType) (u : matrix) (dt_norm : R)
  : result matrix :=
  match control_type with
  | CONSTANT => Ok u
  | LINEAR_CONTINUOUS =>
      u0 <~ get_col u 0 ;;
      u1 <~ get_col u 1 ;;
      d <~ vsub u1 u0 ;;
      v <~ vadd u0 (vmulr d dt_norm) ;;
      Ok [v]
  | OTHER_CONTROL _ => Raise RuntimeError
  end.

(** ** Vector expressions

    The right-hand sides of the Runge-Kutta stages are sums of scaled
    vectors; each operation may fail on a shape mismatch. *)

Definition radd (a b : result vec) : result vec := x <~ a ;; y <~ b ;; vadd x y.
Definition rsub (a b : result vec) : result vec := x <~ a ;; y <~ b ;; vsub x y.
Definition rscale (c : R) (a : result vec) : result vec := x <~ a ;; Ok (smul c x).

Declare Scope rvec_scope.
Delimit Scope rvec_scope with rv.
Infix "+v" := radd (at level 50, left associativity) : rvec_scope.
Infix "-v" := rsub (at level 50, left associativity) : rvec_scope.
Infix "*v" := rscale (at level 40, left associativity) : rvec_scope.

(** The same operations on vectors known to have one length. *)
Definition vplus (a b : vec) : vec := zip_with Rplus a b.
Definition vminus (a b : vec) : vec := zip_with Rminus a b.

(** ** Explicit Runge-Kutta sub-steps *)

Section Explicit.

(** The attributes of the integrator instance: [self.fun], [self.idx],
    [self.control_type] and [self.h_norm]. *)
Variable ode_fun : vec -> matrix -> vec -> result matrix.
Variable idx : Z.
Variable control_type : ControlType.
Variable h_norm : R.

(** [self.get_u(u, t)], recorded in the trace. *)
Definition get_u (u : matrix) (t : R) : M matrix :=
  _ <- emit (EvGetU t) ;; lift (Integrator_get_u control_type u t).

(** [self.fun(x, u, p)[:, self.idx]] *)
Definition dyn_value (x : vec) (u : matrix) (p : vec) : result vec :=
  m <~ ode_fun x u p ;; get_col m idx.

(** The same call, recorded in the trace. *)
Definition dyn (x : vec) (u : matrix) (p : vec) : M vec :=
  _ <- emit (EvDyn x u p) ;; lift (dyn_value x u p).

(** [RK4.next_x] *)
Definition RK4_next_x (h t : R) (x_prev : vec) (u : matrix) (p : vec) : M vec :=
  u1 <- get_u u t ;;
  k1 <- dyn x_prev u1 p ;;
  x2 <- lift (Ok x_prev +v (h / 2) *v Ok k1)%rv ;;
  u2 <- get_u u (t + h_norm / 2) ;;
  k2 <- dyn x2 u2 p ;;
  x3 <- lift (Ok x_prev +v (h / 2) *v Ok k2)%rv ;;
  u3 <- get_u u (t + h_norm / 2) ;;
  k3 <- dyn x3 u3 p ;;
  x4 <- lift (Ok x_prev +v h *v Ok k3)%rv ;;
  u4 <- get_u u (t + h_norm) ;;
  k4 <- dyn x4 u4 p ;;
  lift (Ok x_prev +v (h / 6) *v (Ok k1 +v 2 *v Ok k2 +v 2 *v Ok k3 +v Ok k4))%rv.

(** [RK8.next_x] *)
Definition RK8_next_x (h t : R) (x_prev : vec) (u : matrix) (p : vec) : M vec :=
  u1 <- get_u u t ;;
  k1 <- dyn x_prev u1 p ;;
  x2 <- lift (Ok x_prev +v (h * 4 / 27) *v Ok k1)%rv ;;
  u2 <- get_u u (t + h_norm * (4 / 27)) ;;
  k2 <- dyn x2 u2 p ;;
  x3 <- lift (Ok x_prev +v (h / 18) *v (Ok k1 +v 3 *v Ok k2))%rv ;;
  u3 <- get_u u (t + h_norm * (2 / 9)) ;;
  k3 <- dyn x3 u3 p ;;
  x4 <- lift (Ok x_prev +v (h / 12) *v (Ok k1 +v 3 *v Ok k3))%rv ;;
  u4 <- get_u u (t + h_norm * (1 / 3)) ;;
  k4 <- dyn x4 u4 p ;;
  x5 <- lift (Ok x_prev +v (h / 8) *v (Ok k1 +v 3 *v Ok k4))%rv ;;
  u5 <- get_u u (t + h_norm * (1 / 2)) ;;
  k5 <- dyn x5 u5 p ;;
  x6 <- lift (Ok x_prev +v (h / 54) *v (13 *v Ok k1 -v 27 *v Ok k3 +v 42 *v Ok k4 +v 8 *v Ok k5))%rv ;;
  u6 <- get_u u (t + h_norm * (2 / 3)) ;;
  k6 <- dyn x6 u6 p ;;
  x7 <- lift (Ok x_prev +v (h / 4320) *v
                (389 *v Ok k1 -v 54 *v Ok k3 +v 966 *v Ok k4 -v 824 *v Ok k5 +v 243 *v Ok k6))%rv ;;
  u7 <- get_u u (t + h_norm * (1 / 6)) ;;
  k7 <- dyn x7 u7 p ;;
  x8 <- lift (Ok x_prev +v (h / 20) *v
                ((-234) *v Ok k1 +v 81 *v Ok k3 -v 1164 *v Ok k4 +v 656 *v Ok k5 -v 122 *v Ok k6
                 +v 800 *v Ok k7))%rv ;;
  u8 <- get_u u (t + h_norm) ;;
  k8 <- dyn x8 u8 p ;;
  x9 <- lift (Ok x_prev +v (h / 288) *v
                ((-127) *v Ok k1 +v 18 *v Ok k3 -v 678 *v Ok k4 +v 456 *v Ok k5 -v 9 *v Ok k6
                 +v 576 *v Ok k7 +v 4 *v Ok k8))%rv ;;
  u9 <- get_u u (t + h_norm * (5 / 6)) ;;
  k9 <- dyn x9 u9 p ;;
  x10 <- lift (Ok x_prev +v (h / 820) *v
                 (1481 *v Ok k1 -v 81 *v Ok k3 +v 7104 *v Ok k4 -v 3376 *v Ok k5 +v 72 *v Ok k6
                  -v 5040 *v Ok k7 -v 60 *v Ok k8 +v 720 *v Ok k9))%rv ;;
  u10 <- get_u u (t + h_norm) ;;
  k10 <- dyn x10 u10 p ;;
  lift (Ok x_prev +v (h / 840) *v
          (41 *v Ok k1 +v 27 *v Ok k4 +v 272 *v Ok k5 +v 27 *v Ok k6 +v 216 *v Ok k7 +v 216 *v Ok k9
           +v 41 *v Ok k10))%rv.

End Explicit.

(** ** The finite-element loop of the explicit integrators *)

(** The model introspection consumed by [RK.dxdt]: [nbSegment()] is the
    number of segments, [segment(j)] the j-th one. *)
Record Segment : Type := {
  isRotationAQuaternion : bool;
  segment_nbDof : nat
}.

Record Model : Type := {
  segments : list Segment;
  nbDof : nat;
  nbQuat : nat
}.

Abbreviation QuaternionBlock := (nat * nat * nat * nat)%type.

(** The loop over the segments that fills [quat_idx]. *)
Fixpoint quat_idx_loop (model_nbDof : nat) (segs : list Segment)
    (n_dof : nat) (quat_idx : list QuaternionBlock) (quat_number : nat)
  : list QuaternionBlock :=
  match segs with
  | [] => quat_idx
  | s :: segs' =>
      if isRotationAQuaternion s then
        quat_idx_loop model_nbDof segs' (n_dof + segment_nbDof s)
          (quat_idx ++ [(n_dof, n_dof + 1, n_dof + 2, model_nbDof + quat_number)%nat])
          (quat_number + 1)
      else
        quat_idx_loop model_nbDof segs' (n_dof + segment_nbDof s) quat_idx quat_number
  end.

Definition build_quat_idx (model : Model) : list QuaternionBlock :=
  quat_idx_loop (nbDof model) (segments model) 0 [] 0.

Definition sum_squares (q : vec) : R := fold_right (fun a s => a * a + s) 0 q.

(** [norm_fro] of a column vector. *)
Definition norm_fro (q : vec) : R := sqrt (sum_squares q).

(** [q /= n] *)
Definition vdiv (q : vec) (n : R) : result vec :=
  if Req_dec_T n 0 then Raise NotANumber else Ok (map (fun a => a / n) q).

(** The body of the loop over the quaternions, for the block [quat_idx[j]]
    and the column [i]. *)
Definition normalize_quaternion (quat_idx : list QuaternionBlock) (x : matrix)
    (i j : nat) : result matrix :=
  blk <~ lookup_or_raise quat_idx j ;;
  let '(q0, q1, q2, q3) := blk in
  a3 <~ mget x q3 i ;;
  a0 <~ mget x q0 i ;;
  a1 <~ mget x q1 i ;;
  a2 <~ mget x q2 i ;;
  let quaternion := [a3; a0; a1; a2] in
  quaternion <~ vdiv quaternion (norm_fro quaternion) ;;
  x <~ mset_rows x q0 (q2 + 1) i (slice quaternion 1 4) ;;
  w <~ lookup_or_raise quaternion 0 ;;
  mset x q3 i w.

Fixpoint normalize_loop (quat_idx : list QuaternionBlock) (js : list nat)
    (x : matrix) (i : nat) : result matrix :=
  match js with
  | [] => Ok x
  | j :: js' =>
      x <~ normalize_quaternion quat_idx x i j ;;
      normalize_loop quat_idx js' x i
  end.

Section FiniteElement.

Variable model : Model.
Variable n_step : nat.
(** [self.next_x], the sub-step of the concrete integrator. *)
Variable next_x : R -> R -> vec -> matrix -> vec -> M vec.

(** The loop [for i in range(1, self.n_step + 1)]; inside it [n_step] is
    at least 1, so that the division cannot raise. *)
Fixpoint RK_loop (quat_idx : list QuaternionBlock) (h : R) (u : matrix) (p : vec)
    (steps : list nat) (x : matrix) : M matrix :=
  match steps with
  | [] => ret x
  | i :: steps' =>
      let t_norm_init := INR (i - 1) / INR n_step in
      x_prev <- lift (get_col x (Z.of_nat i - 1)) ;;
      x_i <- next_x h t_norm_init x_prev u p ;;
      x <- lift (set_col x (Z.of_nat i) x_i) ;;
      x <- lift (normalize_loop quat_idx (seq 0 (nbQuat model)) x i) ;;
      RK_loop quat_idx h u p steps' x
  end.

(** [RK.dxdt] *)
Definition RK_dxdt (h : R) (states : vec) (controls : matrix) (params : vec)
  : M (vec * matrix) :=
  let u := controls in
  let x := cx_zeros (length states) (n_step + 1) in
  let p := params in
  x <- lift (set_col x 0 states) ;;
  let quat_idx := build_quat_idx model in
  x <- RK_loop quat_idx h u p (seq 1 n_step) x ;;
  x_last <- lift (get_col x (-1)) ;;
  ret (x_last, x).

End FiniteElement.

Inductive Scheme : Type := RK4 | RK8.

Definition scheme_next_x (s : Scheme) ode_fun idx control_type h_norm :=
  match s with
  | RK4 => RK4_next_x ode_fun idx control_type h_norm
  | RK8 => RK8_next_x ode_fun idx control_type h_norm
  end.

(** [Integrator.__init__] and [RK.__init__]: the normalised step [h_norm]
    and the length [h] of a sub-step. *)
Definition RK_step_sizes (t0 tf : R) (n_step : nat) : result (R * R) :=
  let step_time := tf - t0 in
  h_norm <~ pydiv 1 (INR n_step) ;;
  Ok (h_norm, step_time * h_norm).

(** [param_sym * param_scaling] *)
Definition scale_params (params param_scaling : vec) : result vec :=
  vzip Rmult params param_scaling.

(** The function that [_finish_init] compiles for [RK4] and [RK8], from
    [x0], [p] and [params] to [xf] and [xall]. *)
Definition RK_function (s : Scheme) (model : Model)
    (ode_fun : vec -> matrix -> vec -> result matrix) (idx : Z)
    (control_type : ControlType) (t0 tf : R) (n_step : nat) (param_scaling : vec)
    (x0 : vec) (p : matrix) (params : vec) : M (vec * matrix) :=
  sizes <- lift (RK_step_sizes t0 tf n_step) ;;
  scaled <- lift (scale_params params param_scaling) ;;
  RK_dxdt model n_step (scheme_next_x s ode_fun idx control_type (fst sizes))
    (snd sizes) x0 p scaled.

(** ** The implicit collocation integrator *)

(** [IRK.get_u] *)
Definition IRK_get_u (control_type : ControlType) (u : matrix) (dt_norm : R)
  : result matrix :=
  match control_type with
  | CONSTANT => Integrator_get_u control_type u dt_norm
  | _ => Raise NotImplementedError
  end.

(** A CasADi expression in the one symbol [time_control_interval] is
    modelled by its value and its tangent with respect to that symbol, as
    functions of the point where [lfcn] and [tfcn] evaluate it. *)
Definition dual : Type := (R * R)%type.

Definition dual_const (c : R) : dual := (c, 0).
Definition dual_mul (a b : dual) : dual := (fst a * fst b, snd a * fst b + fst a * snd b).
Definition dual_sub_const (a : dual) (c : R) : dual := (fst a - c, snd a).
Definition dual_div_const (a : dual) (c : R) : result dual :=
  v <~ cdiv (fst a) c ;; dv <~ cdiv (snd a) c ;; Ok (v, dv).

(** The inner loop that multiplies the factors of the Lagrange polynomial
    of the point [j]. *)
Fixpoint lagrange_loop (time_points : list R) (j : nat) (rs : list nat)
    (tau : dual) (_l : dual) : result dual :=
  match rs with
  | [] => Ok _l
  | r :: rs' =>
      if decide (r <> j) then
        t_r <~ lookup_or_raise time_points r ;;
        t_j <~ lookup_or_raise time_points j ;;
        t_r' <~ lookup_or_raise time_points r ;;
        f <~ dual_div_const (dual_sub_const tau t_r) (t_j - t_r') ;;
        lagrange_loop time_points j rs' tau (dual_mul _l f)
      else lagrange_loop time_points j rs' tau _l
  end.

Definition lagrange (time_points : list R) (degree j : nat) (tau : dual) : result dual :=
  lagrange_loop time_points j (seq 0 (degree + 1)) tau (dual_const 1).

(** [lfcn(t)] and [tfcn(t)] *)
Definition lfcn (time_points : list R) (degree j : nat) (t : R) : result R :=
  l <~ lagrange time_points degree j (t, 0) ;; Ok (fst l).
Definition tfcn (time_points : list R) (degree j : nat) (t : R) : result R :=
  l <~ lagrange time_points degree j (t, 1) ;; Ok (snd l).

(** The loop [for r in range(degree + 1): _c[j, r] = tfcn(time_points[r])];
    [_c[j, r]] is the entry of the row [j] and of the column [r]. *)
Fixpoint tableau_row_loop (time_points : list R) (degree j : nat) (rs : list nat)
    (_c : matrix) : result matrix :=
  match rs with
  | [] => Ok _c
  | r :: rs' =>
      t_r <~ lookup_or_raise time_points r ;;
      a <~ tfcn time_points degree j t_r ;;
      _c <~ mset _c j r a ;;
      tableau_row_loop time_points degree j rs' _c
  end.

(** The loop over all the collocation points. *)
Fixpoint tableau_loop (time_points : list R) (degree : nat) (js : list nat)
    (_c : matrix) (_d : vec) : result (matrix * vec) :=
  match js with
  | [] => Ok (_c, _d)
  | j :: js' =>
      a <~ lfcn time_points degree j 1 ;;
      _d <~ vset _d j a ;;
      _c <~ tableau_row_loop time_points degree j (seq 0 (degree + 1)) _c ;;
      tableau_loop time_points degree js' _c _d
  end.

Definition build_tableau (time_points : list R) (degree : nat) : result (matrix * vec) :=
  let _c := cx_zeros (degree + 1) (degree + 1) in
  let _d := zeros (degree + 1) in
  tableau_loop time_points degree (seq 0 (degree + 1)) _c _d.

(** [xp_j] starts as the Python number 0 and becomes a vector at the first
    addition. *)
Inductive accumulator : Type :=
  | AccNumber (c : R)
  | AccVector (v : vec).

Definition acc_add (a : accumulator) (v : vec) : result accumulator :=
  match a with
  | AccNumber c => Ok (AccVector (map (Rplus c) v))
  | AccVector w => w' <~ vadd w v ;; Ok (AccVector w')
  end.

(** [h * f_j - xp_j] *)
Definition residual (h : R) (f_j : vec) (xp_j : accumulator) : result vec :=
  match xp_j with
  | AccNumber c => Ok (map (fun a => a - c) (smul h f_j))
  | AccVector w => vsub (smul h f_j) w
  end.

(** [horzcat(a, b)] of two columns *)
Definition horzcat2 (a b : vec) : result matrix :=
  if Nat.eqb (length a) (length b) then Ok [a; b] else Raise ShapeError.

(** [v[lo:hi]] with the bounds checked *)
Definition slice_checked (v : vec) (lo hi : nat) : result vec :=
  if decide (lo <= hi <= length v)%nat then Ok (slice v lo hi) else Raise IndexError.

(** The value of the symbols [X_irk_1 .. X_irk_d], each of [nx] rows, when
    their vertical concatenation takes the value [X]. *)
Definition split_points (nx degree : nat) (X : vec) : result (list vec) :=
  if Nat.eqb (length X) (degree * nx) then
    Ok (map (fun j => slice X ((j - 1) * nx) (j * nx)) (seq 1 degree))
  else Raise ShapeError.

Section Implicit.

Variable ode_fun : vec -> matrix -> vec -> result matrix.
Variable idx : Z.
Variable control_type : ControlType.
Variable degree : nat.
(** The Legendre [collocation_points] of CasADi, by degree. *)
Variable collocation_points : nat -> list R.
(** The Newton [rootfinder] of CasADi on [vfcn], called on a first guess:
    the residual is a function of the unknown points, the other arguments
    of [vfcn] being fixed. *)
Variable rootfinder : (vec -> result vec) -> vec -> result vec.

Definition IRK_get_u_ev (u : matrix) (t : R) : M matrix :=
  _ <- emit (EvGetU t) ;; lift (IRK_get_u control_type u t).

(** [xp_j]: the loop [for r in range(degree + 1): xp_j += _c[r, j] * x[r]] *)
Fixpoint xp_loop (_c : matrix) (x : list vec) (j : nat) (rs : list nat)
    (xp_j : accumulator) : result accumulator :=
  match rs with
  | [] => Ok xp_j
  | r :: rs' =>
      c <~ mget _c r j ;;
      x_r <~ lookup_or_raise x r ;;
      xp_j <~ acc_add xp_j (smul c x_r) ;;
      xp_loop _c x j rs' xp_j
  end.

(** One residual equation is an expression in the symbols [x]: a function
    of their values.  Its control [u_j] is fixed when the equation is
    formed. *)
Definition equation (_c : matrix) (h : R) (params : vec) (j : nat) (u_j : matrix)
    (x : list vec) : M vec :=
  xp_j <- lift (xp_loop _c x j (seq 0 (degree + 1)) (AccNumber 0)) ;;
  x_j <- lift (lookup_or_raise x j) ;;
  f_j <- dyn ode_fun idx x_j u_j params ;;
  lift (residual h f_j xp_j).

(** The loop [for j in range(1, self.degree + 1)] that forms the
    equations; inside it [degree] is at least 1. *)
Fixpoint equations_loop (_c : matrix) (h : R) (u : matrix) (params : vec)
    (js : list nat) (x_irk_points_eq : list (list vec -> M vec))
  : M (list (list vec -> M vec)) :=
  match js with
  | [] => ret x_irk_points_eq
  | j :: js' =>
      let t_norm_init := INR (j - 1) / INR degree in
      u_j <- IRK_get_u_ev u t_norm_init ;;
      equations_loop _c h u params js'
        (x_irk_points_eq ++ [equation _c h params j u_j])
  end.

(** The vertical concatenation of [x_irk_points_eq], at the values [x] of
    the symbols *)
Fixpoint eval_equations (eqs : list (list vec -> M vec)) (x : list vec) : M vec :=
  match eqs with
  | [] => ret []
  | e :: eqs' =>
      v <- e x ;;
      w <- eval_equations eqs' x ;;
      ret (v ++ w)
  end.

(** [vfcn], as a function of the stacked unknown points *)
Definition vfcn (eqs : list (list vec -> M vec)) (nx : nat) (x0 : vec) (X : vec)
  : M vec :=
  pts <- lift (split_points nx degree X) ;;
  eval_equations eqs (x0 :: pts).

(** The loop [for r in range(degree + 1): xf[:, r] = xf[:, r - 1] + _d[r] * x[r]] *)
Fixpoint xf_loop (_d : vec) (x : list vec) (rs : list nat) (xf : matrix)
  : result matrix :=
  match rs with
  | [] => Ok xf
  | r :: rs' =>
      prev <~ get_col xf (Z.of_nat r - 1) ;;
      d_r <~ lookup_or_raise _d r ;;
      x_r <~ lookup_or_raise x r ;;
      v <~ vadd prev (smul d_r x_r) ;;
      xf <~ set_col xf (Z.of_nat r) v ;;
      xf_loop _d x rs' xf
  end.

(** [x = [x0 if r == 0 else x_irk_points[(r - 1) * nx : r * nx] for r in ...]] *)
Fixpoint solved_points (nx : nat) (x0 : vec) (x_irk_points : vec) (rs : list nat)
  : result (list vec) :=
  match rs with
  | [] => Ok []
  | r :: rs' =>
      x_r <~ (if Nat.eqb r 0 then Ok x0
              else slice_checked x_irk_points ((r - 1) * nx) (r * nx)) ;;
      rest <~ solved_points nx x0 x_irk_points rs' ;;
      Ok (x_r :: rest)
  end.

(** [IRK.dxdt] *)
Definition IRK_dxdt (h : R) (states : vec) (controls : matrix) (params : vec)
  : M (vec * matrix) :=
  let nx := length states in
  let time_points := 0 :: collocation_points degree in
  tableau <- lift (build_tableau time_points degree) ;;
  let '(_c, _d) := tableau in
  let x0 := states in
  let u := controls in
  x_irk_points_eq <- equations_loop _c h u params (seq 1 degree) [] ;;
  _ <- emit EvSolve ;;
  x_irk_points <- lift (rootfinder
                          (fun X => result_of (vfcn x_irk_points_eq nx x0 X)) []) ;;
  x <- lift (solved_points nx x0 x_irk_points (seq 0 (degree + 1))) ;;
  let xf := cx_zeros nx (degree + 1) in
  xf <- lift (xf_loop _d x (seq 0 (degree + 1)) xf) ;;
  x_last <- lift (get_col xf (-1)) ;;
  x_last' <- lift (get_col xf (-1)) ;;
  xall <- lift (horzcat2 x0 x_last') ;;
  ret (x_last, xall).

End Implicit.

(** The function that [_finish_init] compiles for [IRK]; its step is the
    whole interval. *)
Definition IRK_function (ode_fun : vec -> matrix -> vec -> result matrix) (idx : Z)
    (control_type : ControlType) (t0 tf : R) (degree : nat)
    (collocation_points : nat -> list R)
    (rootfinder : (vec -> result vec) -> vec -> result vec) (param_scaling : vec)
    (x0 : vec) (p : matrix) (params : vec) : M (vec * matrix) :=
  scaled <- lift (scale_params params param_scaling) ;;
  IRK_dxdt ode_fun idx control_type degree collocation_points rootfinder
    (tf - t0) x0 p scaled.

(** The evaluation points of a trace: each sampling time of the control with
    the state of the dynamics evaluation that follows it. *)
Fixpoint stage_points (tr : list event) : list (R * vec) :=
  match tr with
  | [] => []
  | EvGetU t :: tr' =>
      match tr' with
      | EvDyn x _ _ :: tr'' => (t, x) :: stage_points tr''
      | _ => stage_points tr'
      end
  | _ :: tr' => stage_points tr'
  end.


(** ** The stages of the RK8 sub-step, as formulas

    The values met by one run of [RK8.next_x]: the sampled controls (the
    eighth and the tenth stage sample the same time) and the ten stage
    derivatives. *)
Record RK8_values : Type := {
  rk8_u1 : matrix; rk8_u2 : matrix; rk8_u3 : matrix; rk8_u4 : matrix; rk8_u5 : matrix;
  rk8_u6 : matrix; rk8_u7 : matrix; rk8_u8 : matrix; rk8_u9 : matrix;
  rk8_k1 : vec; rk8_k2 : vec; rk8_k3 : vec; rk8_k4 : vec; rk8_k5 : vec;
  rk8_k6 : vec; rk8_k7 : vec; rk8_k8 : vec; rk8_k9 : vec; rk8_k10 : vec
}.

Section RK8_formulas.

Variable ode_fun : vec -> matrix -> vec -> result matrix.
Variable idx : Z.
Variable control_type : ControlType.
Variable h_norm : R.
Variables (h t : R) (x_prev : vec) (u : matrix) (p : vec).
Variable v : RK8_values.

Local Abbreviation k1 := (rk8_k1 v).
Local Abbreviation k2 := (rk8_k2 v).
Local Abbreviation k3 := (rk8_k3 v).
Local Abbreviation k4 := (rk8_k4 v).
Local Abbreviation k5 := (rk8_k5 v).
Local Abbreviation k6 := (rk8_k6 v).
Local Abbreviation k7 := (rk8_k7 v).
Local Abbreviation k8 := (rk8_k8 v).
Local Abbreviation k9 := (rk8_k9 v).
Local Abbreviation k10 := (rk8_k10 v).
Local Infix "+" := vplus.
Local Infix "-" := vminus.
Local Infix "*" := smul.

Definition RK8_x2 := x_prev + (h * 4 / 27)%R * k1.
Definition RK8_x3 := x_prev + (h / 18)%R * (k1 + 3 * k2).
Definition RK8_x4 := x_prev + (h / 12)%R * (k1 + 3 * k3).
Definition RK8_x5 := x_prev + (h / 8)%R * (k1 + 3 * k4).
Definition RK8_x6 := x_prev + (h / 54)%R * (13 * k1 - 27 * k3 + 42 * k4 + 8 * k5).
Definition RK8_x7 :=
  x_prev + (h / 4320)%R * (389 * k1 - 54 * k3 + 966 * k4 - 824 * k5 + 243 * k6).
Definition RK8_x8 :=
  x_prev + (h / 20)%R
           * ((-234) * k1 + 81 * k3 - 1164 * k4 + 656 * k5 - 122 * k6 + 800 * k7).
Definition RK8_x9 :=
  x_prev + (h / 288)%R
           * ((-127) * k1 + 18 * k3 - 678 * k4 + 456 * k5 - 9 * k6 + 576 * k7 + 4 * k8).
Definition RK8_x10 :=
  x_prev + (h / 820)%R
           * (1481 * k1 - 81 * k3 + 7104 * k4 - 3376 * k5 + 72 * k6 - 5040 * k7
              - 60 * k8 + 720 * k9).
Definition RK8_result :=
  x_prev + (h / 840)%R
           * (41 * k1 + 27 * k4 + 272 * k5 + 27 * k6 + 216 * k7 + 216 * k9 + 41 * k10).

Definition RK8_trace : list event :=
  [EvGetU t; EvDyn x_prev (rk8_u1 v) p;
   EvGetU (t + h_norm * (4 / 27))%R; EvDyn RK8_x2 (rk8_u2 v) p;
   EvGetU (t + h_norm * (2 / 9))%R; EvDyn RK8_x3 (rk8_u3 v) p;
   EvGetU (t + h_norm * (1 / 3))%R; EvDyn RK8_x4 (rk8_u4 v) p;
   EvGetU (t + h_norm * (1 / 2))%R; EvDyn RK8_x5 (rk8_u5 v) p;
   EvGetU (t + h_norm * (2 / 3))%R; EvDyn RK8_x6 (rk8_u6 v) p;
   EvGetU (t + h_norm * (1 / 6))%R; EvDyn RK8_x7 (rk8_u7 v) p;
   EvGetU (t + h_norm)%R; EvDyn RK8_x8 (rk8_u8 v) p;
   EvGetU (t + h_norm * (5 / 6))%R; EvDyn RK8_x9 (rk8_u9 v) p;
   EvGetU (t + h_norm)%R; EvDyn RK8_x10 (rk8_u8 v) p].

(** The ten stages succeed with the values [v], on vectors of the
    dimension of the state. *)
Definition RK8_stages : Prop :=
  let sample := Integrator_get_u control_type u in
  let f := dyn_value ode_fun idx in
  sample t = Ok (rk8_u1 v) /\
  sample (t + h_norm * (4 / 27))%R = Ok (rk8_u2 v) /\
  sample (t + h_norm * (2 / 9))%R = Ok (rk8_u3 v) /\
  sample (t + h_norm * (1 / 3))%R = Ok (rk8_u4 v) /\
  sample (t + h_norm * (1 / 2))%R = Ok (rk8_u5 v) /\
  sample (t + h_norm * (2 / 3))%R = Ok (rk8_u6 v) /\
  sample (t + h_norm * (1 / 6))%R = Ok (rk8_u7 v) /\
  sample (t + h_norm)%R = Ok (rk8_u8 v) /\
  sample (t + h_norm * (5 / 6))%R = Ok (rk8_u9 v) /\
  f x_prev (rk8_u1 v) p = Ok k1 /\
  f RK8_x2 (rk8_u2 v) p = Ok k2 /\
  f RK8_x3 (rk8_u3 v) p = Ok k3 /\
  f RK8_x4 (rk8_u4 v) p = Ok k4 /\
  f RK8_x5 (rk8_u5 v) p = Ok k5 /\
  f RK8_x6 (rk8_u6 v) p = Ok k6 /\
  f RK8_x7 (rk8_u7 v) p = Ok k7 /\
  f RK8_x8 (rk8_u8 v) p = Ok k8 /\
  f RK8_x9 (rk8_u9 v) p = Ok k9 /\
  f RK8_x10 (rk8_u8 v) p = Ok k10 /\
  Forall (fun k => length k = length x_prev) [k1; k2; k3; k4; k5; k6; k7; k8; k9; k10].

End RK8_formulas.

(** A run of the RK8 sub-step on the dynamics of constant derivative 1, from
    the state 0: all ten stages differ. *)
Definition RK8_sample_values : RK8_values :=
  {| rk8_u1 := [[0]]; rk8_u2 := [[0]]; rk8_u3 := [[0]]; rk8_u4 := [[0]]; rk8_u5 := [[0]];
     rk8_u6 := [[0]]; rk8_u7 := [[0]]; rk8_u8 := [[0]]; rk8_u9 := [[0]];
     rk8_k1 := [1]; rk8_k2 := [1]; rk8_k3 := [1]; rk8_k4 := [1]; rk8_k5 := [1];
     rk8_k6 := [1]; rk8_k7 := [1]; rk8_k8 := [1]; rk8_k9 := [1]; rk8_k10 := [1] |}.

(** ** The finite-element loop, column by column

    What [RK.dxdt] does to the matrix [x], told on its columns: the
    renormalisation of a block acts on one column, and the column [i] is the
    renormalised result of the sub-step [i] on the column [i - 1]. *)

Definition normalize_block (c : vec) (blk : QuaternionBlock) : result vec :=
  let '(q0, q1, q2, q3) := blk in
  a3 <~ lookup_or_raise c q3 ;;
  a0 <~ lookup_or_raise c q0 ;;
  a1 <~ lookup_or_raise c q1 ;;
  a2 <~ lookup_or_raise c q2 ;;
  let quaternion := [a3; a0; a1; a2] in
  quaternion <~ vdiv quaternion (norm_fro quaternion) ;;
  c <~ set_rows c q0 (q2 + 1) (slice quaternion 1 4) ;;
  w <~ lookup_or_raise quaternion 0 ;;
  vset c q3 w.

Fixpoint normalize_col (quat_idx : list QuaternionBlock) (js : list nat) (c : vec)
  : result vec :=
  match js with
  | [] => Ok c
  | j :: js' =>
      blk <~ lookup_or_raise quat_idx j ;;
      c <~ normalize_block c blk ;;
      normalize_col quat_idx js' c
  end.

(** The quaternion that a block designates in a column, scalar part
    first, and its norm. *)
Definition block_quaternion (c : vec) (blk : QuaternionBlock) : option vec :=
  let '(q0, q1, q2, q3) := blk in
  match c !! q3, c !! q0, c !! q1, c !! q2 with
  | Some a3, Some a0, Some a1, Some a2 => Some [a3; a0; a1; a2]
  | _, _, _, _ => None
  end.

Definition block_norm (c : vec) (blk : QuaternionBlock) : option R :=
  let '(q0, q1, q2, q3) := blk in
  match c !! q3, c !! q0, c !! q1, c !! q2 with
  | Some a3, Some a0, Some a1, Some a2 => Some (norm_fro [a3; a0; a1; a2])
  | _, _, _, _ => None
  end.

(** [col] holds the quaternion of [raw] divided by its norm. *)
Definition block_normalized (raw col : vec) (blk : QuaternionBlock) : Prop :=
  exists q : vec,
    block_quaternion raw blk = Some q /\ norm_fro q <> 0
    /\ block_quaternion col blk = Some (map (fun a => a / norm_fro q) q).

Section Trajectory.

Variable model : Model.
Variable n_step : nat.
Variable next_x : R -> R -> vec -> matrix -> vec -> M vec.

(** The sub-step [i]: the raw Runge-Kutta update of the previous column,
    stored in a column of [nx] rows, then renormalised. *)
Definition sub_step (nx : nat) (h : R) (u : matrix) (p : vec) (i : nat) (prev : vec)
  : result vec :=
  raw <~ result_of (next_x h (INR (i - 1) / INR n_step) prev u p) ;;
  if Nat.eqb nx (length raw) then
    normalize_col (build_quat_idx model) (seq 0 (nbQuat model)) raw
  else Raise ShapeError.

Fixpoint trajectory (nx : nat) (h : R) (u : matrix) (p : vec) (steps : list nat)
    (prev : vec) : result (list vec) :=
  match steps with
  | [] => Ok []
  | i :: steps' =>
      c <~ sub_step nx h u p i prev ;;
      rest <~ trajectory nx h u p steps' c ;;
      Ok (c :: rest)
  end.

End Trajectory.

(** The model is consistent: [nbDof()] counts the degrees of freedom of the
    segments, [nbQuat()] the segments whose rotation is a quaternion, and
    such a segment has its three rotations among its degrees of freedom. *)
Definition wf_model (model : Model) : Prop :=
  nbDof model = foldr (fun s n => (segment_nbDof s + n)%nat) 0%nat (segments model)
  /\ nbQuat model = length (filter (fun s => isRotationAQuaternion s = true) (segments model))
  /\ Forall (fun s => isRotationAQuaternion s = true -> (3 <= segment_nbDof s)%nat)
       (segments model).

(** ** The shape of the quaternion blocks *)

(** The rows of the state that a block designates. *)
Definition in_block (k : nat) (blk : QuaternionBlock) : Prop :=
  let '(q0, q1, q2, q3) := blk in k = q0 \/ k = q1 \/ k = q2 \/ k = q3.

(** Three consecutive rows, and a fourth one after them. *)
Definition block_shaped (blk : QuaternionBlock) : Prop :=
  let '(q0, q1, q2, q3) := blk in
  q1 = (q0 + 1)%nat /\ q2 = (q0 + 2)%nat /\ (q0 + 3 <= q3)%nat.

Definition blocks_disjoint (quat_idx : list QuaternionBlock) : Prop :=
  forall j j' blk blk' k,
    j <> j' -> quat_idx !! j = Some blk -> quat_idx !! j' = Some blk' ->
    in_block k blk -> ~ in_block k blk'.

(** The blocks that [quat_idx_loop] appends: their three rows follow one
    another below [model_nbDof], their fourth rows count up from it. *)
Fixpoint blocks_chain (model_nbDof lo w : nat) (l : list QuaternionBlock) : Prop :=
  match l with
  | [] => True
  | (q0, q1, q2, q3) :: l' =>
      (lo <= q0)%nat /\ q1 = (q0 + 1)%nat /\ q2 = (q0 + 2)%nat
      /\ (q0 + 3 <= model_nbDof)%nat /\ q3 = (model_nbDof + w)%nat
      /\ blocks_chain model_nbDof (q0 + 3) (w + 1) l'
  end.

(** ** Sample inputs *)

(** A model of one segment whose rotation is a quaternion: the rows 0 to 2
    of the state hold its vector part, the row 3 its scalar part. *)
Definition quaternion_model : Model :=
  {| segments := [{| isRotationAQuaternion := true; segment_nbDof := 3 |}];
     nbDof := 3;
     nbQuat := 1 |}.

(** The dynamics whose right-hand side is zero everywhere. *)
Definition zero_ode (x : vec) (u : matrix) (p : vec) : result matrix :=
  Ok [zeros (length x)].

(** ** Weighted sums

    The sum of the vectors [xs], of [nx] rows, weighted by [ws]: what the
    collocation and the continuity equations compute. *)
Definition weighted_step (acc : vec) (wx : R * vec) : vec :=
  vplus acc (smul (fst wx) (snd wx)).

Definition weighted_sum (nx : nat) (ws : list R) (xs : list vec) : vec :=
  foldl weighted_step (zeros nx) (zip ws xs).

(** The times at which a trace samples the control. *)
Definition sample_times (tr : list event) : list R :=
  omap (fun e => match e with EvGetU t => Some t | _ => None end) tr.

(** A matrix of [nrow] rows and [ncol] columns. *)
Definition has_shape (nrow ncol : nat) (x : matrix) : Prop :=
  length x = ncol /\ Forall (fun c => length c = nrow) x.

(** The values of the unknown points [X_irk_1 .. X_irk_d] in the stacked
    vector [X]. *)
Definition irk_points (nx degree : nat) (X : vec) : list vec :=
  map (fun j => slice X ((j - 1) * nx) (j * nx)) (seq 1 degree).

(** The implicit integrator samples the control of its equations at the
    collocation time points: the times of its trace are the points
    [time_points[1 ..]] that CasADi gives. *)
Definition samples_at_collocation_points
    (ode_fun : vec -> matrix -> vec -> result matrix) (idx : Z) (degree : nat)
    (collocation_points : nat -> list R)
    (rootfinder : (vec -> result vec) -> vec -> result vec)
    (h : R) (states : vec) (u : matrix) (params : vec) : Prop :=
  sample_times
    (trace_of (IRK_dxdt ode_fun idx CONSTANT degree collocation_points rootfinder
                 h states u params))
  = collocation_points degree.

(** ** Test dynamics and their growth factors *)

(** The linear dynamics [dx/dt = a * x]. *)
Definition linear_ode (a : R) (x : vec) (u : matrix) (p : vec) : result matrix :=
  Ok [smul a x].

(** The dynamics [dx/dt = u], which ignores the state. *)
Definition control_ode (x : vec) (u : matrix) (p : vec) : result matrix := Ok u.

(** The factor by which one RK4 sub-step multiplies the state under the
    linear dynamics, [z] being [h * a]. *)
Definition RK4_growth (z : R) : R :=
  1 + z + z ^ 2 / 2 + z ^ 3 / 6 + z ^ 4 / 24.

(** The factors of the stages of one RK8 sub-step under the linear
    dynamics: the stage [i] is evaluated at the state [RK8_ci z * x]. *)
Definition RK8_c2 (z : R) : R := 1 + z * 4 / 27.
Definition RK8_c3 (z : R) : R := 1 + z / 18 * (1 + 3 * RK8_c2 z).
Definition RK8_c4 (z : R) : R := 1 + z / 12 * (1 + 3 * RK8_c3 z).
Definition RK8_c5 (z : R) : R := 1 + z / 8 * (1 + 3 * RK8_c4 z).
Definition RK8_c6 (z : R) : R :=
  1 + z / 54 * (13 - 27 * RK8_c3 z + 42 * RK8_c4 z + 8 * RK8_c5 z).
Definition RK8_c7 (z : R) : R :=
  1 + z / 4320 * (389 - 54 * RK8_c3 z + 966 * RK8_c4 z - 824 * RK8_c5 z + 243 * RK8_c6 z).
Definition RK8_c8 (z : R) : R :=
  1 + z / 20 * (-234 + 81 * RK8_c3 z - 1164 * RK8_c4 z + 656 * RK8_c5 z - 122 * RK8_c6 z
                + 800 * RK8_c7 z).
Definition RK8_c9 (z : R) : R :=
  1 + z / 288 * (-127 + 18 * RK8_c3 z - 678 * RK8_c4 z + 456 * RK8_c5 z - 9 * RK8_c6 z
                 + 576 * RK8_c7 z + 4 * RK8_c8 z).
Definition RK8_c10 (z : R) : R :=
  1 + z / 820 * (1481 - 81 * RK8_c3 z + 7104 * RK8_c4 z - 3376 * RK8_c5 z + 72 * RK8_c6 z
                 - 5040 * RK8_c7 z - 60 * RK8_c8 z + 720 * RK8_c9 z).
Definition RK8_growth (z : R) : R :=
  1 + z / 840 * (41 + 27 * RK8_c4 z + 272 * RK8_c5 z + 27 * RK8_c6 z + 216 * RK8_c7 z
                 + 216 * RK8_c9 z + 41 * RK8_c10 z).

Definition scheme_growth (s : Scheme) (z : R) : R :=
  match s with
  | RK4 => RK4_growth z
  | RK8 => RK8_growth z
  end.

(** The values met by one RK8 sub-step under the linear dynamics. *)
Definition RK8_linear_values (a h : R) (x : vec)
    (u1 u2 u3 u4 u5 u6 u7 u8 u9 : matrix) : RK8_values :=
  let z := h * a in
  {| rk8_u1 := u1; rk8_u2 := u2; rk8_u3 := u3; rk8_u4 := u4; rk8_u5 := u5;
     rk8_u6 := u6; rk8_u7 := u7; rk8_u8 := u8; rk8_u9 := u9;
     rk8_k1 := smul a x;
     rk8_k2 := smul (a * RK8_c2 z) x;
     rk8_k3 := smul (a * RK8_c3 z) x;
     rk8_k4 := smul (a * RK8_c4 z) x;
     rk8_k5 := smul (a * RK8_c5 z) x;
     rk8_k6 := smul (a * RK8_c6 z) x;
     rk8_k7 := smul (a * RK8_c7 z) x;
     rk8_k8 := smul (a * RK8_c8 z) x;
     rk8_k9 := smul (a * RK8_c9 z) x;
     rk8_k10 := smul (a * RK8_c10 z) x |}.

(** The linear interpolation of the two columns of a control. *)
Definition interpolate (u0 u1 : vec) (t : R) : vec :=
  vplus u0 (vmulr (vminus u1 u0) t).

(** The values met by one RK8 sub-step under the dynamics [dx/dt = u], the
    control being interpolated between [u0] and [u1]. *)
Definition RK8_control_values (u0 u1 : vec) (t h_norm : R) : RK8_values :=
  let v := fun c => interpolate u0 u1 (t + h_norm * c) in
  {| rk8_u1 := [interpolate u0 u1 t]; rk8_u2 := [v (4 / 27)]; rk8_u3 := [v (2 / 9)];
     rk8_u4 := [v (1 / 3)]; rk8_u5 := [v (1 / 2)]; rk8_u6 := [v (2 / 3)];
     rk8_u7 := [v (1 / 6)]; rk8_u8 := [interpolate u0 u1 (t + h_norm)];
     rk8_u9 := [v (5 / 6)];
     rk8_k1 := interpolate u0 u1 t; rk8_k2 := v (4 / 27); rk8_k3 := v (2 / 9);
     rk8_k4 := v (1 / 3); rk8_k5 := v (1 / 2); rk8_k6 := v (2 / 3);
     rk8_k7 := v (1 / 6); rk8_k8 := interpolate u0 u1 (t + h_norm);
     rk8_k9 := v (5 / 6); rk8_k10 := interpolate u0 u1 (t + h_norm) |}.

(** ** Events of a run *)

(** What an event of one explicit sub-step from the normalised time [t]
    may be: a sampling of the control inside the sub-step, or an evaluation
    of the dynamics on the parameters [p]; never a call of the
    root-finder. *)
Definition sub_step_event (t h_norm : R) (p : vec) (e : event) : Prop :=
  match e with
  | EvGetU s => t <= s <= t + h_norm
  | EvDyn _ _ p' => p' = p
  | EvSolve => False
  end.

(** The same over the whole interval, [p] being the outcome of the scaling
    of the parameters. *)
Definition explicit_event (p : result vec) (e : event) : Prop :=
  match e with
  | EvGetU t => 0 <= t <= 1
  | EvDyn _ _ p' => p = Ok p'
  | EvSolve => False
  end.

(** The number of stages [k1, k2, ...] of a sub-step. *)
Definition scheme_stages (s : Scheme) : nat :=
  match s with RK4 => 4%nat | RK8 => 10%nat end.

(** * The Ipopt interface

    [interfaces/ipopt_interface.py]: the options of the solver.  A Python
    dictionary that is only read by key is a finite map; the dictionary
    [solver_options], which [configure] iterates, is the list of its items
    in the order of insertion. *)

(** The values of the options: Python numbers and strings, and the
    [OnlineCallback(ocp)] of the online graphics. *)
Inductive OptionValue : Type :=
  | OptFloat (x : R)
  | OptInt (n : Z)
  | OptStr (s : string)
  | OptCallback (ocp : nat).

(** The attributes of an [IpoptInterface] that the options and the
    multipliers touch. *)
Record IpoptInterface : Type := {
  options_common : gmap string OptionValue;
  opts : gmap string OptionValue;
  lam_g : option vec;
  lam_x : option vec
}.

(** [IpoptInterface.__init__] *)
Definition IpoptInterface_init : IpoptInterface :=
  {| options_common := ∅; opts := ∅; lam_g := None; lam_x := None |}.

(** [IpoptInterface.online_optim], [platform] being [sys.platform] *)
Definition online_optim (platform : string) (self : IpoptInterface) (ocp : nat)
  : result IpoptInterface :=
  if decide (platform = "win32") then Raise RuntimeError
  else Ok {| options_common := <["iteration_callback" := OptCallback ocp]> (options_common self);
             opts := opts self; lam_g := lam_g self; lam_x := lam_x self |}.

(** The dictionary [options] that [configure] starts from *)
Definition default_options : gmap string OptionValue :=
  <["ipopt.linear_solver" := OptStr "mumps"]>
    (<["ipopt.limited_memory_max_history" := OptInt 50]>
       (<["ipopt.hessian_approximation" := OptStr "exact"]>
          (<["ipopt.max_iter" := OptInt 1000]>
             (<["ipopt.tol" := OptFloat (1 / 1000000)]> ∅)))).

(** [ipopt_key]: the key, prefixed unless [key[:6]] is the prefix already *)
Definition ipopt_key (key : string) : string :=
  if decide (String.substring 0 6 key <> "ipopt.") then "ipopt." +:+ key else key.

(** The loop [for key in solver_options] *)
Fixpoint configure_loop (solver_options : list (string * OptionValue))
    (options : gmap string OptionValue) : gmap string OptionValue :=
  match solver_options with
  | [] => options
  | (key, value) :: rest => configure_loop rest (<[ipopt_key key := value]> options)
  end.

(** [configure] from the definition of [options] on; in
    [{**options, **self.options_common}] the common options win. *)
Definition configure_with (self : IpoptInterface)
    (solver_options : list (string * OptionValue)) : IpoptInterface :=
  let options := configure_loop solver_options default_options in
  {| options_common := options_common self;
     opts := options_common self ∪ options;
     lam_g := lam_g self; lam_x := lam_x self |}.

(** [IpoptInterface.configure]; [if self.opts] holds of a dictionary that
    is not empty. *)
Definition configure (self : IpoptInterface)
    (solver_options : option (list (string * OptionValue))) : IpoptInterface :=
  match solver_options with
  | None => if decide (opts self <> ∅) then self else configure_with self []
  | Some solver_options => configure_with self solver_options
  end.

(** The names of the options of Ipopt proper. *)
Definition ipopt_namespace (key : string) : Prop := String.substring 0 6 key = "ipopt.".

(** An interface on which the online graphics were declared after a first
    configuration. *)
Definition sample_interface : IpoptInterface :=
  {| options_common := {[ "iteration_callback" := OptCallback 7 ]};
     opts := default_options; lam_g := None; lam_x := None |}.

(** * The plots of the program

    [OptimalControlProgram.add_plot] of
    [optimization/optimal_control_program.py]; of a phase only its
    dictionary [plot] is modelled. *)

Section AddPlot.

(** [CustomPlot] of [gui/plot.py]: its constructor on the update function
    and the keyword parameters, and the assignment of its attribute
    [combine_to]. *)
Variables CustomPlot Callable Any : Type.
Variable CustomPlot_init : Callable -> gmap string Any -> CustomPlot.
Variable set_combine_to : CustomPlot -> string -> CustomPlot.

(** The name [fig_name_phase<phase>_<cmp>] *)
Definition numbered_plot_name (fig_name : string) (phase : Z) (cmp : nat) : string :=
  fig_name +:+ "_phase" +:+ pretty phase +:+ "_" +:+ pretty cmp.

(** The loop [while True] that counts [cmp] up to the first name that is
    not a key of [plot]; [None] when the fuel does not reach it. *)
Fixpoint unique_plot_name (fuel : nat) (plot : gmap string CustomPlot)
    (fig_name : string) (phase : Z) (cmp : nat) : option string :=
  match fuel with
  | O => None
  | S fuel' =>
      let plot_name := numbered_plot_name fig_name phase cmp in
      match plot !! plot_name with
      | None => Some plot_name
      | Some _ => unique_plot_name fuel' plot fig_name phase (cmp + 1)
      end
  end.

(** [add_plot] on the dictionaries [plot] of the phases; [None] when the
    search of a name does not end. *)
Definition add_plot (nlp : list (gmap string CustomPlot)) (fig_name : string)
    (update_function : Callable) (phase : Z) (parameters : gmap string Any)
  : option (result (list (gmap string CustomPlot))) :=
  match parameters !! "combine_to" with
  | Some _ => Some (Raise RuntimeError)
  | None =>
      let phase' :=
        if Nat.eqb (length nlp) 1 then Ok 0%Z
        else if (phase <? 0)%Z then Raise RuntimeError else Ok phase in
      match (phase <~ phase' ;; i <~ py_index (length nlp) phase ;;
             plot <~ lookup_or_raise nlp i ;; Ok (phase, i, plot)) with
      | Raise e => Some (Raise e)
      | Ok (phase, i, plot) =>
          let custom_plot := CustomPlot_init update_function parameters in
          let named :=
            match plot !! fig_name with
            | Some _ =>
                let custom_plot := set_combine_to custom_plot fig_name in
                if decide (fig_name <> "") then
                  match unique_plot_name (S (size plot)) plot fig_name phase 0 with
                  | Some plot_name => Some (plot_name, custom_plot)
                  | None => None
                  end
                else Some ("no_name", custom_plot)
            | None => Some (fig_name, custom_plot)
            end in
          match named with
          | Some (plot_name, custom_plot) =>
              Some (Ok (<[i := <[plot_name := custom_plot]> plot]> nlp))
          | None => None
          end
      end
  end.

End AddPlot.

Arguments unique_plot_name {CustomPlot} fuel plot fig_name phase cmp.
Arguments add_plot {CustomPlot Callable Any} CustomPlot_init set_combine_to
  nlp fig_name update_function phase parameters.

(** Programs of one phase: a plot named [q]; the same after a second plot
    of that name; a plot of empty name beside one named [no_name], and the
    same after a second plot of empty name. *)
Definition sample_plots : list (gmap string (nat * option string)) :=
  [ {[ "q" := (0%nat, None) ]} ].

Definition sample_plots_added : list (gmap string (nat * option string)) :=
  [ <["q_phase0_0" := (1%nat, Some "q")]> {[ "q" := (0%nat, None) ]} ].

Definition unnamed_plots : list (gmap string (nat * option string)) :=
  [ <["no_name" := (1%nat, None)]> {[ "" := (0%nat, None) ]} ].

Definition unnamed_plots_added : list (gmap string (nat * option string)) :=
  [ <["no_name" := (2%nat, Some "")]> {[ "" := (0%nat, None) ]} ].

(** * The time of the phases

    The function [define_parameters_phase_time] of
    [OptimalControlProgram._define_time], and its two calls.  Of a penalty
    the function reads the type, the bounds and the dictionary [params];
    the lists that it updates in place are threaded as a state. *)

(** The types of penalty that the function tells apart *)
Inductive PenaltyType : Type :=
  | MAYER_MINIMIZE_TIME
  | LAGRANGE_MINIMIZE_TIME
  | TIME_CONSTRAINT
  | OTHER_PENALTY (tag : nat).

(** A bound: a number or an infinity *)
Inductive Bound : Type :=
  | Finite (x : R)
  | PlusInf
  | MinusInf.

Record Penalty : Type := {
  penalty_type : PenaltyType;
  min_bound : option Bound;
  max_bound : option Bound;
  penalty_params : gmap string Bound
}.

(** An entry of [_phase_time]: the number given by the user, or the symbol
    [time_phase_i] *)
Inductive PhaseTime : Type :=
  | TimeValue (x : R)
  | TimeSymbol (phase : nat).

(** The five lists that the function updates *)
Record TimeLists : Type := {
  initial_time_guess : list PhaseTime;
  phase_time : list PhaseTime;
  time_min : list Bound;
  time_max : list Bound;
  has_penalty : list bool
}.

Definition is_time_penalty (t : PenaltyType) : bool :=
  match t with
  | MAYER_MINIMIZE_TIME | LAGRANGE_MINIMIZE_TIME | TIME_CONSTRAINT => true
  | OTHER_PENALTY _ => false
  end.

(** [b if b else d]: a bound that is absent or zero is replaced *)
Definition bound_or (b : option Bound) (d : Bound) : Bound :=
  match b with
  | None => d
  | Some (Finite x) => if Req_dec_T x 0 then d else Finite x
  | Some b => b
  end.

Section DefineTime.

(** [pen_fun.type.get_type() == ConstraintFunction] *)
Variable is_constraint_function : PenaltyType -> bool.

(** What is appended to [_time_min] and to [_time_max] *)
Definition penalty_time_min (pen_fun : Penalty) : Bound :=
  if is_constraint_function (penalty_type pen_fun) then bound_or (min_bound pen_fun) (Finite 0)
  else default (Finite 0) (penalty_params pen_fun !! "min_bound").

Definition penalty_time_max (pen_fun : Penalty) : Bound :=
  if is_constraint_function (penalty_type pen_fun) then bound_or (max_bound pen_fun) PlusInf
  else default PlusInf (penalty_params pen_fun !! "max_bound").

(** The body of the test of the type, for the phase [i] *)
Definition time_penalty (i : nat) (pen_fun : Penalty) (st : TimeLists) : result TimeLists :=
  flag <~ lookup_or_raise (has_penalty st) i ;;
  if (flag : bool) then Raise RuntimeError
  else
    t_i <~ lookup_or_raise (phase_time st) i ;;
    Ok {| initial_time_guess := initial_time_guess st ++ [t_i];
          phase_time := <[i := TimeSymbol i]> (phase_time st);
          time_min := time_min st ++ [penalty_time_min pen_fun];
          time_max := time_max st ++ [penalty_time_max pen_fun];
          has_penalty := <[i := true]> (has_penalty st) |}.

(** What the time penalty [pen_fun] of the phase [i] does to the lists when
    it is the first one of its phase, [ip] being the pair of [i] and
    [pen_fun]. *)
Definition found_step (st : TimeLists) (ip : nat * Penalty) : TimeLists :=
  {| initial_time_guess :=
       initial_time_guess st ++ [default (TimeSymbol (fst ip)) (phase_time st !! fst ip)];
     phase_time := <[fst ip := TimeSymbol (fst ip)]> (phase_time st);
     time_min := time_min st ++ [penalty_time_min (snd ip)];
     time_max := time_max st ++ [penalty_time_max (snd ip)];
     has_penalty := <[fst ip := true]> (has_penalty st) |}.

(** The loop [for pen_fun in penalty_functions_phase]; [None] is a penalty
    that is false *)
Fixpoint phase_loop (i : nat) (penalty_functions_phase : list (option Penalty))
    (st : TimeLists) : result TimeLists :=
  match penalty_functions_phase with
  | [] => Ok st
  | None :: rest => phase_loop i rest st
  | Some pen_fun :: rest =>
      if is_time_penalty (penalty_type pen_fun) then
        st <~ time_penalty i pen_fun st ;; phase_loop i rest st
      else phase_loop i rest st
  end.

(** The loop [for i, penalty_functions_phase in enumerate(penalty_functions)] *)
Fixpoint phases_loop (i : nat) (penalty_functions : list (list (option Penalty)))
    (st : TimeLists) : result TimeLists :=
  match penalty_functions with
  | [] => Ok st
  | penalty_functions_phase :: rest =>
      st <~ phase_loop i penalty_functions_phase st ;;
      phases_loop (i + 1) rest st
  end.

(** [define_parameters_phase_time] *)
Definition define_parameters_phase_time (n_phases : nat)
    (penalty_functions : list (list (option Penalty)))
    (_initial_time_guess _phase_time : list PhaseTime) (_time_min _time_max : list Bound)
    (_has_penalty : option (list bool)) : result TimeLists :=
  let _has_penalty :=
    match _has_penalty with
    | None => replicate n_phases false
    | Some l => l
    end in
  phases_loop 0 penalty_functions
    {| initial_time_guess := _initial_time_guess; phase_time := _phase_time;
       time_min := _time_min; time_max := _time_max; has_penalty := _has_penalty |}.

(** The two calls of [_define_time]: the objectives, then the constraints *)
Definition define_time_lists (n_phases : nat) (phase_time0 : list PhaseTime)
    (objective_functions constraints : list (list (option Penalty))) : result TimeLists :=
  st <~ define_parameters_phase_time n_phases objective_functions [] phase_time0 [] [] None ;;
  define_parameters_phase_time n_phases constraints
    (initial_time_guess st) (phase_time st) (time_min st) (time_max st)
    (Some (has_penalty st)).

End DefineTime.

(** The time penalties of a phase ([i] of the list [l]) *)
Definition time_penalties (l : list (option Penalty)) : list Penalty :=
  omap (fun p => match p with
                 | Some pen_fun =>
                     if is_time_penalty (penalty_type pen_fun) then Some pen_fun else None
                 | None => None
                 end) l.

Definition phase_penalties (l : list (list (option Penalty))) (i : nat) : list Penalty :=
  time_penalties (default [] (l !! i)).

(** The time penalties of the phases from [i] on, each with its phase, in
    the order in which the loops meet them. *)
Fixpoint discovered (i : nat) (l : list (list (option Penalty))) : list (nat * Penalty) :=
  match l with
  | [] => []
  | pens :: rest => map (pair i) (time_penalties pens) ++ discovered (i + 1) rest
  end.

(** A program of two phases: the time of the second one is minimised, the
    time of the first one is constrained. *)
Definition sample_is_constraint (t : PenaltyType) : bool :=
  match t with TIME_CONSTRAINT => true | _ => false end.

Definition sample_objectives : list (list (option Penalty)) :=
  [ []; [Some {| penalty_type := MAYER_MINIMIZE_TIME; min_bound := None; max_bound := None;
                 penalty_params := ∅ |}] ].

Definition sample_constraints : list (list (option Penalty)) :=
  [ [Some {| penalty_type := TIME_CONSTRAINT; min_bound := None; max_bound := None;
             penalty_params := ∅ |}]; [] ].

Definition sample_time_lists : TimeLists :=
  {| initial_time_guess := [TimeValue 2; TimeValue 1];
     phase_time := [TimeSymbol 0; TimeSymbol 1];
     time_min := [Finite 0; Finite 0];
     time_max := [PlusInf; PlusInf];
     has_penalty := [true; true] |}.

(** ** The control interpolation on doubles

    [Integrator.get_u] once more, its arithmetic being the one of the
    code: the entries are IEEE doubles, each operation rounds. *)

Abbreviation vec64 := (list float).
Abbreviation matrix64 := (list (list float)).

(** [x[:, k]] *)
Definition get_col64 (x : matrix64) (k : Z) : result vec64 :=
  match py_index (length x) k with
  | Ok i => match x !! i with Some c => Ok c | None => Raise IndexError end
  | Raise e => Raise e
  end.

Definition vzip64 (f : float -> float -> float) (a b : vec64) : result vec64 :=
  if Nat.eqb (length a) (length b) then Ok (zip_with f a b) else Raise ShapeError.

(** [Integrator.get_u] *)
Definition Integrator_get_u64 (control_type : ControlType) (u : matrix64) (dt_norm : float)
  : result matrix64 :=
  match control_type with
  | CONSTANT => Ok u
  | LINEAR_CONTINUOUS =>
      u0 <~ get_col64 u 0 ;;
      u1 <~ get_col64 u 1 ;;
      d <~ vzip64 PrimFloat.sub u1 u0 ;;
      v <~ vzip64 PrimFloat.add u0 (map (fun a => PrimFloat.mul a dt_norm) d) ;;
      Ok [v]
  | OTHER_CONTROL _ => Raise RuntimeError
  end.

(** A double that is neither an infinity nor a NaN. *)
Definition is_finite64 (x : float) : bool :=
  match Prim2SF x with
  | S754_nan | S754_infinity _ => false
  | S754_zero _ | S754_finite _ _ _ => true
  end.

(** [v == w] on columns: the entries compare equal. *)
Definition equal64 (v w : vec64) : Prop :=
  Forall2 (fun a b => PrimFloat.eqb a b = true) v w.

(** The interpolation returns the second column at the time 1: on the
    control of the columns [u0] and [u1], [get_u(u, 1.0) == u[:, 1]]. *)
Definition exact_at_end (u0 u1 : vec64) : Prop :=
  exists v, Integrator_get_u64 LINEAR_CONTINUOUS [u0; u1] 1 = Ok [v] /\ equal64 v u1.

(** * Properties *)

(** ** Vectors *)

Lemma vzip_same_length f (a b : vec) :
  length a = length b -> vzip f a b = Ok (zip_with f a b).
Proof.
  intros H. unfold vzip. rewrite H, Nat.eqb_refl. reflexivity.
Qed.

Lemma vadd_same_length (a b : vec) :
  length a = length b -> vadd a b = Ok (vplus a b).
Proof. apply vzip_same_length. Qed.

Lemma vsub_same_length (a b : vec) :
  length a = length b -> vsub a b = Ok (vminus a b).
Proof. apply vzip_same_length. Qed.

Lemma length_smul c (v : vec) : length (smul c v) = length v.
Proof. apply length_map. Qed.

Lemma length_vmulr (v : vec) c : length (vmulr v c) = length v.
Proof. apply length_map. Qed.

Lemma length_vplus (a b : vec) : length a = length b -> length (vplus a b) = length a.
Proof. intros H. unfold vplus. rewrite length_zip_with. lia. Qed.

Lemma length_vminus (a b : vec) : length a = length b -> length (vminus a b) = length a.
Proof. intros H. unfold vminus. rewrite length_zip_with. lia. Qed.

Lemma radd_ok (a b : vec) :
  length a = length b -> radd (Ok a) (Ok b) = Ok (vplus a b).
Proof. intros H. simpl. apply vadd_same_length, H. Qed.

Lemma rsub_ok (a b : vec) :
  length a = length b -> rsub (Ok a) (Ok b) = Ok (vminus a b).
Proof. intros H. simpl. apply vsub_same_length, H. Qed.

Lemma rscale_ok c (a : vec) : rscale c (Ok a) = Ok (smul c a).
Proof. reflexivity. Qed.

(** ** Python indices *)

Lemma py_index_nat len i : (i < len)%nat -> py_index len (Z.of_nat i) = Ok i.
Proof.
  intros H. unfold py_index.
  destruct (Z.leb_spec 0 (Z.of_nat i)); [|lia].
  destruct (Z.ltb_spec (Z.of_nat i) (Z.of_nat len)); [|lia].
  rewrite Nat2Z.id. reflexivity.
Qed.

Lemma py_index_pred len i : (1 <= i <= len)%nat -> py_index len (Z.of_nat i - 1) = Ok (i - 1)%nat.
Proof.
  intros H. replace (Z.of_nat i - 1)%Z with (Z.of_nat (i - 1)) by lia.
  apply py_index_nat. lia.
Qed.

Lemma py_index_last len : (1 <= len)%nat -> py_index len (-1) = Ok (len - 1)%nat.
Proof.
  intros H. unfold py_index.
  destruct (Z.leb_spec 0 (-1)); [lia|].
  destruct (Z.leb_spec (- Z.of_nat len) (-1)); [|lia].
  f_equal. lia.
Qed.

Lemma get_col_nat (x : matrix) i c : x !! i = Some c -> get_col x (Z.of_nat i) = Ok c.
Proof.
  intros H. unfold get_col.
  rewrite py_index_nat by (eapply lookup_lt_Some; eauto). rewrite H. reflexivity.
Qed.

Lemma get_col_last (x : matrix) c :
  x !! (length x - 1)%nat = Some c -> get_col x (-1) = Ok c.
Proof.
  intros H. unfold get_col.
  rewrite py_index_last by (apply lookup_lt_Some in H; lia). rewrite H. reflexivity.
Qed.

Lemma set_col_nat (x : matrix) i c v :
  x !! i = Some c -> length c = length v -> set_col x (Z.of_nat i) v = Ok (<[i := v]> x).
Proof.
  intros H Hl. unfold set_col.
  rewrite py_index_nat by (eapply lookup_lt_Some; eauto). rewrite H, Hl, Nat.eqb_refl.
  reflexivity.
Qed.

(** Linear interpolation at the two ends of the interval. *)
Lemma interpolate_at_0 (u0 u1 : vec) :
  length u0 = length u1 -> vplus u0 (vmulr (vminus u1 u0) 0) = u0.
Proof.
  revert u1. induction u0 as [|a u0 IH]; intros [|b u1] H; simpl in *; try discriminate.
  - reflexivity.
  - f_equal; [lra | apply IH; lia].
Qed.

Lemma interpolate_at_1 (u0 u1 : vec) :
  length u0 = length u1 -> vplus u0 (vmulr (vminus u1 u0) 1) = u1.
Proof.
  revert u1. induction u0 as [|a u0 IH]; intros [|b u1] H; simpl in *; try discriminate.
  - reflexivity.
  - f_equal; [lra | apply IH; lia].
Qed.

Lemma get_u_linear (u0 u1 : vec) (rest : matrix) t :
  length u0 = length u1 ->
  Integrator_get_u LINEAR_CONTINUOUS (u0 :: u1 :: rest) t
  = Ok [vplus u0 (vmulr (vminus u1 u0) t)].
Proof.
  intros H. unfold Integrator_get_u.
  rewrite (get_col_nat _ 0 u0), (get_col_nat _ 1 u1) by reflexivity.
  cbn [rbind]. rewrite vsub_same_length by lia.
  cbn [rbind]. rewrite vadd_same_length; [reflexivity|].
  rewrite length_vmulr, length_vminus; lia.
Qed.

(** *** The interpolation on doubles *)

Lemma get_col64_nat (x : matrix64) i c : x !! i = Some c -> get_col64 x (Z.of_nat i) = Ok c.
Proof.
  intros H. unfold get_col64. rewrite py_index_nat by (apply lookup_lt_Some in H; exact H).
  rewrite H. reflexivity.
Qed.

Lemma zip_with_interpolate64 (u0 u1 : vec64) t :
  zip_with PrimFloat.add u0
    (map (fun a => PrimFloat.mul a t) (zip_with PrimFloat.sub u1 u0))
  = zip_with (fun a b => (a + (b - a) * t)%float) u0 u1.
Proof.
  revert u1. induction u0 as [|a u0 IH]; intros [|b u1]; try reflexivity.
  cbn [zip_with map]. rewrite IH. reflexivity.
Qed.

Lemma get_u64_linear (u0 u1 : vec64) (rest : matrix64) t :
  length u0 = length u1 ->
  Integrator_get_u64 LINEAR_CONTINUOUS (u0 :: u1 :: rest) t
  = Ok [zip_with (fun a b => (a + (b - a) * t)%float) u0 u1].
Proof.
  intros H. unfold Integrator_get_u64.
  change 0%Z with (Z.of_nat 0). change 1%Z with (Z.of_nat 1).
  rewrite (get_col64_nat _ 0 u0), (get_col64_nat _ 1 u1) by reflexivity.
  cbn [rbind]. unfold vzip64. rewrite <- H, Nat.eqb_refl. cbn [rbind].
  rewrite length_map, length_zip_with, <- H, Nat.min_id, Nat.eqb_refl. cbn [rbind].
  rewrite zip_with_interpolate64. reflexivity.
Qed.

(** A finite double times zero is a zero. *)
Lemma mul_zero_finite64 (x : float) :
  is_finite64 x = true -> exists s, Prim2SF (x * 0)%float = S754_zero s.
Proof.
  unfold is_finite64. intros H. rewrite mul_spec.
  change (Prim2SF 0%float) with (S754_zero false). unfold SF64mul, SFmul.
  destruct (Prim2SF x) as [s|s| |s m e]; try discriminate; eexists; reflexivity.
Qed.

(** Adding a zero to a double that is not a NaN gives a double that
    compares equal to it. *)
Lemma add_zero_equal64 (a z : float) s :
  Prim2SF z = S754_zero s -> Prim2SF a <> S754_nan -> (a + z =? a)%float = true.
Proof.
  intros Hz Ha. rewrite FloatAxioms.eqb_spec, add_spec, Hz. unfold SF64add, SFadd.
  destruct (Prim2SF a) as [sa|sa| |sa m e]; try contradiction.
  - destruct sa, s; reflexivity.
  - destruct sa; reflexivity.
  - unfold SFeqb, SFcompare. rewrite Z.compare_refl, Pos.compare_refl.
    destruct sa; reflexivity.
Qed.

(** A difference is finite only when what is subtracted is not a NaN. *)
Lemma sub_finite_not_nan (a b : float) :
  is_finite64 (b - a) = true -> Prim2SF a <> S754_nan.
Proof.
  unfold is_finite64. rewrite sub_spec. unfold SF64sub, SFsub. intros H Ha.
  rewrite Ha in H. destruct (Prim2SF b); discriminate.
Qed.

Lemma interpolate64_at_0 (a b : float) :
  is_finite64 (b - a) = true -> (a + (b - a) * 0 =? a)%float = true.
Proof.
  intros H. destruct (mul_zero_finite64 _ H) as [s Hs].
  apply (add_zero_equal64 a _ s Hs). apply (sub_finite_not_nan a b H).
Qed.

(** The double nearest to -0.9, and its successor towards zero. *)
Lemma get_u64_end_value :
  Integrator_get_u64 LINEAR_CONTINUOUS [[(-3)%float]; [(-0x1.ccccccccccccdp-1)%float]] 1
  = Ok [[(-0x1.cccccccccccccp-1)%float]].
Proof. vm_compute. reflexivity. Qed.

(** C6 as stated fails: on doubles the value at the time 1 is not always
    the second column.  Between the columns -3.0 and -0.9 the code returns
    -0.8999999999999999. *)
Lemma get_u_endpoint_counterexample :
  ~ exact_at_end [(-3)%float] [(-0x1.ccccccccccccdp-1)%float].
Proof.
  intros (v & Hv & Heq). rewrite get_u64_end_value in Hv.
  injection Hv as <-. unfold equal64 in Heq.
  apply Forall2_cons_1 in Heq. destruct Heq as [Heq _].
  vm_compute in Heq. discriminate.
Qed.

(** C6, amended: under CONSTANT the control is returned unchanged whatever
    the time; under LINEAR_CONTINUOUS the two columns [u0] and [u1] of the
    control are combined into [u0 + (u1 - u0) * t], evaluated on doubles.
    At the time 0 the value compares equal to [u0] when the differences
    [u1 - u0] are finite.  At the time 1 the expression is [u1] in exact
    arithmetic, as it is [u0] at the time 0, but the value returned is the
    one of [u0 + (u1 - u0) * 1] on doubles, which need not be [u1]. *)
Theorem get_u_interpolation :
  (forall (u : matrix64) (t : float), Integrator_get_u64 CONSTANT u t = Ok u)
  /\ (forall (u0 u1 : vec64) (rest : matrix64) (t : float),
        length u0 = length u1 ->
        Integrator_get_u64 LINEAR_CONTINUOUS (u0 :: u1 :: rest) t
        = Ok [zip_with (fun a b => (a + (b - a) * t)%float) u0 u1])
  /\ (forall (u0 u1 : vec64) (rest : matrix64),
        Forall2 (fun a b => is_finite64 (b - a) = true) u0 u1 ->
        exists v, Integrator_get_u64 LINEAR_CONTINUOUS (u0 :: u1 :: rest) 0 = Ok [v]
                  /\ equal64 v u0)
  /\ (forall (u0 u1 : vec64) (rest : matrix64),
        length u0 = length u1 ->
        Integrator_get_u64 LINEAR_CONTINUOUS (u0 :: u1 :: rest) 1
        = Ok [zip_with (fun a b => (a + (b - a) * 1)%float) u0 u1])
  /\ (forall (u : matrix) (t : R), Integrator_get_u CONSTANT u t = Ok u)
  /\ (forall (u0 u1 : vec) (rest : matrix) (t : R),
        length u0 = length u1 ->
        Integrator_get_u LINEAR_CONTINUOUS (u0 :: u1 :: rest) t
        = Ok [vplus u0 (vmulr (vminus u1 u0) t)]
        /\ vplus u0 (vmulr (vminus u1 u0) 0) = u0
        /\ vplus u0 (vmulr (vminus u1 u0) 1) = u1).
Proof.
  split; [reflexivity|]. split; [intros u0 u1 rest t H; apply get_u64_linear, H|].
  split; [|split; [intros u0 u1 rest H; apply get_u64_linear, H|]].
  - intros u0 u1 rest Hfin.
    exists (zip_with (fun a b => (a + (b - a) * 0)%float) u0 u1).
    split; [apply get_u64_linear, (Forall2_length _ _ _ Hfin)|].
    unfold equal64. induction Hfin as [|a b u0 u1 Hab Hfin IH]; cbn [zip_with].
    + apply Forall2_nil_2.
    + apply Forall2_cons_2; [apply interpolate64_at_0, Hab|exact IH].
  - split; [reflexivity|]. intros u0 u1 rest t H. split; [apply get_u_linear, H|].
    split; [apply interpolate_at_0, H|apply interpolate_at_1, H].
Qed.

Lemma get_u_interpolation_witness :
  exists v,
    Integrator_get_u64 LINEAR_CONTINUOUS
      [[(-3)%float; 2%float]; [(-0x1.ccccccccccccdp-1)%float; 7%float]] 0 = Ok [v]
    /\ equal64 v [(-3)%float; 2%float].
Proof.
  apply (proj1 (proj2 (proj2 get_u_interpolation))
           [(-3)%float; 2%float] [(-0x1.ccccccccccccdp-1)%float; 7%float] []).
  repeat constructor.
Defined.

(** ** Running the trace monad *)

Lemma bind_ok {A B} (m : M A) (f : A -> M B) tr a :
  m = (tr, Ok a) -> bind m f = (tr ++ fst (f a), snd (f a)).
Proof. intros ->. reflexivity. Qed.

Lemma bind_raise {A B} (m : M A) (f : A -> M B) tr e :
  m = (tr, Raise e) -> bind m f = (tr, Raise e).
Proof. intros ->. reflexivity. Qed.

Lemma bind_lift_ok {A B} (r : result A) (f : A -> M B) a :
  r = Ok a -> bind (lift r) f = f a.
Proof. intros ->. unfold bind, lift. simpl. destruct (f a); reflexivity. Qed.

Lemma get_u_run ct u t :
  get_u ct u t = ([EvGetU t], Integrator_get_u ct u t).
Proof. unfold get_u, bind, emit, lift. simpl. destruct (Integrator_get_u ct u t); reflexivity. Qed.

Lemma dyn_run ode_fun idx x u p :
  dyn ode_fun idx x u p = ([EvDyn x u p], dyn_value ode_fun idx x u p).
Proof. unfold dyn, bind, emit, lift. simpl. destruct (dyn_value ode_fun idx x u p); reflexivity. Qed.

Lemma bind_get_u_ok {B} ct u t (f : matrix -> M B) u_t :
  Integrator_get_u ct u t = Ok u_t ->
  bind (get_u ct u t) f = (EvGetU t :: fst (f u_t), snd (f u_t)).
Proof. intros H. rewrite get_u_run, H. reflexivity. Qed.

Lemma bind_dyn_ok {B} ode_fun idx x u p (f : vec -> M B) k :
  dyn_value ode_fun idx x u p = Ok k ->
  bind (dyn ode_fun idx x u p) f = (EvDyn x u p :: fst (f k), snd (f k)).
Proof. intros H. rewrite dyn_run, H. reflexivity. Qed.

Ltac vec_len :=
  unfold vplus, vminus, smul, vmulr, zeros in *;
  repeat first [ rewrite length_zip_with | rewrite length_map | rewrite length_replicate ];
  lia.

Ltac rv_eval :=
  repeat first [ rewrite rscale_ok
               | rewrite radd_ok by vec_len
               | rewrite rsub_ok by vec_len ].

Lemma bind_lift_rv {B} (e : result vec) (f : vec -> M B) v :
  e = Ok v -> bind (lift e) f = f v.
Proof. apply bind_lift_ok. Qed.

(** One stage of a sub-step: the state of the stage is formed, the control
    is sampled, the dynamics is evaluated. *)
Ltac run_stage Hsample Hstage :=
  match goal with
  | |- context [bind (lift ?e) _] =>
      erewrite (bind_lift_rv e) by (rv_eval; reflexivity)
  | _ => idtac
  end;
  erewrite bind_get_u_ok by exact Hsample;
  erewrite bind_dyn_ok by exact Hstage;
  cbn [fst snd].

Section RK4_spec.

Variable ode_fun : vec -> matrix -> vec -> result matrix.
Variable idx : Z.
Variable control_type : ControlType.
Variable h_norm : R.
Variables (h t : R) (x_prev : vec) (u : matrix) (p : vec).
Variables (u1 u2 u3 : matrix) (k1 k2 k3 k4 : vec).

Let sample := Integrator_get_u control_type u.
Let f := dyn_value ode_fun idx.

Let x2 := vplus x_prev (smul (h / 2) k1).
Let x3 := vplus x_prev (smul (h / 2) k2).
Let x4 := vplus x_prev (smul h k3).

Hypothesis sample1 : sample t = Ok u1.
Hypothesis sample2 : sample (t + h_norm / 2) = Ok u2.
Hypothesis sample3 : sample (t + h_norm) = Ok u3.
Hypothesis stage1 : f x_prev u1 p = Ok k1.
Hypothesis stage2 : f x2 u2 p = Ok k2.
Hypothesis stage3 : f x3 u2 p = Ok k3.
Hypothesis stage4 : f x4 u3 p = Ok k4.
Hypothesis shape1 : length k1 = length x_prev.
Hypothesis shape2 : length k2 = length x_prev.
Hypothesis shape3 : length k3 = length x_prev.
Hypothesis shape4 : length k4 = length x_prev.

Lemma RK4_next_x_run :
  RK4_next_x ode_fun idx control_type h_norm h t x_prev u p
  = ([EvGetU t; EvDyn x_prev u1 p;
      EvGetU (t + h_norm / 2); EvDyn x2 u2 p;
      EvGetU (t + h_norm / 2); EvDyn x3 u2 p;
      EvGetU (t + h_norm); EvDyn x4 u3 p],
     Ok (vplus x_prev
           (smul (h / 6) (vplus (vplus (vplus k1 (smul 2 k2)) (smul 2 k3)) k4)))).
Proof.
  unfold RK4_next_x.
  run_stage sample1 stage1.
  run_stage sample2 stage2.
  run_stage sample2 stage3.
  run_stage sample3 stage4.
  unfold lift. rv_eval. reflexivity.
Qed.

End RK4_spec.

(** C4: the RK4 sub-step samples the control at [t], [t + h_norm / 2] (twice)
    and [t + h_norm], evaluates the dynamics exactly four times, at [x_prev],
    [x_prev + h/2 * k1], [x_prev + h/2 * k2] and [x_prev + h * k3], and
    returns [x_prev + h/6 * (k1 + 2*k2 + 2*k3 + k4)]. *)
Theorem RK4_next_x_spec
    (ode_fun : vec -> matrix -> vec -> result matrix) (idx : Z)
    (control_type : ControlType) (h_norm h t : R)
    (x_prev : vec) (u : matrix) (p : vec)
    (u1 u2 u3 : matrix) (k1 k2 k3 k4 : vec) :
  Integrator_get_u control_type u t = Ok u1 ->
  Integrator_get_u control_type u (t + h_norm / 2) = Ok u2 ->
  Integrator_get_u control_type u (t + h_norm) = Ok u3 ->
  dyn_value ode_fun idx x_prev u1 p = Ok k1 ->
  dyn_value ode_fun idx (vplus x_prev (smul (h / 2) k1)) u2 p = Ok k2 ->
  dyn_value ode_fun idx (vplus x_prev (smul (h / 2) k2)) u2 p = Ok k3 ->
  dyn_value ode_fun idx (vplus x_prev (smul h k3)) u3 p = Ok k4 ->
  length k1 = length x_prev -> length k2 = length x_prev ->
  length k3 = length x_prev -> length k4 = length x_prev ->
  RK4_next_x ode_fun idx control_type h_norm h t x_prev u p
  = ([EvGetU t; EvDyn x_prev u1 p;
      EvGetU (t + h_norm / 2); EvDyn (vplus x_prev (smul (h / 2) k1)) u2 p;
      EvGetU (t + h_norm / 2); EvDyn (vplus x_prev (smul (h / 2) k2)) u2 p;
      EvGetU (t + h_norm); EvDyn (vplus x_prev (smul h k3)) u3 p],
     Ok (vplus x_prev
           (smul (h / 6) (vplus (vplus (vplus k1 (smul 2 k2)) (smul 2 k3)) k4))))
  /\ count_dyn (trace_of (RK4_next_x ode_fun idx control_type h_norm h t x_prev u p)) = 4%nat.
Proof.
  intros S1 S2 S3 K1 K2 K3 K4 L1 L2 L3 L4.
  pose proof (RK4_next_x_run ode_fun idx control_type h_norm h t x_prev u p
                u1 u2 u3 k1 k2 k3 k4 S1 S2 S3 K1 K2 K3 K4 L1 L2 L3 L4) as Hrun.
  split; [exact Hrun|]. rewrite Hrun. reflexivity.
Qed.

Lemma RK4_next_x_spec_witness :
  count_dyn (trace_of (RK4_next_x (fun _ _ _ => Ok [[1]]) 0 CONSTANT 1 1 0 [0] [[0]] []))
  = 4%nat.
Proof.
  apply (RK4_next_x_spec (fun _ _ _ => Ok [[1]]) 0 CONSTANT 1 1 0 [0] [[0]] []
           [[0]] [[0]] [[0]] [1] [1] [1] [1]); reflexivity.
Defined.

Lemma RK8_next_x_run ode_fun idx control_type h_norm h t x_prev u p v :
  RK8_stages ode_fun idx control_type h_norm h t x_prev u p v ->
  RK8_next_x ode_fun idx control_type h_norm h t x_prev u p
  = (RK8_trace h_norm h t x_prev p v, Ok (RK8_result h x_prev v)).
Proof.
  intros (S1 & S2 & S3 & S4 & S5 & S6 & S7 & S8 & S9
          & K1 & K2 & K3 & K4 & K5 & K6 & K7 & K8 & K9 & K10 & L).
  repeat match goal with
         | H : Forall _ (_ :: _) |- _ => apply Forall_cons_1 in H; destruct H
         end.
  unfold RK8_x2, RK8_x3, RK8_x4, RK8_x5, RK8_x6, RK8_x7, RK8_x8, RK8_x9, RK8_x10 in *.
  unfold RK8_next_x, RK8_trace, RK8_result,
    RK8_x2, RK8_x3, RK8_x4, RK8_x5, RK8_x6, RK8_x7, RK8_x8, RK8_x9, RK8_x10.
  run_stage S1 K1.
  run_stage S2 K2.
  run_stage S3 K3.
  run_stage S4 K4.
  run_stage S5 K5.
  run_stage S6 K6.
  run_stage S7 K7.
  run_stage S8 K8.
  run_stage S9 K9.
  run_stage S8 K10.
  unfold lift. rv_eval. reflexivity.
Qed.

Lemma RK8_sample_stages :
  RK8_stages (fun _ _ _ => Ok [[1]]) 0 CONSTANT 1 1 0 [0] [[0]] [] RK8_sample_values.
Proof.
  unfold RK8_stages. repeat split; try reflexivity.
  repeat constructor.
Qed.

Lemma RK8_sample_distinct :
  NoDup (stage_points (RK8_trace 1 1 0 [0] [] RK8_sample_values)).
Proof.
  unfold RK8_trace, RK8_x2, RK8_x3, RK8_x4, RK8_x5, RK8_x6, RK8_x7, RK8_x8, RK8_x9, RK8_x10.
  simpl.
  repeat (apply NoDup_cons_2;
          [ rewrite list_elem_of_In; simpl; intros H;
            repeat (destruct H as [H|H]; [inversion H; lra|]); exact H
          | ]).
  apply NoDup_nil_2.
Qed.

(** C5: the RK8 sub-step makes exactly ten dynamics evaluations, in sequence,
    at the times and states fixed by its literal coefficients, and returns
    [x_prev + h/840 * (41*k1 + 27*k4 + 272*k5 + 27*k6 + 216*k7 + 216*k9 + 41*k10)];
    the ten time/state combinations are distinct: a run separates them all. *)
Theorem RK8_next_x_spec :
  (forall (ode_fun : vec -> matrix -> vec -> result matrix) (idx : Z)
          (control_type : ControlType) (h_norm h t : R)
          (x_prev : vec) (u : matrix) (p : vec) (v : RK8_values),
      RK8_stages ode_fun idx control_type h_norm h t x_prev u p v ->
      RK8_next_x ode_fun idx control_type h_norm h t x_prev u p
      = (RK8_trace h_norm h t x_prev p v, Ok (RK8_result h x_prev v))
      /\ RK8_result h x_prev v
         = vplus x_prev
             (smul (h / 840)
                (vplus (vplus (vplus (vplus (vplus (vplus
                   (smul 41 (rk8_k1 v)) (smul 27 (rk8_k4 v))) (smul 272 (rk8_k5 v)))
                   (smul 27 (rk8_k6 v))) (smul 216 (rk8_k7 v))) (smul 216 (rk8_k9 v)))
                   (smul 41 (rk8_k10 v))))
      /\ count_dyn (trace_of (RK8_next_x ode_fun idx control_type h_norm h t x_prev u p))
         = 10%nat)
  /\ (exists ode_fun idx control_type h_norm h t x_prev u p,
         let points :=
           stage_points (trace_of (RK8_next_x ode_fun idx control_type h_norm h t x_prev u p)) in
         length points = 10%nat /\ NoDup points).
Proof.
  split.
  - intros ode_fun idx control_type h_norm h t x_prev u p v Hv.
    pose proof (RK8_next_x_run _ _ _ _ _ _ _ _ _ _ Hv) as Hrun.
    split; [exact Hrun|]. split; [reflexivity|]. rewrite Hrun. reflexivity.
  - exists (fun _ _ _ => Ok [[1]]), 0%Z, CONSTANT, 1, 1, 0, [0], [[0]], [].
    cbv zeta. rewrite (RK8_next_x_run _ _ _ _ _ _ _ _ _ _ RK8_sample_stages).
    split; [reflexivity|]. apply RK8_sample_distinct.
Qed.

Lemma RK8_next_x_spec_witness :
  count_dyn (trace_of (RK8_next_x (fun _ _ _ => Ok [[1]]) 0 CONSTANT 1 1 0 [0] [[0]] []))
  = 10%nat.
Proof.
  apply (proj1 RK8_next_x_spec (fun _ _ _ => Ok [[1]]) 0%Z CONSTANT 1 1 0 [0] [[0]] []
           RK8_sample_values).
  unfold RK8_stages. repeat split; try reflexivity.
  repeat constructor.
Defined.

(** ** Results of monadic code *)

Lemma result_of_bind {A B} (m : M A) (f : A -> M B) :
  result_of (bind m f) = rbind (result_of m) (fun a => result_of (f a)).
Proof. unfold result_of, bind, rbind. destruct (snd m); reflexivity. Qed.

Lemma result_of_lift {A} (r : result A) : result_of (lift r) = r.
Proof. reflexivity. Qed.

Lemma result_of_ret {A} (a : A) : result_of (ret a) = Ok a.
Proof. reflexivity. Qed.

Lemma rbind_ok {A B} (r : result A) (f : A -> result B) a :
  r = Ok a -> rbind r f = f a.
Proof. intros ->. reflexivity. Qed.

(** ** Zero dynamics *)

Lemma smul_zeros c n : smul c (zeros n) = zeros n.
Proof.
  unfold smul, zeros. induction n as [|n IH]; simpl; [reflexivity|].
  rewrite IH. f_equal. lra.
Qed.

Lemma vplus_zeros_zeros n : vplus (zeros n) (zeros n) = zeros n.
Proof.
  unfold vplus, zeros. induction n as [|n IH]; simpl; [reflexivity|].
  rewrite IH. f_equal. lra.
Qed.

Lemma vminus_zeros_zeros n : vminus (zeros n) (zeros n) = zeros n.
Proof.
  unfold vminus, zeros. induction n as [|n IH]; simpl; [reflexivity|].
  rewrite IH. f_equal. lra.
Qed.

Lemma vplus_zeros_r (x : vec) : vplus x (zeros (length x)) = x.
Proof.
  unfold vplus, zeros. induction x as [|a x IH]; simpl; [reflexivity|].
  rewrite IH. f_equal. lra.
Qed.

Lemma length_zeros n : length (zeros n) = n.
Proof. apply length_replicate. Qed.

Ltac zeros_simpl :=
  repeat first [ rewrite smul_zeros | rewrite vplus_zeros_zeros
               | rewrite vminus_zeros_zeros | rewrite vplus_zeros_r ].

Section ZeroDynamics.

Variable ode_fun : vec -> matrix -> vec -> result matrix.
Variable idx : Z.
Variable control_type : ControlType.
Variable h_norm : R.
Variable u : matrix.

Hypothesis zero_rhs :
  forall (x : vec) (u' : matrix) (p : vec),
    dyn_value ode_fun idx x u' p = Ok (zeros (length x)).
Hypothesis control_ok :
  forall t : R, exists u_t, Integrator_get_u control_type u t = Ok u_t.

Lemma RK4_zero h t (x : vec) p :
  result_of (RK4_next_x ode_fun idx control_type h_norm h t x u p) = Ok x.
Proof.
  destruct (control_ok t) as [u1 H1].
  destruct (control_ok (t + h_norm / 2)) as [u2 H2].
  destruct (control_ok (t + h_norm)) as [u3 H3].
  set (z := zeros (length x)).
  rewrite (RK4_next_x_run ode_fun idx control_type h_norm h t x u p u1 u2 u3 z z z z);
    unfold z; zeros_simpl; rewrite ?length_zeros; auto.
Qed.

Lemma RK8_zero h t (x : vec) p :
  result_of (RK8_next_x ode_fun idx control_type h_norm h t x u p) = Ok x.
Proof.
  destruct (control_ok t) as [u1 H1].
  destruct (control_ok (t + h_norm * (4 / 27))) as [u2 H2].
  destruct (control_ok (t + h_norm * (2 / 9))) as [u3 H3].
  destruct (control_ok (t + h_norm * (1 / 3))) as [u4 H4].
  destruct (control_ok (t + h_norm * (1 / 2))) as [u5 H5].
  destruct (control_ok (t + h_norm * (2 / 3))) as [u6 H6].
  destruct (control_ok (t + h_norm * (1 / 6))) as [u7 H7].
  destruct (control_ok (t + h_norm)) as [u8 H8].
  destruct (control_ok (t + h_norm * (5 / 6))) as [u9 H9].
  set (z := zeros (length x)).
  rewrite (RK8_next_x_run ode_fun idx control_type h_norm h t x u p
             {| rk8_u1 := u1; rk8_u2 := u2; rk8_u3 := u3; rk8_u4 := u4; rk8_u5 := u5;
                rk8_u6 := u6; rk8_u7 := u7; rk8_u8 := u8; rk8_u9 := u9;
                rk8_k1 := z; rk8_k2 := z; rk8_k3 := z; rk8_k4 := z; rk8_k5 := z;
                rk8_k6 := z; rk8_k7 := z; rk8_k8 := z; rk8_k9 := z; rk8_k10 := z |}).
  - unfold RK8_result, z. simpl. zeros_simpl. reflexivity.
  - unfold RK8_stages, RK8_x2, RK8_x3, RK8_x4, RK8_x5, RK8_x6, RK8_x7, RK8_x8,
      RK8_x9, RK8_x10, z. simpl. zeros_simpl.
    repeat split; auto.
    repeat constructor; apply length_zeros.
Qed.

Lemma scheme_zero s h t (x : vec) p :
  result_of (scheme_next_x s ode_fun idx control_type h_norm h t x u p) = Ok x.
Proof. destruct s; [apply RK4_zero | apply RK8_zero]. Qed.

End ZeroDynamics.

(** ** The matrix loop and its columns *)

Lemma mget_col (x : matrix) i (c : vec) r :
  x !! i = Some c -> mget x r i = lookup_or_raise c r.
Proof. intros H. unfold mget. rewrite H. reflexivity. Qed.

Lemma normalize_quaternion_col quat_idx (x : matrix) i j (c : vec) :
  x !! i = Some c ->
  normalize_quaternion quat_idx x i j
  = (blk <~ lookup_or_raise quat_idx j ;;
     c' <~ normalize_block c blk ;;
     Ok (<[i := c']> x)).
Proof.
  intros Hc. unfold normalize_quaternion.
  destruct (lookup_or_raise quat_idx j) as [[[[q0 q1] q2] q3]|e]; [|reflexivity].
  cbn [rbind]. unfold normalize_block.
  rewrite !(mget_col x i c) by exact Hc.
  destruct (lookup_or_raise c q3) as [a3|]; [|reflexivity]. cbn [rbind].
  destruct (lookup_or_raise c q0) as [a0|]; [|reflexivity]. cbn [rbind].
  destruct (lookup_or_raise c q1) as [a1|]; [|reflexivity]. cbn [rbind].
  destruct (lookup_or_raise c q2) as [a2|]; [|reflexivity]. cbn [rbind].
  destruct (vdiv [a3; a0; a1; a2] (norm_fro [a3; a0; a1; a2])) as [q|]; [|reflexivity].
  cbn [rbind]. unfold mset_rows. rewrite Hc.
  destruct (set_rows c q0 (q2 + 1) (slice q 1 4)) as [c1|]; [|reflexivity].
  cbn [rbind].
  destruct (lookup_or_raise q 0) as [w|]; [|reflexivity]. cbn [rbind].
  unfold mset. rewrite list_lookup_insert_eq by (eapply lookup_lt_Some; eauto).
  destruct (vset c1 q3 w) as [c2|]; [|reflexivity]. cbn [rbind].
  rewrite list_insert_insert_eq. reflexivity.
Qed.

Lemma normalize_loop_col quat_idx js (x : matrix) i (c : vec) :
  x !! i = Some c ->
  normalize_loop quat_idx js x i
  = (c' <~ normalize_col quat_idx js c ;; Ok (<[i := c']> x)).
Proof.
  revert x c. induction js as [|j js IH]; intros x c Hc; simpl.
  - rewrite list_insert_id by exact Hc. reflexivity.
  - rewrite (normalize_quaternion_col quat_idx x i j c Hc).
    destruct (lookup_or_raise quat_idx j) as [blk|]; [|reflexivity]. cbn [rbind].
    destruct (normalize_block c blk) as [c1|]; [|reflexivity]. cbn [rbind].
    rewrite (IH (<[i := c1]> x) c1)
      by (apply list_lookup_insert_eq; eapply lookup_lt_Some; eauto).
    destruct (normalize_col quat_idx js c1) as [c2|]; [|reflexivity]. cbn [rbind].
    rewrite list_insert_insert_eq. reflexivity.
Qed.

Section LoopTrajectory.

Variable model : Model.
Variable n_step : nat.
Variable next_x : R -> R -> vec -> matrix -> vec -> M vec.
Variables (nx : nat) (h : R) (u : matrix) (p : vec).

Lemma RK_loop_trajectory m : forall (cols : matrix) (prev : vec),
  last cols = Some prev ->
  result_of (RK_loop model n_step next_x (build_quat_idx model) h u p
               (seq (length cols) m) (cols ++ replicate m (zeros nx)))
  = (rest <~ trajectory model n_step next_x nx h u p (seq (length cols) m) prev ;;
     Ok (cols ++ rest)).
Proof.
  induction m as [|m IH]; intros cols prev Hlast.
  - simpl. rewrite !app_nil_r. reflexivity.
  - assert (Hlen : (1 <= length cols)%nat).
    { destruct cols; [discriminate|simpl; lia]. }
    cbn [seq RK_loop trajectory].
    rewrite result_of_bind, result_of_lift.
    rewrite last_lookup in Hlast.
    replace (pred (length cols)) with (length cols - 1)%nat in Hlast by lia.
    unfold get_col. rewrite py_index_pred by (rewrite length_app; lia).
    rewrite lookup_app_l by lia.
    rewrite Hlast. cbn [rbind].
    rewrite result_of_bind. unfold sub_step.
    destruct (result_of (next_x h (INR (length cols - 1) / INR n_step) prev u p))
      as [raw|e]; [|reflexivity].
    cbn [rbind]. rewrite result_of_bind, result_of_lift.
    unfold set_col. rewrite py_index_nat by (rewrite length_app; simpl; lia).
    rewrite lookup_app_r, Nat.sub_diag by lia. cbn [replicate lookup list_lookup].
    rewrite length_zeros.
    destruct (Nat.eqb nx (length raw)); [|reflexivity].
    cbn [rbind]. rewrite result_of_bind, result_of_lift.
    rewrite (normalize_loop_col _ _ _ _ raw)
      by (apply list_lookup_insert_eq; rewrite length_app; simpl; lia).
    destruct (normalize_col (build_quat_idx model) (seq 0 (nbQuat model)) raw)
      as [c|e]; [|reflexivity].
    cbn [rbind]. rewrite list_insert_insert_eq.
    replace (<[length cols := c]> (cols ++ zeros nx :: replicate m (zeros nx)))
      with ((cols ++ [c]) ++ replicate m (zeros nx)).
    2:{ rewrite insert_app_r_alt, Nat.sub_diag by lia. rewrite <- app_assoc. reflexivity. }
    replace (S (length cols)) with (length (cols ++ [c])) by (rewrite length_app; simpl; lia).
    rewrite (IH (cols ++ [c]) c) by apply last_snoc.
    destruct (trajectory model n_step next_x nx h u p (seq (length (cols ++ [c])) m) c)
      as [rest|e]; [|reflexivity].
    cbn [rbind]. rewrite <- app_assoc. reflexivity.
Qed.

End LoopTrajectory.

Lemma last_cons_default {A} (a : A) (l : list A) :
  last (a :: l) = Some (default a (last l)).
Proof.
  revert a. induction l as [|b l IH]; intros a; [reflexivity|].
  change (last (a :: b :: l)) with (last (b :: l)).
  rewrite IH. simpl. destruct l; reflexivity.
Qed.

(** [RK.dxdt] computes the trajectory of the sub-steps, column after
    column, and returns its last column with the whole of it. *)
Lemma RK_dxdt_trajectory model n_step next_x h (states : vec) (u : matrix) (p : vec) :
  result_of (RK_dxdt model n_step next_x h states u p)
  = (rest <~ trajectory model n_step next_x (length states) h u p (seq 1 n_step) states ;;
     Ok (default states (last rest), states :: rest)).
Proof.
  unfold RK_dxdt. rewrite result_of_bind, result_of_lift.
  unfold cx_zeros. rewrite Nat.add_1_r. cbn [replicate].
  change 0%Z with (Z.of_nat 0).
  rewrite (set_col_nat _ 0 (zeros (length states))) by (try reflexivity; apply length_zeros).
  cbn [rbind]. rewrite result_of_bind.
  change (<[0%nat := states]> (zeros (length states) :: replicate n_step (zeros (length states))))
    with ([states] ++ replicate n_step (zeros (length states))).
  pose proof (RK_loop_trajectory model n_step next_x (length states) h u p n_step
                [states] states eq_refl) as Hloop.
  change (length [states]) with 1%nat in Hloop. rewrite Hloop. clear Hloop.
  destruct (trajectory model n_step next_x (length states) h u p (seq 1 n_step) states)
    as [rest|e]; [|reflexivity].
  cbn [rbind]. rewrite result_of_bind, result_of_lift.
  rewrite (get_col_last _ (default states (last rest))).
  - reflexivity.
  - rewrite <- last_cons_default, last_lookup. f_equal. simpl. lia.
Qed.

Section ZeroDynamicsLoop.

Variable model : Model.
Variable n_step : nat.
Variable next_x : R -> R -> vec -> matrix -> vec -> M vec.
Variables (h : R) (u : matrix) (p : vec).

Hypothesis no_quaternion : nbQuat model = 0%nat.
Hypothesis next_x_fixed :
  forall t (x : vec), result_of (next_x h t x u p) = Ok x.

Lemma sub_step_fixed i (x : vec) :
  sub_step model n_step next_x (length x) h u p i x = Ok x.
Proof.
  unfold sub_step. rewrite next_x_fixed. cbn [rbind].
  rewrite Nat.eqb_refl, no_quaternion. reflexivity.
Qed.

Lemma trajectory_fixed steps (x : vec) :
  trajectory model n_step next_x (length x) h u p steps x
  = Ok (replicate (length steps) x).
Proof.
  induction steps as [|i steps IH]; [reflexivity|].
  cbn [trajectory]. rewrite sub_step_fixed. cbn [rbind]. rewrite IH. reflexivity.
Qed.

Lemma RK_dxdt_fixed (states : vec) :
  result_of (RK_dxdt model n_step next_x h states u p)
  = Ok (states, replicate (n_step + 1) states).
Proof.
  rewrite RK_dxdt_trajectory, trajectory_fixed, length_seq. cbn [rbind].
  rewrite Nat.add_1_r. cbn [replicate]. do 2 f_equal.
  destruct n_step as [|n]; [reflexivity|].
  rewrite last_lookup, length_replicate, lookup_replicate_2 by (simpl; lia).
  reflexivity.
Qed.

End ZeroDynamicsLoop.

(** C8: without quaternion, on a right-hand side that is zero everywhere,
    RK4 and RK8 return the input state, and every column of the trajectory
    is the input state, whatever the step size and the number of steps. *)
Theorem zero_dynamics_fixed_state
    (scheme : Scheme) (model : Model) (n_step : nat)
    (ode_fun : vec -> matrix -> vec -> result matrix) (idx : Z)
    (control_type : ControlType) (h_norm h : R)
    (states : vec) (u : matrix) (p : vec) :
  nbQuat model = 0%nat ->
  (1 <= n_step)%nat ->
  (forall (x : vec) (u' : matrix) (p' : vec),
      dyn_value ode_fun idx x u' p' = Ok (zeros (length x))) ->
  (forall t : R, exists u_t, Integrator_get_u control_type u t = Ok u_t) ->
  result_of (RK_dxdt model n_step (scheme_next_x scheme ode_fun idx control_type h_norm)
               h states u p)
  = Ok (states, replicate (n_step + 1) states).
Proof.
  intros Hq _ Hzero Hu. apply RK_dxdt_fixed; [exact Hq|].
  intros t x. apply scheme_zero; assumption.
Qed.

Lemma zero_dynamics_fixed_state_witness :
  result_of (RK_dxdt {| segments := []; nbDof := 0; nbQuat := 0 |} 2
               (scheme_next_x RK8 (fun x _ _ => Ok [zeros (length x)]) 0 CONSTANT (1 / 2))
               (1 / 4) [1; 2; 3] [[5]] [])
  = Ok ([1; 2; 3], [[1; 2; 3]; [1; 2; 3]; [1; 2; 3]]).
Proof.
  apply (zero_dynamics_fixed_state RK8 {| segments := []; nbDof := 0; nbQuat := 0 |} 2
           (fun x _ _ => Ok [zeros (length x)]) 0 CONSTANT (1 / 2) (1 / 4)
           [1; 2; 3] [[5]] []).
  - reflexivity.
  - lia.
  - intros x u' p'. reflexivity.
  - intros t. exists [[5]]. reflexivity.
Defined.

(** ** The Euclidean norm of a quaternion *)

Lemma sum_squares_nonneg (q : vec) : 0 <= sum_squares q.
Proof.
  induction q as [|a q IH]; simpl; [lra|]. nra.
Qed.

Lemma norm_fro_sqr (q : vec) : norm_fro q * norm_fro q = sum_squares q.
Proof. unfold norm_fro. apply sqrt_sqrt, sum_squares_nonneg. Qed.

Lemma norm_fro_nonneg (q : vec) : 0 <= norm_fro q.
Proof. unfold norm_fro. apply sqrt_pos. Qed.

Lemma norm_fro_zero_iff (a3 a0 a1 a2 : R) :
  norm_fro [a3; a0; a1; a2] = 0 <-> a3 = 0 /\ a0 = 0 /\ a1 = 0 /\ a2 = 0.
Proof.
  split.
  - intros H. pose proof (norm_fro_sqr [a3; a0; a1; a2]) as Hs.
    rewrite H in Hs. simpl in Hs. repeat split; nra.
  - intros (-> & -> & -> & ->). unfold norm_fro. simpl.
    replace (0 * 0 + (0 * 0 + (0 * 0 + (0 * 0 + 0)))) with 0 by lra.
    apply sqrt_0.
Qed.

Lemma norm_fro_normalized (a3 a0 a1 a2 : R) :
  let n := norm_fro [a3; a0; a1; a2] in
  n <> 0 -> norm_fro [a3 / n; a0 / n; a1 / n; a2 / n] = 1.
Proof.
  intros n Hn. pose proof (norm_fro_sqr [a3; a0; a1; a2]) as Hs. fold n in Hs.
  simpl in Hs. unfold norm_fro at 1. simpl.
  replace (a3 / n * (a3 / n) + (a0 / n * (a0 / n) + (a1 / n * (a1 / n) + (a2 / n * (a2 / n) + 0))))
    with ((a3 * a3 + (a0 * a0 + (a1 * a1 + (a2 * a2 + 0)))) / (n * n)) by (field; exact Hn).
  rewrite <- Hs. replace (n * n / (n * n)) with 1 by (field; exact Hn).
  apply sqrt_1.
Qed.

(** ** The renormalisation of one block *)

Lemma lookup_or_raise_Some {A} (l : list A) j a :
  l !! j = Some a -> lookup_or_raise l j = Ok a.
Proof. intros H. unfold lookup_or_raise. rewrite H. reflexivity. Qed.

Lemma lookup_or_raise_Ok {A} (l : list A) j a :
  lookup_or_raise l j = Ok a -> l !! j = Some a.
Proof. unfold lookup_or_raise. destruct (l !! j); intros H; inversion H; reflexivity. Qed.

Lemma vdiv_zero (q : vec) : vdiv q 0 = Raise NotANumber.
Proof. unfold vdiv. destruct (Req_dec_T 0 0); [reflexivity|contradiction]. Qed.

Lemma vdiv_nonzero (q : vec) n :
  n <> 0 -> vdiv q n = Ok (map (fun a => a / n) q).
Proof. intros H. unfold vdiv. destruct (Req_dec_T n 0); [contradiction|reflexivity]. Qed.

Lemma three_rows_inserted (c : vec) q0 x y z :
  (q0 + 3 <= length c)%nat ->
  take q0 c ++ [x; y; z] ++ drop (q0 + 2 + 1) c
  = <[(q0 + 2)%nat := z]> (<[(q0 + 1)%nat := y]> (<[q0 := x]> c)).
Proof.
  revert c. induction q0 as [|q0 IH]; intros c H.
  - destruct c as [|d0 [|d1 [|d2 rest]]]; simpl in H; try lia. reflexivity.
  - destruct c as [|d c]; simpl in H; [lia|].
    cbn [Nat.add take drop app]. cbn [insert list_insert]. f_equal.
    apply (IH c). lia.
Qed.

(** The result of the renormalisation of a well-shaped block, when its four
    indices are in the column and its quaternion is not zero. *)
Lemma normalize_block_nonzero (c : vec) q0 q3 a3 a0 a1 a2 :
  c !! q3 = Some a3 -> c !! q0 = Some a0 ->
  c !! (q0 + 1)%nat = Some a1 -> c !! (q0 + 2)%nat = Some a2 ->
  let n := norm_fro [a3; a0; a1; a2] in
  n <> 0 ->
  normalize_block c (q0, q0 + 1, q0 + 2, q3)%nat
  = Ok (<[q3 := a3 / n]>
          (<[(q0 + 2)%nat := a2 / n]> (<[(q0 + 1)%nat := a1 / n]> (<[q0 := a0 / n]> c)))).
Proof.
  intros H3 H0 H1 H2 n Hn. unfold normalize_block.
  rewrite (lookup_or_raise_Some _ _ _ H3), (lookup_or_raise_Some _ _ _ H0),
    (lookup_or_raise_Some _ _ _ H1), (lookup_or_raise_Some _ _ _ H2).
  cbn [rbind]. fold n. rewrite vdiv_nonzero by exact Hn. cbn [rbind map].
  apply lookup_lt_Some in H2. apply lookup_lt_Some in H3.
  unfold set_rows, slice. cbn [drop take length].
  replace (4 - 1)%nat with 3%nat by lia. cbn [take].
  destruct (decide (q0 <= q0 + 2 + 1 <= length c)%nat) as [_|Hno]; [|lia].
  replace (q0 + 2 + 1 - q0)%nat with 3%nat by lia. cbn [Nat.eqb rbind].
  rewrite three_rows_inserted by lia.
  unfold lookup_or_raise. cbn [lookup list_lookup rbind length]. unfold vset.
  rewrite !length_insert.
  destruct (decide (q3 < length c)%nat); [reflexivity|lia].
Qed.

Lemma normalize_block_zero (c : vec) q0 q1 q2 q3 :
  c !! q3 = Some 0 -> c !! q0 = Some 0 -> c !! q1 = Some 0 -> c !! q2 = Some 0 ->
  normalize_block c (q0, q1, q2, q3) = Raise NotANumber.
Proof.
  intros H3 H0 H1 H2. unfold normalize_block.
  rewrite (lookup_or_raise_Some _ _ _ H3), (lookup_or_raise_Some _ _ _ H0),
    (lookup_or_raise_Some _ _ _ H1), (lookup_or_raise_Some _ _ _ H2).
  cbn [rbind].
  replace (norm_fro [0; 0; 0; 0]) with 0
    by (symmetry; apply norm_fro_zero_iff; repeat split; reflexivity).
  rewrite vdiv_zero. reflexivity.
Qed.

(** C10: the renormalisation divides the quaternion by its norm without any
    test of that norm.  When the four entries of the block are read, the
    division is by zero exactly when the quaternion is zero, and it then
    yields no real number; otherwise every entry is divided by the norm. *)
Theorem quaternion_division_unguarded
    (quat_idx : list QuaternionBlock) (x : matrix) (i j : nat) (c : vec)
    (q0 q3 : nat) (a3 a0 a1 a2 : R) :
  quat_idx !! j = Some (q0, q0 + 1, q0 + 2, q3)%nat ->
  x !! i = Some c ->
  c !! q3 = Some a3 -> c !! q0 = Some a0 ->
  c !! (q0 + 1)%nat = Some a1 -> c !! (q0 + 2)%nat = Some a2 ->
  let n := norm_fro [a3; a0; a1; a2] in
  let zero := a3 = 0 /\ a0 = 0 /\ a1 = 0 /\ a2 = 0 in
  (n = 0 <-> zero)
  /\ (normalize_quaternion quat_idx x i j = Raise NotANumber <-> zero)
  /\ ((exists x', normalize_quaternion quat_idx x i j = Ok x') <-> ~ zero)
  /\ (~ zero ->
      normalize_quaternion quat_idx x i j
      = Ok (<[i := <[q3 := a3 / n]>
                     (<[(q0 + 2)%nat := a2 / n]>
                        (<[(q0 + 1)%nat := a1 / n]> (<[q0 := a0 / n]> c)))]> x)).
Proof.
  intros Hj Hc H3 H0 H1 H2 n zero.
  assert (Hn : n = 0 <-> zero) by apply norm_fro_zero_iff.
  assert (Hrun : normalize_quaternion quat_idx x i j
                 = (c' <~ normalize_block c (q0, q0 + 1, q0 + 2, q3)%nat ;;
                    Ok (<[i := c']> x))).
  { rewrite (normalize_quaternion_col quat_idx x i j c Hc).
    rewrite (lookup_or_raise_Some _ _ _ Hj). reflexivity. }
  assert (Hzero : zero -> normalize_quaternion quat_idx x i j = Raise NotANumber).
  { intros (E3 & E0 & E1 & E2). subst a3 a0 a1 a2.
    rewrite Hrun, normalize_block_zero by assumption. reflexivity. }
  assert (Hnonzero : ~ zero ->
            normalize_quaternion quat_idx x i j
            = Ok (<[i := <[q3 := a3 / n]>
                     (<[(q0 + 2)%nat := a2 / n]>
                        (<[(q0 + 1)%nat := a1 / n]> (<[q0 := a0 / n]> c)))]> x)).
  { intros Hnz. rewrite Hrun.
    rewrite (normalize_block_nonzero c q0 q3 a3 a0 a1 a2) by (tauto || assumption).
    reflexivity. }
  split; [exact Hn|]. split; [|split; [|exact Hnonzero]].
  - split; [|exact Hzero].
    intros Hr. destruct (Req_dec_T n 0) as [En|En]; [apply Hn, En|].
    rewrite Hnonzero in Hr by tauto. discriminate.
  - split.
    + intros [x' Hx'] Hz. rewrite (Hzero Hz) in Hx'. discriminate.
    + intros Hz. eexists. apply Hnonzero, Hz.
Qed.

Lemma quaternion_division_unguarded_witness :
  normalize_quaternion [(0, 1, 2, 3)%nat] [[0; 3; 0; 4]] 0 0
  = Ok (<[0%nat := <[3%nat := 4 / norm_fro [4; 0; 3; 0]]>
                     (<[2%nat := 0 / norm_fro [4; 0; 3; 0]]>
                        (<[1%nat := 3 / norm_fro [4; 0; 3; 0]]>
                           (<[0%nat := 0 / norm_fro [4; 0; 3; 0]]> [0; 3; 0; 4])))]>
          [[0; 3; 0; 4]]).
Proof.
  apply (quaternion_division_unguarded [(0, 1, 2, 3)%nat] [[0; 3; 0; 4]] 0 0 [0; 3; 0; 4]
           0 3 4 0 3 0); try reflexivity.
  intros (H & _). lra.
Defined.

(** ** The blocks of a consistent model *)

Lemma quat_idx_loop_acc N segs : forall n acc k,
  quat_idx_loop N segs n acc k = acc ++ quat_idx_loop N segs n [] k.
Proof.
  induction segs as [|s segs IH]; intros n acc k; simpl.
  - rewrite app_nil_r. reflexivity.
  - destruct (isRotationAQuaternion s).
    + rewrite IH. rewrite (IH _ [_]). rewrite <- app_assoc. reflexivity.
    + apply IH.
Qed.

Lemma blocks_chain_mono N lo lo' w l :
  (lo' <= lo)%nat -> blocks_chain N lo w l -> blocks_chain N lo' w l.
Proof.
  destruct l as [|[[[q0 q1] q2] q3] l]; simpl; [tauto|].
  intros Hle (H1 & H2). split; [lia|exact H2].
Qed.

Lemma quat_idx_loop_chain N segs : forall n k,
  Forall (fun s => isRotationAQuaternion s = true -> (3 <= segment_nbDof s)%nat) segs ->
  (n + foldr (fun s m => (segment_nbDof s + m)%nat) 0%nat segs <= N)%nat ->
  blocks_chain N n k (quat_idx_loop N segs n [] k).
Proof.
  induction segs as [|s segs IH]; intros n k Hall Hsum; simpl; [exact I|].
  apply Forall_cons_1 in Hall. destruct Hall as [Hs Hall]. simpl in Hsum.
  destruct (isRotationAQuaternion s) eqn:Hq.
  - rewrite quat_idx_loop_acc. simpl. specialize (Hs eq_refl).
    repeat split; try lia.
    apply (blocks_chain_mono N (n + segment_nbDof s)); [lia|].
    apply IH; [exact Hall|lia].
  - apply (blocks_chain_mono N (n + segment_nbDof s)); [lia|].
    apply IH; [exact Hall|lia].
Qed.

Lemma quat_idx_loop_length N segs : forall n k,
  length (quat_idx_loop N segs n [] k)
  = length (filter (fun s => isRotationAQuaternion s = true) segs).
Proof.
  induction segs as [|s segs IH]; intros n k; simpl; [reflexivity|].
  destruct (isRotationAQuaternion s) eqn:Hq.
  - rewrite quat_idx_loop_acc, filter_cons_True by exact Hq. simpl. rewrite IH. reflexivity.
  - rewrite filter_cons_False by (rewrite Hq; discriminate). apply IH.
Qed.

Lemma blocks_chain_lookup N l : forall lo w j q0 q1 q2 q3,
  blocks_chain N lo w l -> l !! j = Some (q0, q1, q2, q3) ->
  (lo + 3 * j <= q0)%nat /\ q1 = (q0 + 1)%nat /\ q2 = (q0 + 2)%nat
  /\ (q0 + 3 <= N)%nat /\ q3 = (N + w + j)%nat.
Proof.
  induction l as [|[[[p0 p1] p2] p3] l IH]; intros lo w j q0 q1 q2 q3 Hc Hj.
  - discriminate.
  - simpl in Hc. destruct Hc as (H0 & H1 & H2 & H3 & H4 & Hc).
    destruct j as [|j]; simpl in Hj.
    + inversion Hj; subst. repeat split; lia.
    + destruct (IH _ _ _ _ _ _ _ Hc Hj) as (G0 & G1 & G2 & G3 & G4).
      repeat split; lia.
Qed.

Lemma blocks_chain_lookup_lt N l : forall lo w j j' q0 q1 q2 q3 r0 r1 r2 r3,
  blocks_chain N lo w l ->
  l !! j = Some (q0, q1, q2, q3) -> l !! j' = Some (r0, r1, r2, r3) ->
  (j < j')%nat -> (q0 + 3 <= r0)%nat.
Proof.
  induction l as [|[[[p0 p1] p2] p3] l IH];
    intros lo w j j' q0 q1 q2 q3 r0 r1 r2 r3 Hc Hj Hj' Hlt.
  - discriminate.
  - simpl in Hc. destruct Hc as (H0 & H1 & H2 & H3 & H4 & Hc).
    destruct j' as [|j']; [lia|]. simpl in Hj'.
    destruct j as [|j]; simpl in Hj.
    + inversion Hj; subst.
      destruct (blocks_chain_lookup _ _ _ _ _ _ _ _ _ Hc Hj') as (G0 & _). lia.
    + apply (IH _ _ j j' _ _ _ _ _ _ _ _ Hc Hj Hj'). lia.
Qed.

Lemma blocks_chain_shaped N lo w l j blk :
  blocks_chain N lo w l -> l !! j = Some blk -> block_shaped blk.
Proof.
  destruct blk as [[[q0 q1] q2] q3]. intros Hc Hj.
  destruct (blocks_chain_lookup _ _ _ _ _ _ _ _ _ Hc Hj) as (G0 & G1 & G2 & G3 & G4).
  unfold block_shaped. repeat split; lia.
Qed.

Lemma blocks_chain_disjoint N lo w l :
  blocks_chain N lo w l -> blocks_disjoint l.
Proof.
  intros Hc j j' [[[q0 q1] q2] q3] [[[r0 r1] r2] r3] k Hne Hj Hj' Hin Hin'.
  destruct (blocks_chain_lookup _ _ _ _ _ _ _ _ _ Hc Hj) as (G0 & G1 & G2 & G3 & G4).
  destruct (blocks_chain_lookup _ _ _ _ _ _ _ _ _ Hc Hj') as (K0 & K1 & K2 & K3 & K4).
  unfold in_block in *.
  destruct (Nat.lt_total j j') as [Hlt|[Heq|Hgt]]; [|contradiction|].
  - pose proof (blocks_chain_lookup_lt _ _ _ _ _ _ _ _ _ _ _ _ _ _ Hc Hj Hj' Hlt). lia.
  - pose proof (blocks_chain_lookup_lt _ _ _ _ _ _ _ _ _ _ _ _ _ _ Hc Hj' Hj Hgt). lia.
Qed.

Lemma build_quat_idx_chain model :
  wf_model model -> blocks_chain (nbDof model) 0 0 (build_quat_idx model).
Proof.
  intros (Hdof & _ & Hall). apply quat_idx_loop_chain; [exact Hall|]. simpl. lia.
Qed.

Lemma build_quat_idx_length model :
  wf_model model -> length (build_quat_idx model) = nbQuat model.
Proof.
  intros (_ & Hq & _). unfold build_quat_idx. rewrite quat_idx_loop_length. symmetry. exact Hq.
Qed.

(** ** The renormalisation of a column *)

Lemma normalize_block_inv (c c' : vec) q0 q3 :
  normalize_block c (q0, q0 + 1, q0 + 2, q3)%nat = Ok c' ->
  exists a3 a0 a1 a2,
    c !! q3 = Some a3 /\ c !! q0 = Some a0
    /\ c !! (q0 + 1)%nat = Some a1 /\ c !! (q0 + 2)%nat = Some a2
    /\ norm_fro [a3; a0; a1; a2] <> 0
    /\ c' = <[q3 := a3 / norm_fro [a3; a0; a1; a2]]>
              (<[(q0 + 2)%nat := a2 / norm_fro [a3; a0; a1; a2]]>
                 (<[(q0 + 1)%nat := a1 / norm_fro [a3; a0; a1; a2]]>
                    (<[q0 := a0 / norm_fro [a3; a0; a1; a2]]> c))).
Proof.
  intros H.
  destruct (c !! q3) as [a3|] eqn:H3;
    [|unfold normalize_block, lookup_or_raise in H; rewrite H3 in H; discriminate].
  destruct (c !! q0) as [a0|] eqn:H0;
    [|unfold normalize_block, lookup_or_raise in H; rewrite H3, H0 in H; discriminate].
  destruct (c !! (q0 + 1)%nat) as [a1|] eqn:H1;
    [|unfold normalize_block, lookup_or_raise in H; rewrite H3, H0, H1 in H; discriminate].
  destruct (c !! (q0 + 2)%nat) as [a2|] eqn:H2;
    [|unfold normalize_block, lookup_or_raise in H; rewrite H3, H0, H1, H2 in H; discriminate].
  exists a3, a0, a1, a2.
  destruct (Req_dec_T (norm_fro [a3; a0; a1; a2]) 0) as [En|En].
  - exfalso. apply norm_fro_zero_iff in En. destruct En as (-> & -> & -> & ->).
    rewrite normalize_block_zero in H by assumption. discriminate.
  - rewrite (normalize_block_nonzero c q0 q3 a3 a0 a1 a2) in H by assumption.
    inversion H. repeat split; try reflexivity. exact En.
Qed.

(** One block: the column keeps its length and its other rows, and the
    quaternion of the block gets the norm 1. *)
Lemma normalize_block_spec (c c' : vec) blk :
  block_shaped blk ->
  normalize_block c blk = Ok c' ->
  length c' = length c
  /\ (forall k, ~ in_block k blk -> c' !! k = c !! k)
  /\ block_norm c' blk = Some 1.
Proof.
  destruct blk as [[[q0 q1] q2] q3]. intros (-> & -> & Hq3) H.
  destruct (normalize_block_inv c c' q0 q3 H)
    as (a3 & a0 & a1 & a2 & H3 & H0 & H1 & H2 & Hn & ->).
  apply lookup_lt_Some in H3 as L3. apply lookup_lt_Some in H2 as L2.
  split; [rewrite !length_insert; reflexivity|]. split.
  - intros k Hk. unfold in_block in Hk.
    rewrite !list_lookup_insert_ne by lia. reflexivity.
  - unfold block_norm.
    rewrite list_lookup_insert_eq by (rewrite !length_insert; lia).
    rewrite (list_lookup_insert_ne _ q3 q0) by lia.
    rewrite (list_lookup_insert_ne _ (q0 + 2)%nat q0) by lia.
    rewrite (list_lookup_insert_ne _ (q0 + 1)%nat q0) by lia.
    rewrite list_lookup_insert_eq by lia.
    rewrite (list_lookup_insert_ne _ q3 (q0 + 1)%nat) by lia.
    rewrite (list_lookup_insert_ne _ (q0 + 2)%nat (q0 + 1)%nat) by lia.
    rewrite list_lookup_insert_eq by (rewrite !length_insert; lia).
    rewrite (list_lookup_insert_ne _ q3 (q0 + 2)%nat) by lia.
    rewrite list_lookup_insert_eq by (rewrite !length_insert; lia).
    f_equal. apply norm_fro_normalized. exact Hn.
Qed.

Lemma block_norm_ext (c c' : vec) blk :
  (forall k, in_block k blk -> c' !! k = c !! k) ->
  block_norm c' blk = block_norm c blk.
Proof.
  destruct blk as [[[q0 q1] q2] q3]. intros H. unfold block_norm.
  rewrite (H q3), (H q0), (H q1), (H q2) by (unfold in_block; tauto). reflexivity.
Qed.

(** All the blocks of [js]: the rows outside them are kept, and each of
    their quaternions gets the norm 1. *)
Lemma normalize_col_spec quat_idx js : forall (c c' : vec),
  (forall j blk, quat_idx !! j = Some blk -> block_shaped blk) ->
  blocks_disjoint quat_idx ->
  NoDup js ->
  normalize_col quat_idx js c = Ok c' ->
  length c' = length c
  /\ (forall k, (forall j blk, j ∈ js -> quat_idx !! j = Some blk -> ~ in_block k blk) ->
                c' !! k = c !! k)
  /\ (forall j blk, j ∈ js -> quat_idx !! j = Some blk -> block_norm c' blk = Some 1).
Proof.
  induction js as [|j js IH]; intros c c' Hshape Hdisj Hnd H.
  - simpl in H. inversion H; subst. split; [reflexivity|]. split; [reflexivity|].
    intros j blk Hin. apply elem_of_nil in Hin. contradiction.
  - simpl in H. apply NoDup_cons in Hnd. destruct Hnd as [Hj Hnd].
    destruct (lookup_or_raise quat_idx j) as [blk|] eqn:Hblk; [|discriminate].
    apply lookup_or_raise_Ok in Hblk. cbn [rbind] in H.
    destruct (normalize_block c blk) as [c1|] eqn:Hc1; [|discriminate].
    cbn [rbind] in H.
    destruct (normalize_block_spec c c1 blk (Hshape _ _ Hblk) Hc1) as (L1 & K1 & N1).
    destruct (IH c1 c' Hshape Hdisj Hnd H) as (L2 & K2 & N2).
    split; [congruence|]. split.
    + intros k Hk. rewrite K2, K1; [reflexivity| |].
      * apply (Hk j blk); [apply elem_of_cons; left; reflexivity|exact Hblk].
      * intros j' blk' Hin' Hblk'. apply (Hk j' blk'); [|exact Hblk'].
        apply elem_of_cons. right. exact Hin'.
    + intros j' blk' Hin' Hblk'. apply elem_of_cons in Hin'.
      destruct Hin' as [->|Hin']; [|apply (N2 j' blk' Hin' Hblk')].
      assert (blk' = blk) by congruence. subst blk'.
      rewrite (block_norm_ext c1 c' blk); [exact N1|].
      intros k Hk. apply K2. intros j' blk' Hin' Hblk''.
      apply (Hdisj j j' blk blk' k); try assumption.
      intros ->. contradiction.
Qed.

Lemma normalize_col_model model (c c' : vec) :
  wf_model model ->
  normalize_col (build_quat_idx model) (seq 0 (nbQuat model)) c = Ok c' ->
  length c' = length c
  /\ (forall blk, blk ∈ build_quat_idx model -> block_norm c' blk = Some 1)
  /\ (forall k, (forall blk, blk ∈ build_quat_idx model -> ~ in_block k blk) ->
                c' !! k = c !! k).
Proof.
  intros Hwf H.
  pose proof (build_quat_idx_chain model Hwf) as Hchain.
  destruct (normalize_col_spec (build_quat_idx model) (seq 0 (nbQuat model)) c c')
    as (L & K & N); try assumption.
  - intros j blk. apply (blocks_chain_shaped _ _ _ _ _ _ Hchain).
  - apply (blocks_chain_disjoint _ _ _ _ Hchain).
  - apply NoDup_seq.
  - split; [exact L|]. split.
    + intros blk Hin. apply list_elem_of_lookup in Hin. destruct Hin as [j Hj].
      apply (N j blk); [|exact Hj].
      apply elem_of_seq. apply lookup_lt_Some in Hj.
      rewrite build_quat_idx_length in Hj by exact Hwf. lia.
    + intros k Hk. apply K. intros j blk _ Hj. apply Hk.
      apply list_elem_of_lookup. exists j. exact Hj.
Qed.

Lemma block_quaternion_ext (c c' : vec) blk :
  (forall k, in_block k blk -> c' !! k = c !! k) ->
  block_quaternion c' blk = block_quaternion c blk.
Proof.
  destruct blk as [[[q0 q1] q2] q3]. intros H. unfold block_quaternion.
  rewrite (H q3), (H q0), (H q1), (H q2) by (unfold in_block; tauto). reflexivity.
Qed.

Lemma normalize_block_values (c c' : vec) blk :
  block_shaped blk -> normalize_block c blk = Ok c' -> block_normalized c c' blk.
Proof.
  destruct blk as [[[q0 q1] q2] q3]. intros (-> & -> & Hq3) H.
  destruct (normalize_block_inv c c' q0 q3 H)
    as (a3 & a0 & a1 & a2 & H3 & H0 & H1 & H2 & Hn & ->).
  apply lookup_lt_Some in H3 as L3. apply lookup_lt_Some in H2 as L2.
  exists [a3; a0; a1; a2]. unfold block_quaternion.
  rewrite H3, H0, H1, H2. split; [reflexivity|]. split; [exact Hn|].
  rewrite list_lookup_insert_eq by (rewrite !length_insert; lia).
  rewrite (list_lookup_insert_ne _ q3 q0) by lia.
  rewrite (list_lookup_insert_ne _ (q0 + 2)%nat q0) by lia.
  rewrite (list_lookup_insert_ne _ (q0 + 1)%nat q0) by lia.
  rewrite list_lookup_insert_eq by lia.
  rewrite (list_lookup_insert_ne _ q3 (q0 + 1)%nat) by lia.
  rewrite (list_lookup_insert_ne _ (q0 + 2)%nat (q0 + 1)%nat) by lia.
  rewrite list_lookup_insert_eq by (rewrite !length_insert; lia).
  rewrite (list_lookup_insert_ne _ q3 (q0 + 2)%nat) by lia.
  rewrite list_lookup_insert_eq by (rewrite !length_insert; lia).
  reflexivity.
Qed.

(** Each block of [js] holds, in the end, its quaternion of the start
    divided by its norm. *)
Lemma normalize_col_values quat_idx js : forall (c c' : vec),
  (forall j blk, quat_idx !! j = Some blk -> block_shaped blk) ->
  blocks_disjoint quat_idx ->
  NoDup js ->
  normalize_col quat_idx js c = Ok c' ->
  forall j blk, j ∈ js -> quat_idx !! j = Some blk -> block_normalized c c' blk.
Proof.
  induction js as [|j js IH]; intros c c' Hshape Hdisj Hnd H j' blk' Hin' Hblk'.
  - apply elem_of_nil in Hin'. contradiction.
  - simpl in H. apply NoDup_cons in Hnd. destruct Hnd as [Hj Hnd].
    destruct (lookup_or_raise quat_idx j) as [blk|] eqn:Hblk; [|discriminate].
    apply lookup_or_raise_Ok in Hblk. cbn [rbind] in H.
    destruct (normalize_block c blk) as [c1|] eqn:Hc1; [|discriminate].
    cbn [rbind] in H.
    destruct (normalize_block_spec c c1 blk (Hshape _ _ Hblk) Hc1) as (L1 & K1 & N1).
    destruct (normalize_col_spec quat_idx js c1 c' Hshape Hdisj Hnd H) as (L2 & K2 & N2).
    apply elem_of_cons in Hin'. destruct Hin' as [->|Hin'].
    + assert (blk' = blk) by congruence. subst blk'.
      destruct (normalize_block_values c c1 blk (Hshape _ _ Hblk) Hc1) as (q & Q1 & Q2 & Q3).
      exists q. split; [exact Q1|]. split; [exact Q2|].
      rewrite (block_quaternion_ext c1 c' blk); [exact Q3|].
      intros k Hk. apply K2. intros j' blk' Hin' Hblk''.
      apply (Hdisj j j' blk blk' k); try assumption.
      intros ->. contradiction.
    + destruct (IH c1 c' Hshape Hdisj Hnd H j' blk' Hin' Hblk') as (q & Q1 & Q2 & Q3).
      exists q. split; [|split; [exact Q2|exact Q3]].
      rewrite <- (block_quaternion_ext c c1 blk'); [exact Q1|].
      intros k Hk. apply K1.
      apply (Hdisj j' j blk' blk k); try assumption.
      intros ->. contradiction.
Qed.

Lemma normalize_col_model_values model (c c' : vec) :
  wf_model model ->
  normalize_col (build_quat_idx model) (seq 0 (nbQuat model)) c = Ok c' ->
  forall blk, blk ∈ build_quat_idx model -> block_normalized c c' blk.
Proof.
  intros Hwf H blk Hin.
  pose proof (build_quat_idx_chain model Hwf) as Hchain.
  apply list_elem_of_lookup in Hin. destruct Hin as [j Hj].
  apply (normalize_col_values (build_quat_idx model) (seq 0 (nbQuat model)) c c')
    with (j := j); try assumption.
  - intros j' blk'. apply (blocks_chain_shaped _ _ _ _ _ _ Hchain).
  - apply (blocks_chain_disjoint _ _ _ _ Hchain).
  - apply NoDup_seq.
  - apply elem_of_seq. apply lookup_lt_Some in Hj.
    rewrite build_quat_idx_length in Hj by exact Hwf. lia.
Qed.

(** ** The columns of the trajectory *)

Lemma trajectory_spec model n_step next_x nx h u p steps : forall (prev : vec) rest,
  trajectory model n_step next_x nx h u p steps prev = Ok rest ->
  length rest = length steps
  /\ forall k i, steps !! k = Some i ->
       exists (pk c : vec),
         (prev :: rest) !! k = Some pk /\ rest !! k = Some c
         /\ sub_step model n_step next_x nx h u p i pk = Ok c.
Proof.
  induction steps as [|i steps IH]; intros prev rest H.
  - simpl in H. inversion H; subst. split; [reflexivity|]. intros k i Hk. discriminate.
  - cbn [trajectory] in H.
    destruct (sub_step model n_step next_x nx h u p i prev) as [c|] eqn:Hc; [|discriminate].
    cbn [rbind] in H.
    destruct (trajectory model n_step next_x nx h u p steps c) as [rest'|] eqn:Hr;
      [|discriminate].
    cbn [rbind] in H. inversion H; subst rest. clear H.
    destruct (IH c rest' Hr) as (Hlen & Hk).
    split; [simpl; lia|].
    intros [|k] j Hj; simpl in Hj.
    + inversion Hj; subst j. exists prev, c. split; [reflexivity|]. split; [reflexivity|exact Hc].
    + destruct (Hk k j Hj) as (pk & ck & P1 & P2 & P3).
      exists pk, ck. split; [exact P1|]. split; [exact P2|exact P3].
Qed.

(** The columns that [RK.dxdt] returns, one sub-step after the other. *)
Lemma RK_dxdt_columns model n_step next_x h (states : vec) u p (xf : vec) (xall : matrix) :
  result_of (RK_dxdt model n_step next_x h states u p) = Ok (xf, xall) ->
  length xall = (n_step + 1)%nat
  /\ xall !! 0%nat = Some states
  /\ last xall = Some xf
  /\ forall i, (1 <= i <= n_step)%nat ->
       exists (prev col : vec),
         xall !! (i - 1)%nat = Some prev /\ xall !! i = Some col
         /\ sub_step model n_step next_x (length states) h u p i prev = Ok col.
Proof.
  rewrite RK_dxdt_trajectory. intros H.
  destruct (trajectory model n_step next_x (length states) h u p (seq 1 n_step) states)
    as [rest|] eqn:Hr; [|discriminate].
  cbn [rbind] in H. inversion H; subst xf xall. clear H.
  destruct (trajectory_spec _ _ _ _ _ _ _ _ _ _ Hr) as (Hlen & Hk).
  rewrite length_seq in Hlen.
  split; [simpl; lia|]. split; [reflexivity|]. split; [apply last_cons_default|].
  intros i Hi.
  destruct (Hk (i - 1)%nat i) as (pk & c & P1 & P2 & P3).
  { rewrite lookup_seq_lt by lia. f_equal. lia. }
  exists pk, c. split; [exact P1|]. split; [|exact P3].
  destruct i as [|i]; [lia|]. cbn [lookup list_lookup].
  replace (S i - 1)%nat with i in P2 by lia. exact P2.
Qed.

Lemma sub_step_inv model n_step next_x nx h u p i (prev col : vec) :
  sub_step model n_step next_x nx h u p i prev = Ok col ->
  exists raw : vec,
    result_of (next_x h (INR (i - 1) / INR n_step) prev u p) = Ok raw
    /\ length raw = nx
    /\ normalize_col (build_quat_idx model) (seq 0 (nbQuat model)) raw = Ok col.
Proof.
  unfold sub_step. intros H.
  destruct (result_of (next_x h (INR (i - 1) / INR n_step) prev u p)) as [raw|];
    [|discriminate].
  cbn [rbind] in H. exists raw. split; [reflexivity|].
  destruct (Nat.eqb_spec nx (length raw)); [|discriminate].
  split; [congruence|exact H].
Qed.

(** C1: in the explicit integrators, every column computed by a sub-step is
    the raw Runge-Kutta update of the previous column with each quaternion
    block divided by its norm, the other rows being kept; each block of it
    has the norm 1 when the next sub-step reads it, and so has each block of
    the output state, for every number of steps from 1 on. *)
Theorem quaternion_blocks_unit_norm
    (scheme : Scheme) (model : Model) (n_step : nat)
    (ode_fun : vec -> matrix -> vec -> result matrix) (idx : Z)
    (control_type : ControlType) (h_norm h : R)
    (states : vec) (u : matrix) (p : vec) (xf : vec) (xall : matrix) :
  let next_x := scheme_next_x scheme ode_fun idx control_type h_norm in
  wf_model model ->
  (1 <= n_step)%nat ->
  result_of (RK_dxdt model n_step next_x h states u p) = Ok (xf, xall) ->
  (forall i, (1 <= i <= n_step)%nat ->
     exists (prev raw col : vec),
       xall !! (i - 1)%nat = Some prev
       /\ result_of (next_x h (INR (i - 1) / INR n_step) prev u p) = Ok raw
       /\ xall !! i = Some col
       /\ (forall blk, blk ∈ build_quat_idx model ->
              block_normalized raw col blk /\ block_norm col blk = Some 1)
       /\ (forall k, (forall blk, blk ∈ build_quat_idx model -> ~ in_block k blk) ->
                     col !! k = raw !! k))
  /\ (forall blk, blk ∈ build_quat_idx model -> block_norm xf blk = Some 1).
Proof.
  intros next_x Hwf Hn Hrun.
  destruct (RK_dxdt_columns _ _ _ _ _ _ _ _ _ Hrun) as (Hlen & H0 & Hlast & Hcols).
  assert (Hstep : forall i, (1 <= i <= n_step)%nat ->
     exists (prev raw col : vec),
       xall !! (i - 1)%nat = Some prev
       /\ result_of (next_x h (INR (i - 1) / INR n_step) prev u p) = Ok raw
       /\ xall !! i = Some col
       /\ (forall blk, blk ∈ build_quat_idx model ->
              block_normalized raw col blk /\ block_norm col blk = Some 1)
       /\ (forall k, (forall blk, blk ∈ build_quat_idx model -> ~ in_block k blk) ->
                     col !! k = raw !! k)).
  { intros i Hi. destruct (Hcols i Hi) as (prev & col & P1 & P2 & P3).
    destruct (sub_step_inv _ _ _ _ _ _ _ _ _ _ P3) as (raw & R1 & R2 & R3).
    destruct (normalize_col_model model raw col Hwf R3) as (L & N & K).
    pose proof (normalize_col_model_values model raw col Hwf R3) as V.
    exists prev, raw, col.
    split; [exact P1|]. split; [exact R1|]. split; [exact P2|]. split; [|exact K].
    intros blk Hblk. split; [apply V, Hblk|apply N, Hblk]. }
  split; [exact Hstep|].
  destruct (Hstep n_step) as (prev & raw & col & _ & _ & P & N & _); [lia|].
  rewrite last_lookup, Hlen in Hlast.
  replace (pred (n_step + 1)) with n_step in Hlast by lia.
  assert (xf = col) by congruence. subst xf. intros blk Hblk. apply N, Hblk.
Qed.

Lemma quaternion_model_wf : wf_model quaternion_model.
Proof.
  unfold wf_model. simpl. repeat split.
  repeat constructor.
Qed.

(** One step on a quaternion of norm 5, under zero dynamics. *)
Lemma quaternion_model_run scheme :
  let n := norm_fro [4; 0; 3; 0] in
  result_of (RK_dxdt quaternion_model 1 (scheme_next_x scheme zero_ode 0 CONSTANT 1)
               1 [0; 3; 0; 4] [[0]] [])
  = Ok ([0 / n; 3 / n; 0 / n; 4 / n], [[0; 3; 0; 4]; [0 / n; 3 / n; 0 / n; 4 / n]]).
Proof.
  intros n. rewrite RK_dxdt_trajectory. cbn [seq trajectory]. unfold sub_step.
  rewrite scheme_zero; [|intros; reflexivity|intros; eexists; reflexivity].
  cbn [rbind length Nat.eqb].
  change (build_quat_idx quaternion_model) with [(0, 1, 2, 3)%nat].
  cbn [nbQuat quaternion_model seq normalize_col lookup_or_raise lookup list_lookup rbind].
  pose proof (normalize_block_nonzero [0; 3; 0; 4] 0 3 4 0 3 0) as Hblk.
  cbn [Nat.add] in Hblk. rewrite Hblk;
    try reflexivity; intros H; apply norm_fro_zero_iff in H; lra.
Qed.

Lemma quaternion_blocks_unit_norm_witness :
  block_norm [0 / norm_fro [4; 0; 3; 0]; 3 / norm_fro [4; 0; 3; 0];
              0 / norm_fro [4; 0; 3; 0]; 4 / norm_fro [4; 0; 3; 0]] (0, 1, 2, 3)%nat
  = Some 1.
Proof.
  apply (proj2 (quaternion_blocks_unit_norm RK4 quaternion_model 1 zero_ode 0 CONSTANT 1 1
                  [0; 3; 0; 4] [[0]] [] _ _
                  quaternion_model_wf (le_n 1) (quaternion_model_run RK4))).
  apply list_elem_of_lookup. exists 0%nat. reflexivity.
Defined.

(** ** The collocation tableau *)

Lemma cx_zeros_shape nrow ncol : has_shape nrow ncol (cx_zeros nrow ncol).
Proof.
  split; [apply length_replicate|].
  apply Forall_forall. intros c Hc. apply elem_of_replicate in Hc.
  destruct Hc as [-> _]. apply length_zeros.
Qed.

Lemma mset_shape nrow ncol (x x' : matrix) r i a :
  has_shape nrow ncol x -> mset x r i a = Ok x' -> has_shape nrow ncol x'.
Proof.
  intros [Hl Hc] H. unfold mset in H.
  destruct (x !! i) as [c|] eqn:Hi; [|discriminate].
  unfold vset in H. destruct (decide (r < length c)%nat); [|discriminate].
  cbn [rbind] in H. inversion H; subst x'. split.
  - rewrite length_insert. exact Hl.
  - apply Forall_insert; [exact Hc|]. rewrite length_insert.
    apply (Forall_lookup_1 _ _ _ _ Hc Hi).
Qed.

Lemma mset_in_range nrow ncol (x : matrix) r i a :
  has_shape nrow ncol x -> (r < nrow)%nat -> (i < ncol)%nat ->
  exists x', mset x r i a = Ok x'.
Proof.
  intros [Hl Hc] Hr Hi. unfold mset.
  destruct (lookup_lt_is_Some_2 x i) as [c Hx]; [lia|]. rewrite Hx.
  pose proof (Forall_lookup_1 _ _ _ _ Hc Hx) as Hlen. simpl in Hlen.
  unfold vset. destruct (decide (r < length c)%nat); [|lia].
  eexists. reflexivity.
Qed.

Section TableauSuccess.

Variable time_points : list R.
Variable degree : nat.
Hypothesis points_length : length time_points = (degree + 1)%nat.
Hypothesis points_distinct : NoDup time_points.

Lemma lagrange_loop_ok j rs : forall tau _l,
  (j < degree + 1)%nat -> Forall (fun r => (r < degree + 1)%nat) rs ->
  exists l', lagrange_loop time_points j rs tau _l = Ok l'.
Proof.
  induction rs as [|r rs IH]; intros tau _l Hj Hrs; simpl.
  - eexists. reflexivity.
  - apply Forall_cons_1 in Hrs. destruct Hrs as [Hr Hrs].
    destruct (decide (r <> j)) as [Hne|_]; [|apply IH; assumption].
    destruct (lookup_lt_is_Some_2 time_points r) as [t_r Htr]; [lia|].
    destruct (lookup_lt_is_Some_2 time_points j) as [t_j Htj]; [lia|].
    rewrite (lookup_or_raise_Some _ _ _ Htr), (lookup_or_raise_Some _ _ _ Htj).
    cbn [rbind].
    assert (Hd : t_j - t_r <> 0).
    { intros Heq. apply Hne.
      apply (NoDup_lookup time_points r j t_r points_distinct Htr).
      rewrite Htj. f_equal. lra. }
    unfold dual_div_const, cdiv.
    destruct (Req_dec_T (t_j - t_r) 0); [contradiction|].
    cbn [rbind]. apply IH; assumption.
Qed.

Lemma seq_below n : Forall (fun r => (r < n)%nat) (seq 0 n).
Proof. apply Forall_forall. intros r Hr. apply elem_of_seq in Hr. lia. Qed.

Lemma lfcn_ok j t :
  (j < degree + 1)%nat -> exists a, lfcn time_points degree j t = Ok a.
Proof.
  intros Hj. unfold lfcn, lagrange.
  destruct (lagrange_loop_ok j (seq 0 (degree + 1)) (t, 0) (dual_const 1) Hj
              (seq_below _)) as [l Hl].
  rewrite Hl. eexists. reflexivity.
Qed.

Lemma tfcn_ok j t :
  (j < degree + 1)%nat -> exists a, tfcn time_points degree j t = Ok a.
Proof.
  intros Hj. unfold tfcn, lagrange.
  destruct (lagrange_loop_ok j (seq 0 (degree + 1)) (t, 1) (dual_const 1) Hj
              (seq_below _)) as [l Hl].
  rewrite Hl. eexists. reflexivity.
Qed.

Lemma tableau_row_loop_ok j rs : forall _c,
  (j < degree + 1)%nat -> Forall (fun r => (r < degree + 1)%nat) rs ->
  has_shape (degree + 1) (degree + 1) _c ->
  exists _c', tableau_row_loop time_points degree j rs _c = Ok _c'
              /\ has_shape (degree + 1) (degree + 1) _c'.
Proof.
  induction rs as [|r rs IH]; intros _c Hj Hrs Hc; simpl.
  - exists _c. split; [reflexivity|exact Hc].
  - apply Forall_cons_1 in Hrs. destruct Hrs as [Hr Hrs].
    destruct (lookup_lt_is_Some_2 time_points r) as [t_r Htr]; [lia|].
    rewrite (lookup_or_raise_Some _ _ _ Htr). cbn [rbind].
    destruct (tfcn_ok j t_r Hj) as [a Ha]. rewrite Ha. cbn [rbind].
    destruct (mset_in_range _ _ _c j r a Hc Hj Hr) as [c1 Hc1].
    rewrite Hc1. cbn [rbind].
    apply IH; [exact Hj|exact Hrs|]. apply (mset_shape _ _ _ _ _ _ _ Hc Hc1).
Qed.

Lemma tableau_loop_ok js : forall _c _d,
  Forall (fun j => (j < degree + 1)%nat) js ->
  has_shape (degree + 1) (degree + 1) _c -> length _d = (degree + 1)%nat ->
  exists _c' _d', tableau_loop time_points degree js _c _d = Ok (_c', _d')
                  /\ has_shape (degree + 1) (degree + 1) _c'
                  /\ length _d' = (degree + 1)%nat.
Proof.
  induction js as [|j js IH]; intros _c _d Hjs Hc Hd; simpl.
  - exists _c, _d. repeat split; try assumption; apply Hc.
  - apply Forall_cons_1 in Hjs. destruct Hjs as [Hj Hjs].
    destruct (lfcn_ok j 1 Hj) as [a Ha]. rewrite Ha. cbn [rbind].
    unfold vset. destruct (decide (j < length _d)%nat); [|lia]. cbn [rbind].
    destruct (tableau_row_loop_ok j (seq 0 (degree + 1)) _c Hj (seq_below _) Hc)
      as (c1 & Hc1 & Hs1).
    rewrite Hc1. cbn [rbind].
    apply IH; [exact Hjs|exact Hs1|]. rewrite length_insert. exact Hd.
Qed.

(** On distinct time points the tableau is built, with the expected
    shape. *)
Lemma build_tableau_ok :
  exists _c _d, build_tableau time_points degree = Ok (_c, _d)
                /\ has_shape (degree + 1) (degree + 1) _c
                /\ length _d = (degree + 1)%nat.
Proof.
  unfold build_tableau.
  apply tableau_loop_ok; [apply seq_below|apply cx_zeros_shape|apply length_zeros].
Qed.

End TableauSuccess.

(** ** The collocation equations *)

Lemma IRK_get_u_ev_constant u t :
  IRK_get_u_ev CONSTANT u t = ([EvGetU t], Ok u).
Proof. reflexivity. Qed.

Lemma IRK_get_u_ev_unsupported control_type u t :
  control_type <> CONSTANT ->
  IRK_get_u_ev control_type u t = ([EvGetU t], Raise NotImplementedError).
Proof. intros H. destruct control_type; [contradiction|reflexivity|reflexivity]. Qed.

(** Under the CONSTANT policy one equation is formed per point of [js],
    each with the control [u] itself, the control being sampled at the
    uniform time [(j - 1) / degree]. *)
Lemma equations_loop_constant ode_fun idx degree _c h u params js : forall acc,
  equations_loop ode_fun idx CONSTANT degree _c h u params js acc
  = (map (fun j => EvGetU (INR (j - 1) / INR degree)) js,
     Ok (acc ++ map (fun j => equation ode_fun idx degree _c h params j u) js)).
Proof.
  induction js as [|j js IH]; intros acc.
  - simpl. rewrite app_nil_r. reflexivity.
  - cbn [equations_loop]. rewrite (bind_ok _ _ _ _ (IRK_get_u_ev_constant u _)).
    rewrite IH. cbn [fst snd map app]. rewrite <- app_assoc. reflexivity.
Qed.

Lemma equations_loop_unsupported ode_fun idx control_type degree _c h u params j js acc :
  control_type <> CONSTANT ->
  equations_loop ode_fun idx control_type degree _c h u params (j :: js) acc
  = ([EvGetU (INR (j - 1) / INR degree)], Raise NotImplementedError).
Proof.
  intros H. cbn [equations_loop].
  apply bind_raise. apply IRK_get_u_ev_unsupported, H.
Qed.

(** ** Weighted sums in the code *)

Lemma map_plus_0 (v : vec) : map (Rplus 0) v = vplus (zeros (length v)) v.
Proof.
  unfold vplus, zeros. induction v as [|a v IH]; simpl; [reflexivity|].
  rewrite IH. reflexivity.
Qed.

Lemma length_weighted_step nx (acc : vec) w (x : vec) :
  length acc = nx -> length x = nx -> length (weighted_step acc (w, x)) = nx.
Proof. intros Ha Hx. unfold weighted_step. cbn [fst snd]. vec_len. Qed.

Lemma xp_loop_vector _c (x : list vec) j (cj : vec) nx m : forall r (acc : vec),
  _c !! j = Some cj ->
  (r + m = length cj)%nat -> (r + m = length x)%nat ->
  Forall (fun v => length v = nx) x -> length acc = nx ->
  xp_loop _c x j (seq r m) (AccVector acc)
  = Ok (AccVector (foldl weighted_step acc (zip (drop r cj) (drop r x)))).
Proof.
  induction m as [|m IH]; intros r acc Hc Hlc Hlx Hx Hacc.
  - simpl. rewrite !drop_ge by lia. reflexivity.
  - cbn [seq xp_loop]. unfold mget. rewrite Hc.
    destruct (lookup_lt_is_Some_2 cj r) as [c Hcr]; [lia|].
    destruct (lookup_lt_is_Some_2 x r) as [x_r Hxr]; [lia|].
    rewrite (lookup_or_raise_Some _ _ _ Hcr), (lookup_or_raise_Some _ _ _ Hxr).
    cbn [rbind acc_add].
    pose proof (Forall_lookup_1 _ _ _ _ Hx Hxr) as Hlen. simpl in Hlen.
    rewrite vadd_same_length by (rewrite length_smul; lia). cbn [rbind].
    rewrite (IH (S r)); try assumption; try lia.
    + rewrite (drop_S cj c r Hcr), (drop_S x x_r r Hxr). reflexivity.
    + rewrite length_vplus; rewrite ?length_smul; lia.
Qed.

Lemma xp_loop_sum _c (x : list vec) j (cj : vec) nx degree :
  _c !! j = Some cj ->
  length cj = (degree + 1)%nat -> length x = (degree + 1)%nat ->
  Forall (fun v => length v = nx) x ->
  xp_loop _c x j (seq 0 (degree + 1)) (AccNumber 0)
  = Ok (AccVector (weighted_sum nx cj x)).
Proof.
  intros Hc Hlc Hlx Hx. rewrite Nat.add_1_r. cbn [seq xp_loop]. unfold mget. rewrite Hc.
  destruct cj as [|c cj]; [simpl in Hlc; lia|].
  destruct x as [|x0 x]; [simpl in Hlx; lia|].
  apply Forall_cons_1 in Hx as Hx'. destruct Hx' as [Hx0 _].
  cbn [lookup_or_raise lookup list_lookup rbind acc_add].
  rewrite (xp_loop_vector _ _ _ (c :: cj) nx degree 1); try assumption;
    try (simpl in *; lia).
  - unfold weighted_sum. cbn [drop zip zip_with foldl]. do 3 f_equal.
    unfold weighted_step. cbn [fst snd]. rewrite map_plus_0, length_smul, Hx0. reflexivity.
  - rewrite length_map, length_smul. exact Hx0.
Qed.

Lemma length_foldl_weighted nx (l : list (R * vec)) : forall acc : vec,
  length acc = nx -> Forall (fun wx => length (snd wx) = nx) l ->
  length (foldl weighted_step acc l) = nx.
Proof.
  induction l as [|[w x] l IH]; intros acc Ha Hl; [exact Ha|].
  apply Forall_cons_1 in Hl. destruct Hl as [Hx Hl]. cbn [foldl].
  apply IH; [|exact Hl]. apply length_weighted_step; assumption.
Qed.

Lemma length_weighted_sum nx ws (xs : list vec) :
  Forall (fun v => length v = nx) xs -> length (weighted_sum nx ws xs) = nx.
Proof.
  intros H. unfold weighted_sum. apply length_foldl_weighted; [apply length_zeros|].
  apply Forall_forall. intros [w x] Hin.
  apply elem_of_zip_r in Hin. cbn [snd] in *.
  rewrite Forall_forall in H. apply H, Hin.
Qed.

(** The value of one residual equation:
    [h * dynamics(x_j, u_j, p) - sum_r C[r, j] * x_r], the coefficients
    [C[r, j]] being the column [j] of [_c]. *)
Lemma equation_run ode_fun idx degree _c h params j u_j (x : list vec)
    (cj x_j f_j : vec) nx :
  _c !! j = Some cj -> length cj = (degree + 1)%nat ->
  length x = (degree + 1)%nat -> Forall (fun v => length v = nx) x ->
  x !! j = Some x_j ->
  dyn_value ode_fun idx x_j u_j params = Ok f_j -> length f_j = nx ->
  equation ode_fun idx degree _c h params j u_j x
  = ([EvDyn x_j u_j params], Ok (vminus (smul h f_j) (weighted_sum nx cj x))).
Proof.
  intros Hc Hlc Hlx Hx Hj Hf Hlf. unfold equation.
  rewrite (bind_lift_ok _ _ _ (xp_loop_sum _ _ _ _ nx _ Hc Hlc Hlx Hx)).
  rewrite (bind_lift_ok _ _ _ (lookup_or_raise_Some _ _ _ Hj)).
  rewrite (bind_dyn_ok _ _ _ _ _ _ _ Hf). cbn [lift fst snd residual].
  rewrite vsub_same_length; [reflexivity|].
  rewrite length_smul, length_weighted_sum by exact Hx. exact Hlf.
Qed.

(** ** The shape of the tableau *)

Lemma tableau_row_loop_shape tp degree j rs n : forall _c _c',
  has_shape n n _c -> tableau_row_loop tp degree j rs _c = Ok _c' -> has_shape n n _c'.
Proof.
  induction rs as [|r rs IH]; intros _c _c' Hs H; simpl in H.
  - inversion H; subst. exact Hs.
  - destruct (lookup_or_raise tp r) as [t_r|]; [|discriminate]. cbn [rbind] in H.
    destruct (tfcn tp degree j t_r) as [a|]; [|discriminate]. cbn [rbind] in H.
    destruct (mset _c j r a) as [c1|] eqn:Hc1; [|discriminate]. cbn [rbind] in H.
    apply (IH c1 _c'); [|exact H]. apply (mset_shape _ _ _ _ _ _ _ Hs Hc1).
Qed.

Lemma tableau_loop_shape tp degree js n : forall _c _d _c' _d',
  has_shape n n _c -> length _d = n ->
  tableau_loop tp degree js _c _d = Ok (_c', _d') ->
  has_shape n n _c' /\ length _d' = n.
Proof.
  induction js as [|j js IH]; intros _c _d _c' _d' Hs Hd H; simpl in H.
  - inversion H; subst _c' _d'. split; assumption.
  - destruct (lfcn tp degree j 1) as [a|]; [|discriminate]. cbn [rbind] in H.
    unfold vset in H. destruct (decide (j < length _d)%nat); [|discriminate].
    cbn [rbind] in H.
    destruct (tableau_row_loop tp degree j (seq 0 (degree + 1)) _c) as [c1|] eqn:Hc1;
      [|discriminate].
    cbn [rbind] in H.
    apply (IH c1 (<[j := a]> _d)); [| |exact H].
    + apply (tableau_row_loop_shape _ _ _ _ _ _ _ Hs Hc1).
    + rewrite length_insert. exact Hd.
Qed.

Lemma build_tableau_shape tp degree _c _d :
  build_tableau tp degree = Ok (_c, _d) ->
  has_shape (degree + 1) (degree + 1) _c /\ length _d = (degree + 1)%nat.
Proof.
  apply tableau_loop_shape; [apply cx_zeros_shape|apply length_zeros].
Qed.

(** ** The solved points *)

Lemma length_slice (X : vec) lo hi :
  (lo <= hi <= length X)%nat -> length (slice X lo hi) = (hi - lo)%nat.
Proof. intros H. unfold slice. rewrite length_take, length_drop. lia. Qed.

Lemma irk_points_lengths nx degree (X : vec) :
  length X = (degree * nx)%nat ->
  Forall (fun v => length v = nx) (irk_points nx degree X).
Proof.
  intros HX. unfold irk_points. apply Forall_forall. intros v Hv.
  apply list_elem_of_fmap in Hv. destruct Hv as (j & -> & Hj).
  apply elem_of_seq in Hj. rewrite length_slice; nia.
Qed.

Lemma length_irk_points nx degree (X : vec) : length (irk_points nx degree X) = degree.
Proof. unfold irk_points. rewrite length_map, length_seq. reflexivity. Qed.

Lemma split_points_ok nx degree (X : vec) :
  length X = (degree * nx)%nat -> split_points nx degree X = Ok (irk_points nx degree X).
Proof. intros H. unfold split_points. rewrite H, Nat.eqb_refl. reflexivity. Qed.

Lemma solved_points_from nx degree (x0 X : vec) rs :
  length X = (degree * nx)%nat ->
  Forall (fun r => (1 <= r <= degree)%nat) rs ->
  solved_points nx x0 X rs = Ok (map (fun j => slice X ((j - 1) * nx) (j * nx)) rs).
Proof.
  intros HX. induction rs as [|r rs IH]; intros Hrs; [reflexivity|].
  apply Forall_cons_1 in Hrs. destruct Hrs as [Hr Hrs].
  cbn [solved_points]. destruct (Nat.eqb_spec r 0); [lia|].
  unfold slice_checked.
  destruct (decide ((r - 1) * nx <= r * nx <= length X)%nat) as [_|Hno]; [|nia].
  cbn [rbind]. rewrite IH by exact Hrs. reflexivity.
Qed.

Lemma solved_points_ok nx degree (x0 X : vec) :
  length X = (degree * nx)%nat ->
  solved_points nx x0 X (seq 0 (degree + 1)) = Ok (x0 :: irk_points nx degree X).
Proof.
  intros HX. rewrite Nat.add_1_r. cbn [seq solved_points Nat.eqb rbind].
  rewrite (solved_points_from nx degree) by
    (try exact HX; apply Forall_forall; intros r Hr; apply elem_of_seq in Hr; lia).
  reflexivity.
Qed.

(** ** The continuity equation *)

Lemma xf_loop_from nx _d (x : list vec) m : forall r (cols : matrix) (prev : vec),
  (1 <= r)%nat -> length cols = r -> last cols = Some prev -> length prev = nx ->
  (r + m = length _d)%nat -> (r + m = length x)%nat ->
  Forall (fun v => length v = nx) x ->
  exists xf',
    xf_loop _d x (seq r m) (cols ++ replicate m (zeros nx)) = Ok xf'
    /\ last xf' = Some (foldl weighted_step prev (zip (drop r _d) (drop r x))).
Proof.
  induction m as [|m IH]; intros r cols prev Hr Hcols Hlast Hprev Hd Hx Hall.
  - exists cols. simpl. rewrite app_nil_r, !drop_ge by lia. split; [reflexivity|exact Hlast].
  - cbn [seq xf_loop].
    rewrite last_lookup in Hlast.
    replace (pred (length cols)) with (r - 1)%nat in Hlast by lia.
    unfold get_col. rewrite py_index_pred by (rewrite length_app; lia).
    rewrite lookup_app_l, Hlast by lia. cbn [rbind].
    destruct (lookup_lt_is_Some_2 _d r) as [d_r Hdr]; [lia|].
    destruct (lookup_lt_is_Some_2 x r) as [x_r Hxr]; [lia|].
    rewrite (lookup_or_raise_Some _ _ _ Hdr), (lookup_or_raise_Some _ _ _ Hxr).
    cbn [rbind].
    pose proof (Forall_lookup_1 _ _ _ _ Hall Hxr) as Hlen. simpl in Hlen.
    rewrite vadd_same_length by (rewrite length_smul; lia). cbn [rbind].
    rewrite (set_col_nat _ r (zeros nx)).
    2:{ rewrite lookup_app_r by lia. replace (r - length cols)%nat with 0%nat by lia.
        reflexivity. }
    2:{ rewrite length_zeros, length_vplus; rewrite ?length_smul; lia. }
    cbn [rbind].
    replace (<[r := vplus prev (smul d_r x_r)]> (cols ++ replicate (S m) (zeros nx)))
      with ((cols ++ [vplus prev (smul d_r x_r)]) ++ replicate m (zeros nx)).
    2:{ rewrite insert_app_r_alt by lia.
        replace (r - length cols)%nat with 0%nat by lia.
        rewrite <- app_assoc. reflexivity. }
    destruct (IH (S r) (cols ++ [vplus prev (smul d_r x_r)]) (vplus prev (smul d_r x_r)))
      as (xf' & Hrun & Hl); try assumption; try lia.
    + rewrite length_app. simpl. lia.
    + apply last_snoc.
    + rewrite length_vplus; rewrite ?length_smul; lia.
    + exists xf'. split; [exact Hrun|]. rewrite Hl.
      rewrite (drop_S _d d_r r Hdr), (drop_S x x_r r Hxr). reflexivity.
Qed.

Lemma xf_loop_sum nx degree _d (x : list vec) :
  length _d = (degree + 1)%nat -> length x = (degree + 1)%nat ->
  Forall (fun v => length v = nx) x ->
  exists xf',
    xf_loop _d x (seq 0 (degree + 1)) (cx_zeros nx (degree + 1)) = Ok xf'
    /\ last xf' = Some (weighted_sum nx _d x).
Proof.
  intros Hd Hx Hall. unfold cx_zeros. rewrite Nat.add_1_r. cbn [seq xf_loop].
  change (Z.of_nat 0 - 1)%Z with (-1)%Z.
  rewrite (get_col_last _ (zeros nx)).
  2:{ rewrite length_replicate. apply lookup_replicate_2. lia. }
  cbn [rbind].
  destruct _d as [|d_0 _d]; [simpl in Hd; lia|].
  destruct x as [|x_0 x]; [simpl in Hx; lia|].
  apply Forall_cons_1 in Hall as Hall'. destruct Hall' as [Hx0 _].
  cbn [lookup_or_raise lookup list_lookup rbind].
  rewrite vadd_same_length by (rewrite length_zeros, length_smul; lia). cbn [rbind].
  change 0%Z with (Z.of_nat 0).
  rewrite (set_col_nat _ 0 (zeros nx)); [|reflexivity|].
  2:{ rewrite length_zeros, length_vplus; rewrite ?length_zeros, ?length_smul; lia. }
  cbn [rbind replicate].
  change (<[0%nat := vplus (zeros nx) (smul d_0 x_0)]> (zeros nx :: replicate degree (zeros nx)))
    with ([vplus (zeros nx) (smul d_0 x_0)] ++ replicate degree (zeros nx)).
  destruct (xf_loop_from nx (d_0 :: _d) (x_0 :: x) degree 1
              [vplus (zeros nx) (smul d_0 x_0)] (vplus (zeros nx) (smul d_0 x_0)))
    as (xf' & Hrun & Hl); try assumption; try reflexivity; try (simpl in *; lia).
  - rewrite length_vplus; rewrite ?length_zeros, ?length_smul; lia.
  - exists xf'. split; [exact Hrun|]. rewrite Hl. reflexivity.
Qed.

(** ** The implicit finite element *)

Lemma get_col_of_last (x : matrix) (c : vec) : last x = Some c -> get_col x (-1) = Ok c.
Proof.
  intros H. apply get_col_last. rewrite last_lookup in H.
  replace (length x - 1)%nat with (pred (length x)) by lia. exact H.
Qed.

Lemma emit_bind {B} (e : event) (f : unit -> M B) :
  bind (emit e) f = (e :: fst (f tt), snd (f tt)).
Proof. reflexivity. Qed.

Section ImplicitRun.

Variable ode_fun : vec -> matrix -> vec -> result matrix.
Variable idx : Z.
Variable degree : nat.
Variable collocation_points : nat -> list R.
Variable rootfinder : (vec -> result vec) -> vec -> result vec.
Variables (h : R) (states : vec) (u : matrix) (params : vec).
Variables (_c : matrix) (_d : vec) (X : vec).

Let nx := length states.
Let eqs := map (fun j => equation ode_fun idx degree _c h params j u) (seq 1 degree).

Hypothesis tableau_built :
  build_tableau (0 :: collocation_points degree) degree = Ok (_c, _d).
Hypothesis solved :
  rootfinder (fun X' => result_of (vfcn degree eqs nx states X')) [] = Ok X.
Hypothesis solved_length : length X = (degree * nx)%nat.

Lemma IRK_dxdt_constant :
  IRK_dxdt ode_fun idx CONSTANT degree collocation_points rootfinder h states u params
  = (map (fun j => EvGetU (INR (j - 1) / INR degree)) (seq 1 degree) ++ [EvSolve],
     Ok (weighted_sum nx _d (states :: irk_points nx degree X),
         [states; weighted_sum nx _d (states :: irk_points nx degree X)])).
Proof.
  destruct (build_tableau_shape _ _ _ _ tableau_built) as (Hc & Hd).
  assert (Hall : Forall (fun v => length v = nx) (states :: irk_points nx degree X)).
  { apply Forall_cons_2; [reflexivity|]. apply irk_points_lengths, solved_length. }
  assert (Hlen : length (states :: irk_points nx degree X) = (degree + 1)%nat).
  { simpl. rewrite length_irk_points. lia. }
  destruct (xf_loop_sum nx degree _d _ Hd Hlen Hall) as (xf' & Hxf & Hlast).
  unfold IRK_dxdt. rewrite (bind_lift_ok _ _ _ tableau_built).
  rewrite (bind_ok _ _ _ _ (equations_loop_constant _ _ _ _ _ _ _ _ _)).
  cbn [app]. rewrite emit_bind. fold eqs. fold nx.
  rewrite (bind_lift_ok _ _ _ solved).
  rewrite (bind_lift_ok _ _ _ (solved_points_ok nx degree states X solved_length)).
  rewrite (bind_lift_ok _ _ _ Hxf).
  rewrite !(bind_lift_ok _ _ _ (get_col_of_last _ _ Hlast)).
  unfold horzcat2. fold nx. rewrite length_weighted_sum by exact Hall.
  rewrite Nat.eqb_refl. reflexivity.
Qed.

End ImplicitRun.

(** With another policy than CONSTANT the first equation is not formed:
    sampling its control raises, before any call of the dynamics or of the
    root-finder. *)
Lemma IRK_dxdt_unsupported ode_fun idx control_type degree collocation_points rootfinder
    h (states : vec) (u : matrix) (params : vec) tableau :
  control_type <> CONSTANT -> (1 <= degree)%nat ->
  build_tableau (0 :: collocation_points degree) degree = Ok tableau ->
  IRK_dxdt ode_fun idx control_type degree collocation_points rootfinder h states u params
  = ([EvGetU 0], Raise NotImplementedError).
Proof.
  intros Hct Hdeg Htab. unfold IRK_dxdt. rewrite (bind_lift_ok _ _ _ Htab).
  destruct tableau as [_c _d].
  destruct degree as [|d]; [lia|]. cbn [seq].
  erewrite bind_raise by (apply equations_loop_unsupported, Hct).
  do 2 f_equal. cbn [Nat.sub INR]. unfold Rdiv. rewrite Rmult_0_l. reflexivity.
Qed.

Lemma sample_times_get_u (ts : list R) (tr : list event) :
  sample_times (map EvGetU ts ++ tr) = ts ++ sample_times tr.
Proof.
  induction ts as [|t ts IH]; [reflexivity|].
  cbn [map app]. unfold sample_times in *. cbn [omap list_omap]. rewrite IH. reflexivity.
Qed.

Lemma half_distinct : NoDup [0; 1 / 2].
Proof.
  apply NoDup_cons_2; [|apply NoDup_cons_2; [apply not_elem_of_nil|apply NoDup_nil_2]].
  intros H. apply elem_of_cons in H. destruct H as [H|H]; [lra|].
  apply elem_of_nil in H. exact H.
Qed.

Lemma scheme_next_x_unsupported s ode_fun idx control_type h_norm h t
    (x : vec) (u : matrix) (p : vec) :
  control_type <> CONSTANT -> control_type <> LINEAR_CONTINUOUS ->
  scheme_next_x s ode_fun idx control_type h_norm h t x u p
  = ([EvGetU t], Raise RuntimeError).
Proof.
  intros H1 H2.
  assert (Hu : get_u control_type u t = ([EvGetU t], Raise RuntimeError)).
  { rewrite get_u_run. destruct control_type; [contradiction|contradiction|reflexivity]. }
  destruct s; cbn [scheme_next_x]; [unfold RK4_next_x|unfold RK8_next_x];
    apply bind_raise, Hu.
Qed.

(** The compiled function of the explicit integrators runs [RK.dxdt] with
    [h_norm = 1 / n_step] and [h = (tf - t0) * h_norm] on the scaled
    parameters; no integrator is built on zero steps. *)
Lemma RK_function_dxdt s model ode_fun idx control_type t0 tf n_step
    (param_scaling x0 : vec) (p : matrix) (params : vec) :
  (1 <= n_step)%nat -> length params = length param_scaling ->
  RK_function s model ode_fun idx control_type t0 tf n_step param_scaling x0 p params
  = RK_dxdt model n_step (scheme_next_x s ode_fun idx control_type (1 / INR n_step))
      ((tf - t0) * (1 / INR n_step)) x0 p (zip_with Rmult params param_scaling).
Proof.
  intros Hn Hl. unfold RK_function, RK_step_sizes, pydiv.
  destruct (Req_dec_T (INR n_step) 0) as [E|_].
  - exfalso. apply (not_0_INR n_step); [lia|exact E].
  - cbn [rbind]. rewrite (bind_lift_ok _ _ _ eq_refl).
    rewrite (bind_lift_ok _ _ _ (vzip_same_length Rmult _ _ Hl)). reflexivity.
Qed.

Lemma RK_function_zero_steps s model ode_fun idx control_type t0 tf
    (param_scaling x0 : vec) (p : matrix) (params : vec) :
  RK_function s model ode_fun idx control_type t0 tf 0 param_scaling x0 p params
  = ([], Raise ZeroDivisionError).
Proof.
  unfold RK_function, RK_step_sizes, pydiv. cbn [INR].
  destruct (Req_dec_T 0 0) as [_|E]; [reflexivity|contradiction].
Qed.

(** C7: [get_u] raises for every control type other than CONSTANT and
    LINEAR_CONTINUOUS, and so do the explicit sub-steps at their first
    sampling of the control; the implicit integrator, of degree 1 at least and on
    distinct collocation points, raises the not-implemented error for every
    control type other than CONSTANT, whatever its inputs, at the first
    sampling of the control: no dynamics is evaluated, no root is sought. *)
Theorem unsupported_control_raises :
  (forall (control_type : ControlType) (u : matrix) (t : R),
      control_type <> CONSTANT -> control_type <> LINEAR_CONTINUOUS ->
      Integrator_get_u control_type u t = Raise RuntimeError)
  /\ (forall (s : Scheme) (ode_fun : vec -> matrix -> vec -> result matrix) (idx : Z)
             (control_type : ControlType) (h_norm h t : R)
             (x : vec) (u : matrix) (p : vec),
      control_type <> CONSTANT -> control_type <> LINEAR_CONTINUOUS ->
      scheme_next_x s ode_fun idx control_type h_norm h t x u p
      = ([EvGetU t], Raise RuntimeError))
  /\ (forall (control_type : ControlType) (u : matrix) (t : R),
      control_type <> CONSTANT ->
      IRK_get_u control_type u t = Raise NotImplementedError)
  /\ (forall (ode_fun : vec -> matrix -> vec -> result matrix) (idx : Z)
             (control_type : ControlType) (degree : nat)
             (collocation_points : nat -> list R)
             (rootfinder : (vec -> result vec) -> vec -> result vec)
             (h : R) (states : vec) (u : matrix) (params : vec),
      control_type <> CONSTANT ->
      (1 <= degree)%nat ->
      length (collocation_points degree) = degree ->
      NoDup (0 :: collocation_points degree) ->
      IRK_dxdt ode_fun idx control_type degree collocation_points rootfinder
        h states u params
      = ([EvGetU 0], Raise NotImplementedError)).
Proof.
  split; [|split; [|split]].
  - intros [| |tag] u t H1 H2; [contradiction|contradiction|reflexivity].
  - intros s ode_fun idx control_type h_norm h t x u p H1 H2.
    apply scheme_next_x_unsupported; assumption.
  - intros [| |tag] u t H1; [contradiction|reflexivity|reflexivity].
  - intros ode_fun idx control_type degree collocation_points rootfinder h states u params
      Hct Hdeg Hlen Hnd.
    destruct (build_tableau_ok (0 :: collocation_points degree) degree)
      as (_c & _d & Htab & _); [simpl; lia|exact Hnd|].
    apply (IRK_dxdt_unsupported _ _ _ _ _ _ _ _ _ _ (_c, _d)); assumption.
Qed.

Lemma unsupported_control_raises_witness :
  IRK_dxdt zero_ode 0 LINEAR_CONTINUOUS 1 (fun _ => [1 / 2]) (fun _ _ => Ok [0])
    1 [0] [[0]; [1]] []
  = ([EvGetU 0], Raise NotImplementedError).
Proof.
  apply (proj2 (proj2 (proj2 unsupported_control_raises))).
  - discriminate.
  - lia.
  - reflexivity.
  - exact half_distinct.
Defined.

(** The implicit integrator of degree 1, whose one Legendre point is 1/2,
    on a root-finder that answers 0. *)
Lemma IRK_degree_1_run ode_fun h (x0 : R) (u : matrix) (params : vec) :
  exists _c _d,
    build_tableau [0; 1 / 2] 1 = Ok (_c, _d)
    /\ IRK_dxdt ode_fun 0 CONSTANT 1 (fun _ => [1 / 2]) (fun _ _ => Ok [0]) h [x0] u params
       = ([EvGetU (INR 0 / INR 1); EvSolve],
          Ok (weighted_sum 1 _d [[x0]; [0]], [[x0]; weighted_sum 1 _d [[x0]; [0]]])).
Proof.
  destruct (build_tableau_ok [0; 1 / 2] 1 eq_refl half_distinct) as (_c & _d & Htab & _).
  exists _c, _d. split; [exact Htab|].
  apply (IRK_dxdt_constant ode_fun 0 1 (fun _ => [1 / 2]) (fun _ _ => Ok [0])
           h [x0] u params _c _d [0] Htab); reflexivity.
Qed.

(** C3 as stated fails: at degree 1 the control of the equation is sampled
    at the time 0, the collocation point being 1/2. *)
Lemma IRK_sampling_counterexample :
  ~ samples_at_collocation_points zero_ode 0 1 (fun _ => [1 / 2]) (fun _ _ => Ok [0])
      1 [0] [[0]] [].
Proof.
  unfold samples_at_collocation_points.
  destruct (IRK_degree_1_run zero_ode 1 0 [[0]] []) as (_c & _d & _ & Hrun).
  rewrite Hrun. unfold trace_of, sample_times. cbn [fst omap list_omap INR].
  intros H. inversion H. lra.
Qed.

(** C3, amended: for every residual equation [j] the control is sampled at
    the uniform time [(j - 1) / degree], not at the collocation point; the
    policy being CONSTANT, the sampled value is the control [u] itself
    whatever the time, and it is the control of the dynamics evaluation of
    the equation. *)
Theorem IRK_control_sampling
    (ode_fun : vec -> matrix -> vec -> result matrix) (idx : Z) (degree : nat)
    (_c : matrix) (h : R) (u : matrix) (params : vec) :
  equations_loop ode_fun idx CONSTANT degree _c h u params (seq 1 degree) []
  = (map (fun j => EvGetU (INR (j - 1) / INR degree)) (seq 1 degree),
     Ok (map (fun j => equation ode_fun idx degree _c h params j u) (seq 1 degree)))
  /\ (forall t : R, IRK_get_u CONSTANT u t = Ok u)
  /\ (forall (j : nat) (x : list vec) (e : event),
        e ∈ trace_of (equation ode_fun idx degree _c h params j u x) ->
        exists x_j, x !! j = Some x_j /\ e = EvDyn x_j u params)
  /\ (forall (collocation_points : nat -> list R)
             (rootfinder : (vec -> result vec) -> vec -> result vec)
             (states : vec) (tableau : matrix * vec),
        build_tableau (0 :: collocation_points degree) degree = Ok tableau ->
        fst tableau = _c ->
        firstn degree
          (sample_times
             (trace_of (IRK_dxdt ode_fun idx CONSTANT degree collocation_points rootfinder
                          h states u params)))
        = map (fun j => INR (j - 1) / INR degree) (seq 1 degree)).
Proof.
  split; [apply equations_loop_constant|]. split; [reflexivity|]. split.
  - intros j x e He. unfold equation, trace_of in He.
    destruct (xp_loop _c x j (seq 0 (degree + 1)) (AccNumber 0)) as [xp|];
      [|apply elem_of_nil in He; contradiction].
    rewrite (bind_lift_ok _ _ _ eq_refl) in He.
    destruct (x !! j) as [x_j|] eqn:Hj.
    + rewrite (bind_lift_ok _ _ _ (lookup_or_raise_Some _ _ _ Hj)) in He.
      rewrite dyn_run in He. exists x_j. split; [reflexivity|].
      unfold bind in He. cbn [fst snd] in He.
      destruct (dyn_value ode_fun idx x_j u params); cbn [fst snd lift app] in He.
      * apply elem_of_cons in He. destruct He as [He|He]; [exact He|].
        destruct (residual h a xp); apply elem_of_nil in He; contradiction.
      * apply elem_of_cons in He. destruct He as [He|He]; [exact He|].
        apply elem_of_nil in He. contradiction.
    + unfold lookup_or_raise in He. rewrite Hj in He.
      apply elem_of_nil in He. contradiction.
  - intros collocation_points rootfinder states [c d] Htab Hc. simpl in Hc. subst c.
    unfold IRK_dxdt. rewrite (bind_lift_ok _ _ _ Htab).
    rewrite (bind_ok _ _ _ _ (equations_loop_constant _ _ _ _ _ _ _ _ _)).
    unfold trace_of. cbn [fst].
    rewrite <- (map_map (fun j => INR (j - 1) / INR degree) EvGetU) at 1.
    rewrite sample_times_get_u.
    rewrite firstn_app, firstn_all2 by (rewrite length_map, length_seq; lia).
    rewrite length_map, length_seq, Nat.sub_diag. cbn [firstn]. apply app_nil_r.
Qed.

Lemma IRK_control_sampling_witness :
  firstn 1
    (sample_times
       (trace_of (IRK_dxdt zero_ode 0 CONSTANT 1 (fun _ => [1 / 2]) (fun _ _ => Ok [0])
                    1 [0] [[0]] [])))
  = [INR 0 / INR 1].
Proof.
  destruct (build_tableau_ok [0; 1 / 2] 1 eq_refl half_distinct) as (_c & _d & Htab & _).
  apply (proj2 (proj2 (proj2 (IRK_control_sampling zero_ode 0 1 _c 1 [[0]] [])))
           (fun _ => [1 / 2]) (fun _ _ => Ok [0]) [0] (_c, _d) Htab eq_refl).
Defined.



(** ** The shape of the returned trajectory *)

Lemma set_rows_length (c c' : vec) lo hi vals :
  set_rows c lo hi vals = Ok c' -> length c' = length c.
Proof.
  unfold set_rows. intros H.
  destruct (decide (lo <= hi <= length c)%nat); [|discriminate].
  destruct (Nat.eqb_spec (hi - lo) (length vals)); [|discriminate].
  inversion H; subst c'. rewrite !length_app, length_take, length_drop. lia.
Qed.

Lemma vset_length (c c' : vec) j a : vset c j a = Ok c' -> length c' = length c.
Proof.
  unfold vset. intros H. destruct (decide (j < length c)%nat); [|discriminate].
  inversion H; subst c'. apply length_insert.
Qed.

Lemma normalize_block_length (c c' : vec) blk :
  normalize_block c blk = Ok c' -> length c' = length c.
Proof.
  destruct blk as [[[q0 q1] q2] q3]. unfold normalize_block. intros H.
  destruct (lookup_or_raise c q3) as [a3|]; [|discriminate]. cbn [rbind] in H.
  destruct (lookup_or_raise c q0) as [a0|]; [|discriminate]. cbn [rbind] in H.
  destruct (lookup_or_raise c q1) as [a1|]; [|discriminate]. cbn [rbind] in H.
  destruct (lookup_or_raise c q2) as [a2|]; [|discriminate]. cbn [rbind] in H.
  destruct (vdiv [a3; a0; a1; a2] (norm_fro [a3; a0; a1; a2])) as [q|]; [|discriminate].
  cbn [rbind] in H.
  destruct (set_rows c q0 (q2 + 1) (slice q 1 4)) as [c1|] eqn:Hc1; [|discriminate].
  cbn [rbind] in H.
  destruct (lookup_or_raise q 0) as [w|]; [|discriminate]. cbn [rbind] in H.
  apply vset_length in H. apply set_rows_length in Hc1. congruence.
Qed.

Lemma normalize_col_length quat_idx js : forall (c c' : vec),
  normalize_col quat_idx js c = Ok c' -> length c' = length c.
Proof.
  induction js as [|j js IH]; intros c c' H; simpl in H.
  - inversion H. reflexivity.
  - destruct (lookup_or_raise quat_idx j) as [blk|]; [|discriminate]. cbn [rbind] in H.
    destruct (normalize_block c blk) as [c1|] eqn:Hc1; [|discriminate]. cbn [rbind] in H.
    apply IH in H. apply normalize_block_length in Hc1. congruence.
Qed.

Lemma IRK_dxdt_two_columns ode_fun idx control_type degree collocation_points rootfinder
    h (states : vec) (u : matrix) (params : vec) (xf : vec) (xall : matrix) :
  result_of (IRK_dxdt ode_fun idx control_type degree collocation_points rootfinder
               h states u params) = Ok (xf, xall) ->
  xall = [states; xf] /\ length xf = length states.
Proof.
  unfold IRK_dxdt. rewrite result_of_bind, result_of_lift. intros H.
  destruct (build_tableau (0 :: collocation_points degree) degree) as [[_c _d]|];
    [|discriminate].
  cbn [rbind] in H. rewrite result_of_bind in H.
  destruct (result_of (equations_loop ode_fun idx control_type degree _c h u params
                         (seq 1 degree) [])) as [eqs|]; [|discriminate].
  cbn [rbind] in H. rewrite result_of_bind in H. cbn [emit result_of snd rbind] in H.
  fold (@result_of (vec * matrix)) in H. rewrite result_of_bind, result_of_lift in H.
  match type of H with
  | rbind ?r _ = _ => destruct r as [X|]; [|discriminate]
  end.
  cbn [rbind] in H. rewrite result_of_bind, result_of_lift in H.
  match type of H with
  | rbind ?r _ = _ => destruct r as [x|]; [|discriminate]
  end.
  cbn [rbind] in H. rewrite result_of_bind, result_of_lift in H.
  match type of H with
  | rbind ?r _ = _ => destruct r as [xf'|]; [|discriminate]
  end.
  cbn [rbind] in H. rewrite result_of_bind, result_of_lift in H.
  destruct (get_col xf' (-1)) as [x_last|]; [|discriminate].
  cbn [rbind] in H. rewrite result_of_bind, result_of_lift in H. cbn [rbind] in H.
  rewrite result_of_bind, result_of_lift in H. unfold horzcat2 in H.
  destruct (Nat.eqb_spec (length states) (length x_last)); [|discriminate].
  cbn [rbind] in H. rewrite result_of_ret in H. inversion H; subst.
  split; [reflexivity|congruence].
Qed.

(** C9: the explicit integrators return the last column of the trajectory
    with the trajectory itself, a matrix of as many rows as the state and of
    [n_step + 1] columns; its column 0 is the input state, its column [i] is
    the renormalised result of the sub-step started from the column [i - 1]
    at the normalised time [(i - 1) / n_step].  The implicit integrator
    returns the two columns [x0] and [xf]. *)
Theorem dxdt_returns_trajectory :
  (forall (model : Model) (n_step : nat)
          (next_x : R -> R -> vec -> matrix -> vec -> M vec)
          (h : R) (states : vec) (u : matrix) (p : vec) (xf : vec) (xall : matrix),
      result_of (RK_dxdt model n_step next_x h states u p) = Ok (xf, xall) ->
      has_shape (length states) (n_step + 1) xall
      /\ xall !! 0%nat = Some states
      /\ xall !! n_step = Some xf
      /\ forall i, (1 <= i <= n_step)%nat ->
           exists (prev raw col : vec),
             xall !! (i - 1)%nat = Some prev
             /\ result_of (next_x h (INR (i - 1) / INR n_step) prev u p) = Ok raw
             /\ normalize_col (build_quat_idx model) (seq 0 (nbQuat model)) raw = Ok col
             /\ xall !! i = Some col)
  /\ (forall (ode_fun : vec -> matrix -> vec -> result matrix) (idx : Z)
             (control_type : ControlType) (degree : nat)
             (collocation_points : nat -> list R)
             (rootfinder : (vec -> result vec) -> vec -> result vec)
             (h : R) (states : vec) (u : matrix) (params : vec)
             (xf : vec) (xall : matrix),
      result_of (IRK_dxdt ode_fun idx control_type degree collocation_points rootfinder
                   h states u params) = Ok (xf, xall) ->
      xall = [states; xf] /\ has_shape (length states) 2 xall).
Proof.
  split.
  - intros model n_step next_x h states u p xf xall Hrun.
    destruct (RK_dxdt_columns _ _ _ _ _ _ _ _ _ Hrun) as (Hlen & H0 & Hlast & Hcols).
    assert (Hstep : forall i, (1 <= i <= n_step)%nat ->
           exists (prev raw col : vec),
             xall !! (i - 1)%nat = Some prev
             /\ result_of (next_x h (INR (i - 1) / INR n_step) prev u p) = Ok raw
             /\ normalize_col (build_quat_idx model) (seq 0 (nbQuat model)) raw = Ok col
             /\ xall !! i = Some col /\ length col = length states).
    { intros i Hi. destruct (Hcols i Hi) as (prev & col & P1 & P2 & P3).
      destruct (sub_step_inv _ _ _ _ _ _ _ _ _ _ P3) as (raw & R1 & R2 & R3).
      exists prev, raw, col. repeat split; try assumption.
      apply normalize_col_length in R3. congruence. }
    split; [split; [exact Hlen|]|split; [exact H0|split]].
    + apply Forall_lookup_2. intros i c Hc.
      destruct i as [|i]; [congruence|].
      destruct (Hstep (S i)) as (_ & _ & col & _ & _ & _ & Hcol & Hl).
      { apply lookup_lt_Some in Hc. lia. }
      congruence.
    + rewrite last_lookup, Hlen in Hlast.
      replace (pred (n_step + 1)) with n_step in Hlast by lia. exact Hlast.
    + intros i Hi. destruct (Hstep i Hi) as (prev & raw & col & P1 & P2 & P3 & P4 & _).
      exists prev, raw, col. repeat split; assumption.
  - intros ode_fun idx control_type degree collocation_points rootfinder h states u params
      xf xall Hrun.
    destruct (IRK_dxdt_two_columns _ _ _ _ _ _ _ _ _ _ _ _ Hrun) as (-> & Hl).
    split; [reflexivity|]. split; [reflexivity|].
    repeat constructor. exact Hl.
Qed.

Lemma dxdt_returns_trajectory_witness :
  has_shape 4 2 [[0; 3; 0; 4];
                 [0 / norm_fro [4; 0; 3; 0]; 3 / norm_fro [4; 0; 3; 0];
                  0 / norm_fro [4; 0; 3; 0]; 4 / norm_fro [4; 0; 3; 0]]].
Proof.
  apply (proj1 dxdt_returns_trajectory quaternion_model 1%nat
           (scheme_next_x RK8 zero_ode 0 CONSTANT 1) 1 [0; 3; 0; 4] [[0]] [] _ _
           (quaternion_model_run RK8)).
Defined.

(** * Further properties of the integrators *)

(** ** Scaled vectors *)

Lemma smul_smul a b (x : vec) : smul a (smul b x) = smul (a * b) x.
Proof.
  unfold smul. rewrite map_map. apply map_ext. intros xi. ring.
Qed.

Lemma vplus_smul a b (x : vec) : vplus (smul a x) (smul b x) = smul (a + b) x.
Proof.
  unfold vplus, smul. induction x as [|xi x IH]; simpl; [reflexivity|].
  rewrite IH. f_equal. ring.
Qed.

Lemma vminus_smul a b (x : vec) : vminus (smul a x) (smul b x) = smul (a - b) x.
Proof.
  unfold vminus, smul. induction x as [|xi x IH]; simpl; [reflexivity|].
  rewrite IH. f_equal. ring.
Qed.

Lemma vplus_self_smul b (x : vec) : vplus x (smul b x) = smul (1 + b) x.
Proof.
  unfold vplus, smul. induction x as [|xi x IH]; simpl; [reflexivity|].
  rewrite IH. f_equal. ring.
Qed.

Lemma smul_eq a b (x : vec) : a = b -> smul a x = smul b x.
Proof. intros ->. reflexivity. Qed.

Ltac smul_norm :=
  repeat first [ rewrite smul_smul | rewrite vplus_smul | rewrite vminus_smul
               | rewrite vplus_self_smul ].

Lemma dyn_value_linear a (x : vec) (u : matrix) (p : vec) :
  dyn_value (linear_ode a) 0 x u p = Ok (smul a x).
Proof. reflexivity. Qed.

(** ** The linear test equation *)

Lemma RK4_linear_run control_type h_norm a h t (x : vec) (u : matrix) (p : vec) :
  (forall t' : R, exists u_t, Integrator_get_u control_type u t' = Ok u_t) ->
  result_of (RK4_next_x (linear_ode a) 0 control_type h_norm h t x u p)
  = Ok (smul (RK4_growth (h * a)) x).
Proof.
  intros Hu.
  destruct (Hu t) as [u1 H1].
  destruct (Hu (t + h_norm / 2)) as [u2 H2].
  destruct (Hu (t + h_norm)) as [u3 H3].
  pose (k1 := smul a x).
  pose (k2 := smul a (vplus x (smul (h / 2) k1))).
  pose (k3 := smul a (vplus x (smul (h / 2) k2))).
  pose (k4 := smul a (vplus x (smul h k3))).
  rewrite (RK4_next_x_run (linear_ode a) 0 control_type h_norm h t x u p u1 u2 u3
             k1 k2 k3 k4);
    try assumption; try apply dyn_value_linear; try (cbv delta [k1 k2 k3 k4]; vec_len).
  cbn [result_of snd]. f_equal. unfold k4, k3, k2, k1. smul_norm.
  apply smul_eq. unfold RK4_growth. field.
Qed.

Lemma smul_1_eq a (x : vec) : a = 1 -> smul a x = x.
Proof.
  intros ->. unfold smul. induction x as [|xi x IH]; simpl; [reflexivity|].
  rewrite IH. f_equal. ring.
Qed.

Lemma dyn_value_linear_scaled a c c' (y x : vec) (u : matrix) (p : vec) :
  y = smul c x -> c' = a * c ->
  dyn_value (linear_ode a) 0 y u p = Ok (smul c' x).
Proof. intros -> ->. rewrite dyn_value_linear, smul_smul. reflexivity. Qed.

Ltac linear_stage c :=
  eapply dyn_value_linear_scaled;
  [ cbn [rk8_k1 rk8_k2 rk8_k3 rk8_k4 rk8_k5 rk8_k6 rk8_k7 rk8_k8 rk8_k9 rk8_k10
         RK8_linear_values];
    smul_norm; reflexivity
  | unfold c; field ].

Lemma RK8_linear_stages control_type h_norm a h t (x : vec) (u : matrix) (p : vec)
    u1 u2 u3 u4 u5 u6 u7 u8 u9 :
  Integrator_get_u control_type u t = Ok u1 ->
  Integrator_get_u control_type u (t + h_norm * (4 / 27)) = Ok u2 ->
  Integrator_get_u control_type u (t + h_norm * (2 / 9)) = Ok u3 ->
  Integrator_get_u control_type u (t + h_norm * (1 / 3)) = Ok u4 ->
  Integrator_get_u control_type u (t + h_norm * (1 / 2)) = Ok u5 ->
  Integrator_get_u control_type u (t + h_norm * (2 / 3)) = Ok u6 ->
  Integrator_get_u control_type u (t + h_norm * (1 / 6)) = Ok u7 ->
  Integrator_get_u control_type u (t + h_norm) = Ok u8 ->
  Integrator_get_u control_type u (t + h_norm * (5 / 6)) = Ok u9 ->
  RK8_stages (linear_ode a) 0 control_type h_norm h t x u p
    (RK8_linear_values a h x u1 u2 u3 u4 u5 u6 u7 u8 u9).
Proof.
  intros H1 H2 H3 H4 H5 H6 H7 H8 H9.
  unfold RK8_stages. cbv zeta.
  cbn [rk8_u1 rk8_u2 rk8_u3 rk8_u4 rk8_u5 rk8_u6 rk8_u7 rk8_u8 rk8_u9 RK8_linear_values].
  do 9 (split; [assumption|]).
  split; [apply dyn_value_linear|].
  split; [unfold RK8_x2; linear_stage RK8_c2|].
  split; [unfold RK8_x3; linear_stage RK8_c3|].
  split; [unfold RK8_x4; linear_stage RK8_c4|].
  split; [unfold RK8_x5; linear_stage RK8_c5|].
  split; [unfold RK8_x6; linear_stage RK8_c6|].
  split; [unfold RK8_x7; linear_stage RK8_c7|].
  split; [unfold RK8_x8; linear_stage RK8_c8|].
  split; [unfold RK8_x9; linear_stage RK8_c9|].
  split; [unfold RK8_x10; linear_stage RK8_c10|].
  cbn [rk8_k1 rk8_k2 rk8_k3 rk8_k4 rk8_k5 rk8_k6 rk8_k7 rk8_k8 rk8_k9 rk8_k10
       RK8_linear_values].
  repeat constructor; apply length_smul.
Qed.

Lemma RK8_linear_run control_type h_norm a h t (x : vec) (u : matrix) (p : vec) :
  (forall t' : R, exists u_t, Integrator_get_u control_type u t' = Ok u_t) ->
  result_of (RK8_next_x (linear_ode a) 0 control_type h_norm h t x u p)
  = Ok (smul (RK8_growth (h * a)) x).
Proof.
  intros Hu.
  destruct (Hu t) as [u1 H1].
  destruct (Hu (t + h_norm * (4 / 27))) as [u2 H2].
  destruct (Hu (t + h_norm * (2 / 9))) as [u3 H3].
  destruct (Hu (t + h_norm * (1 / 3))) as [u4 H4].
  destruct (Hu (t + h_norm * (1 / 2))) as [u5 H5].
  destruct (Hu (t + h_norm * (2 / 3))) as [u6 H6].
  destruct (Hu (t + h_norm * (1 / 6))) as [u7 H7].
  destruct (Hu (t + h_norm)) as [u8 H8].
  destruct (Hu (t + h_norm * (5 / 6))) as [u9 H9].
  rewrite (RK8_next_x_run _ _ _ _ _ _ _ _ _ _
             (RK8_linear_stages control_type h_norm a h t x u p
                u1 u2 u3 u4 u5 u6 u7 u8 u9 H1 H2 H3 H4 H5 H6 H7 H8 H9)).
  cbn [result_of snd]. f_equal. unfold RK8_result.
  cbn [rk8_k1 rk8_k2 rk8_k3 rk8_k4 rk8_k5 rk8_k6 rk8_k7 rk8_k8 rk8_k9 rk8_k10
       RK8_linear_values].
  smul_norm. apply smul_eq. unfold RK8_growth. field.
Qed.

Lemma RK8_growth_polynomial z :
  RK8_growth z
  = 1 + z + z ^ 2 / 2 + z ^ 3 / 6 + 1397 / 33600 * z ^ 4 + z ^ 5 / 120 + z ^ 6 / 720
    + z ^ 7 / 5040 + z ^ 8 / 40320 + z ^ 9 / 2177280 + z ^ 10 / 2177280.
Proof.
  unfold RK8_growth, RK8_c10, RK8_c9, RK8_c8, RK8_c7, RK8_c6, RK8_c5, RK8_c4, RK8_c3, RK8_c2.
  field.
Qed.

Lemma scheme_linear_run s control_type h_norm a h t (x : vec) (u : matrix) (p : vec) :
  (forall t' : R, exists u_t, Integrator_get_u control_type u t' = Ok u_t) ->
  result_of (scheme_next_x s (linear_ode a) 0 control_type h_norm h t x u p)
  = Ok (smul (scheme_growth s (h * a)) x).
Proof. destruct s; [apply RK4_linear_run|apply RK8_linear_run]. Qed.

(** X1: under the linear dynamics [dx/dt = a * x] one RK4 sub-step
    multiplies the state by the Taylor polynomial of degree 4 of the
    exponential, at [z = h * a]. *)
Theorem RK4_linear_test
    (control_type : ControlType) (h_norm a h t : R) (x : vec) (u : matrix) (p : vec) :
  (forall t' : R, exists u_t, Integrator_get_u control_type u t' = Ok u_t) ->
  let z := h * a in
  result_of (RK4_next_x (linear_ode a) 0 control_type h_norm h t x u p)
  = Ok (smul (1 + z + z ^ 2 / 2 + z ^ 3 / 6 + z ^ 4 / 24) x).
Proof. intros Hu z. apply RK4_linear_run, Hu. Qed.

Lemma RK4_linear_test_witness :
  result_of (RK4_next_x (linear_ode 2) 0 CONSTANT 1 3 0 [1; 5] [[0]] [])
  = Ok (smul (1 + 3 * 2 + (3 * 2) ^ 2 / 2 + (3 * 2) ^ 3 / 6 + (3 * 2) ^ 4 / 24) [1; 5]).
Proof.
  apply (RK4_linear_test CONSTANT 1 2 3 0 [1; 5] [[0]] []).
  intros t'. exists [[0]]. reflexivity.
Defined.

(** X2: under the linear dynamics [dx/dt = a * x] one RK8 sub-step, with
    the coefficients of the source, multiplies the state by a polynomial of
    degree 10 in [z = h * a] that agrees with the exponential series up to
    [z ^ 8] except for its coefficient of [z ^ 4], which is 1397/33600 and
    not 1/24. *)
Theorem RK8_linear_test
    (control_type : ControlType) (h_norm a h t : R) (x : vec) (u : matrix) (p : vec) :
  (forall t' : R, exists u_t, Integrator_get_u control_type u t' = Ok u_t) ->
  let z := h * a in
  result_of (RK8_next_x (linear_ode a) 0 control_type h_norm h t x u p)
  = Ok (smul (1 + z + z ^ 2 / 2 + z ^ 3 / 6 + 1397 / 33600 * z ^ 4 + z ^ 5 / 120
              + z ^ 6 / 720 + z ^ 7 / 5040 + z ^ 8 / 40320 + z ^ 9 / 2177280
              + z ^ 10 / 2177280) x).
Proof.
  intros Hu z. rewrite RK8_linear_run by exact Hu. rewrite RK8_growth_polynomial.
  reflexivity.
Qed.

Lemma RK8_linear_test_witness :
  result_of (RK8_next_x (linear_ode 1) 0 CONSTANT 1 1 0 [1] [[0]] [])
  = Ok (smul (1 + 1 * 1 + (1 * 1) ^ 2 / 2 + (1 * 1) ^ 3 / 6 + 1397 / 33600 * (1 * 1) ^ 4
              + (1 * 1) ^ 5 / 120 + (1 * 1) ^ 6 / 720 + (1 * 1) ^ 7 / 5040
              + (1 * 1) ^ 8 / 40320 + (1 * 1) ^ 9 / 2177280 + (1 * 1) ^ 10 / 2177280) [1]).
Proof.
  apply (RK8_linear_test CONSTANT 1 1 1 0 [1] [[0]] []).
  intros t'. exists [[0]]. reflexivity.
Defined.

(** ** Sub-steps compose *)

Section LinearTrajectory.

Variable model : Model.
Variable n_step : nat.
Variable s : Scheme.
Variable control_type : ControlType.
Variables (h_norm a h : R) (u : matrix) (p : vec).

Hypothesis no_quaternion : nbQuat model = 0%nat.
Hypothesis control_ok :
  forall t' : R, exists u_t, Integrator_get_u control_type u t' = Ok u_t.

Let next_x := scheme_next_x s (linear_ode a) 0 control_type h_norm.
Let g := scheme_growth s (h * a).

Lemma sub_step_linear i (y : vec) :
  sub_step model n_step next_x (length y) h u p i y = Ok (smul g y).
Proof.
  unfold sub_step, next_x. rewrite scheme_linear_run by exact control_ok.
  cbn [rbind]. rewrite length_smul, Nat.eqb_refl, no_quaternion. reflexivity.
Qed.

Lemma trajectory_linear steps : forall (y : vec),
  trajectory model n_step next_x (length y) h u p steps y
  = Ok (map (fun k => smul (g ^ k) y) (seq 1 (length steps))).
Proof.
  induction steps as [|i steps IH]; intros y; [reflexivity|].
  cbn [trajectory]. rewrite sub_step_linear. cbn [rbind].
  rewrite <- (length_smul g y) at 1. rewrite IH. cbn [rbind length seq map].
  do 2 f_equal.
  - apply smul_eq. ring.
  - rewrite <- (seq_shift (length steps) 1), map_map. apply map_ext. intros k.
    rewrite smul_smul. apply smul_eq. simpl. ring.
Qed.

Lemma RK_dxdt_linear (x : vec) :
  result_of (RK_dxdt model n_step next_x h x u p)
  = Ok (smul (g ^ n_step) x, x :: map (fun k => smul (g ^ k) x) (seq 1 n_step)).
Proof.
  rewrite RK_dxdt_trajectory, trajectory_linear, length_seq. cbn [rbind].
  do 2 f_equal.
  destruct n_step as [|n].
  - simpl. symmetry. apply smul_1_eq. reflexivity.
  - rewrite last_lookup, length_map, length_seq.
    cbn [pred]. rewrite list_lookup_fmap, lookup_seq_lt by lia. reflexivity.
Qed.

End LinearTrajectory.

(** X3: without quaternion, under the linear dynamics [dx/dt = a * x], the
    sub-steps of one finite element compose: the column [i] of the
    trajectory is the input state multiplied by the [i]-th power of the
    growth factor of the scheme, and the output state by its [n_step]-th
    power. *)
Theorem explicit_linear_trajectory
    (model : Model) (n_step : nat) (s : Scheme) (control_type : ControlType)
    (h_norm a h : R) (x : vec) (u : matrix) (p : vec) :
  nbQuat model = 0%nat ->
  (forall t' : R, exists u_t, Integrator_get_u control_type u t' = Ok u_t) ->
  let g := scheme_growth s (h * a) in
  result_of (RK_dxdt model n_step (scheme_next_x s (linear_ode a) 0 control_type h_norm)
               h x u p)
  = Ok (smul (g ^ n_step) x, x :: map (fun k => smul (g ^ k) x) (seq 1 n_step)).
Proof. intros Hq Hu g. apply RK_dxdt_linear; assumption. Qed.

Lemma explicit_linear_trajectory_witness :
  result_of (RK_dxdt {| segments := []; nbDof := 0; nbQuat := 0 |} 2
               (scheme_next_x RK4 (linear_ode 1) 0 CONSTANT (1 / 2)) 1 [1] [[0]] [])
  = Ok (smul (RK4_growth (1 * 1) ^ 2) [1],
        [[1]; smul (RK4_growth (1 * 1) ^ 1) [1]; smul (RK4_growth (1 * 1) ^ 2) [1]]).
Proof.
  apply (explicit_linear_trajectory {| segments := []; nbDof := 0; nbQuat := 0 |} 2 RK4
           CONSTANT (1 / 2) 1 1 [1] [[0]] []).
  - reflexivity.
  - intros t'. exists [[0]]. reflexivity.
Defined.

(** ** Dynamics that follow the control *)

Lemma length_interpolate (u0 u1 : vec) t :
  length u0 = length u1 -> length (interpolate u0 u1 t) = length u0.
Proof. intros H. unfold interpolate. vec_len. Qed.

Lemma get_u_interpolate (u0 u1 : vec) (rest : matrix) t :
  length u0 = length u1 ->
  Integrator_get_u LINEAR_CONTINUOUS (u0 :: u1 :: rest) t = Ok [interpolate u0 u1 t].
Proof. apply get_u_linear. Qed.

Lemma dyn_value_control (x v : vec) (p : vec) :
  dyn_value control_ode 0 x [v] p = Ok v.
Proof. reflexivity. Qed.

Lemma RK4_quadrature (x u0 u1 : vec) h t h_norm :
  length u0 = length x -> length u1 = length x ->
  vplus x (smul (h / 6)
             (vplus (vplus (vplus (interpolate u0 u1 t)
                              (smul 2 (interpolate u0 u1 (t + h_norm / 2))))
                       (smul 2 (interpolate u0 u1 (t + h_norm / 2))))
                (interpolate u0 u1 (t + h_norm))))
  = vplus x (smul h (interpolate u0 u1 (t + h_norm / 2))).
Proof.
  unfold interpolate, vplus, vminus, vmulr, smul.
  revert u0 u1. induction x as [|xi x IH]; intros [|a u0] [|b u1] H0 H1;
    simpl in *; try discriminate; try reflexivity.
  f_equal; [field|]. apply IH; lia.
Qed.

Lemma RK4_control_run h_norm h t (x u0 u1 : vec) (rest : matrix) (p : vec) :
  length u0 = length x -> length u1 = length x ->
  result_of (RK4_next_x control_ode 0 LINEAR_CONTINUOUS h_norm h t x (u0 :: u1 :: rest) p)
  = Ok (vplus x (smul h (interpolate u0 u1 (t + h_norm / 2)))).
Proof.
  intros H0 H1.
  rewrite (RK4_next_x_run control_ode 0 LINEAR_CONTINUOUS h_norm h t x (u0 :: u1 :: rest) p
             [interpolate u0 u1 t] [interpolate u0 u1 (t + h_norm / 2)]
             [interpolate u0 u1 (t + h_norm)]
             (interpolate u0 u1 t) (interpolate u0 u1 (t + h_norm / 2))
             (interpolate u0 u1 (t + h_norm / 2)) (interpolate u0 u1 (t + h_norm)));
    try (apply get_u_interpolate; congruence);
    try apply dyn_value_control;
    try (rewrite length_interpolate; congruence).
  cbn [result_of snd]. f_equal. apply RK4_quadrature; assumption.
Qed.

Lemma RK8_control_stages h_norm h t (x u0 u1 : vec) (rest : matrix) (p : vec) :
  length u0 = length x -> length u1 = length x ->
  RK8_stages control_ode 0 LINEAR_CONTINUOUS h_norm h t x (u0 :: u1 :: rest) p
    (RK8_control_values u0 u1 t h_norm).
Proof.
  intros H0 H1. unfold RK8_stages. cbv zeta.
  cbn [rk8_u1 rk8_u2 rk8_u3 rk8_u4 rk8_u5 rk8_u6 rk8_u7 rk8_u8 rk8_u9
       rk8_k1 rk8_k2 rk8_k3 rk8_k4 rk8_k5 rk8_k6 rk8_k7 rk8_k8 rk8_k9 rk8_k10
       RK8_control_values].
  do 9 (split; [apply get_u_interpolate; congruence|]).
  do 10 (split; [apply dyn_value_control|]).
  repeat constructor; rewrite length_interpolate; congruence.
Qed.

Lemma RK8_quadrature (x u0 u1 : vec) h t h_norm :
  length u0 = length x -> length u1 = length x ->
  RK8_result h x (RK8_control_values u0 u1 t h_norm)
  = vplus x (smul h (interpolate u0 u1 (t + h_norm / 2))).
Proof.
  unfold RK8_result.
  cbn [rk8_k1 rk8_k4 rk8_k5 rk8_k6 rk8_k7 rk8_k9 rk8_k10 RK8_control_values].
  unfold interpolate, vplus, vminus, vmulr, smul.
  revert u0 u1. induction x as [|xi x IH]; intros [|a u0] [|b u1] H0 H1;
    simpl in *; try discriminate; try reflexivity.
  f_equal; [field|]. apply IH; lia.
Qed.

Lemma RK8_control_run h_norm h t (x u0 u1 : vec) (rest : matrix) (p : vec) :
  length u0 = length x -> length u1 = length x ->
  result_of (RK8_next_x control_ode 0 LINEAR_CONTINUOUS h_norm h t x (u0 :: u1 :: rest) p)
  = Ok (vplus x (smul h (interpolate u0 u1 (t + h_norm / 2)))).
Proof.
  intros H0 H1.
  rewrite (RK8_next_x_run _ _ _ _ _ _ _ _ _ _
             (RK8_control_stages h_norm h t x u0 u1 rest p H0 H1)).
  cbn [result_of snd]. f_equal. apply RK8_quadrature; assumption.
Qed.

(** X4: when the dynamics is the control itself, interpolated linearly
    between the two columns of [u], both sub-steps integrate it exactly:
    they add [h] times the control at the middle of the sub-step. *)
Theorem control_integrated_exactly
    (s : Scheme) (h_norm h t : R) (x u0 u1 : vec) (rest : matrix) (p : vec) :
  length u0 = length x -> length u1 = length x ->
  result_of (scheme_next_x s control_ode 0 LINEAR_CONTINUOUS h_norm h t x
               (u0 :: u1 :: rest) p)
  = Ok (vplus x (smul h (interpolate u0 u1 (t + h_norm / 2)))).
Proof.
  intros H0 H1. destruct s; [apply RK4_control_run|apply RK8_control_run]; assumption.
Qed.

Lemma control_integrated_exactly_witness :
  result_of (scheme_next_x RK8 control_ode 0 LINEAR_CONTINUOUS 1 2 0 [1; 1]
               [[0; 2]; [4; 6]] [])
  = Ok (vplus [1; 1] (smul 2 (interpolate [0; 2] [4; 6] (0 + 1 / 2)))).
Proof.
  apply (control_integrated_exactly RK8 1 2 0 [1; 1] [0; 2] [4; 6] [] []); reflexivity.
Defined.

(** ** The interpolated control *)

(** X6: the linear interpolation reads the first two columns of the control
    only: it raises when the control has fewer than two columns, and the
    further columns have no effect on its value. *)
Theorem get_u_linear_columns :
  (forall t : R, exists e, Integrator_get_u LINEAR_CONTINUOUS [] t = Raise e)
  /\ (forall (u0 : vec) (t : R),
        exists e, Integrator_get_u LINEAR_CONTINUOUS [u0] t = Raise e)
  /\ (forall (u0 u1 : vec) (rest : matrix) (t : R),
        Integrator_get_u LINEAR_CONTINUOUS (u0 :: u1 :: rest) t
        = Integrator_get_u LINEAR_CONTINUOUS [u0; u1] t).
Proof.
  split; [|split].
  - intros t. eexists. reflexivity.
  - intros u0 t. eexists. reflexivity.
  - intros u0 u1 rest t. unfold Integrator_get_u.
    rewrite !(get_col_nat _ 0 u0), !(get_col_nat _ 1 u1) by reflexivity. reflexivity.
Qed.

(** ** The renormalisation of the quaternions, once more *)

Lemma block_norm_Some (c : vec) q0 q1 q2 q3 n :
  block_norm c (q0, q1, q2, q3) = Some n ->
  exists a3 a0 a1 a2,
    c !! q3 = Some a3 /\ c !! q0 = Some a0 /\ c !! q1 = Some a1 /\ c !! q2 = Some a2
    /\ n = norm_fro [a3; a0; a1; a2].
Proof.
  unfold block_norm. intros H.
  destruct (c !! q3) as [a3|]; [|discriminate].
  destruct (c !! q0) as [a0|]; [|discriminate].
  destruct (c !! q1) as [a1|]; [|discriminate].
  destruct (c !! q2) as [a2|]; [|discriminate].
  exists a3, a0, a1, a2. inversion H. repeat split; reflexivity.
Qed.

(** A block whose quaternion has the norm 1 already is left as it is. *)
Lemma normalize_block_unit (c : vec) blk :
  block_shaped blk -> block_norm c blk = Some 1 -> normalize_block c blk = Ok c.
Proof.
  destruct blk as [[[q0 q1] q2] q3]. intros (-> & -> & Hq3) Hn.
  destruct (block_norm_Some _ _ _ _ _ _ Hn) as (a3 & a0 & a1 & a2 & H3 & H0 & H1 & H2 & En).
  rewrite (normalize_block_nonzero c q0 q3 a3 a0 a1 a2) by (try assumption; rewrite <- En; lra).
  rewrite <- En. replace (a0 / 1) with a0 by field. replace (a1 / 1) with a1 by field.
  replace (a2 / 1) with a2 by field. replace (a3 / 1) with a3 by field.
  rewrite (list_insert_id c q0 a0 H0), (list_insert_id c _ a1 H1),
    (list_insert_id c _ a2 H2), (list_insert_id c q3 a3 H3).
  reflexivity.
Qed.

Lemma normalize_col_unit quat_idx js (c : vec) :
  (forall j, j ∈ js ->
     exists blk, quat_idx !! j = Some blk /\ block_shaped blk /\ block_norm c blk = Some 1) ->
  normalize_col quat_idx js c = Ok c.
Proof.
  induction js as [|j js IH]; intros H; [reflexivity|].
  destruct (H j) as (blk & Hblk & Hshape & Hn); [apply elem_of_cons; left; reflexivity|].
  cbn [normalize_col]. rewrite (lookup_or_raise_Some _ _ _ Hblk). cbn [rbind].
  rewrite (normalize_block_unit c blk Hshape Hn). cbn [rbind].
  apply IH. intros j' Hj'. apply H. apply elem_of_cons. right. exact Hj'.
Qed.

Lemma normalize_col_model_unit model (c : vec) :
  wf_model model ->
  (forall blk, blk ∈ build_quat_idx model -> block_norm c blk = Some 1) ->
  normalize_col (build_quat_idx model) (seq 0 (nbQuat model)) c = Ok c.
Proof.
  intros Hwf Hn. pose proof (build_quat_idx_chain model Hwf) as Hchain.
  apply normalize_col_unit. intros j Hj. apply elem_of_seq in Hj.
  destruct (lookup_lt_is_Some_2 (build_quat_idx model) j) as [blk Hblk];
    [rewrite build_quat_idx_length by exact Hwf; lia|].
  exists blk. split; [exact Hblk|]. split.
  - apply (blocks_chain_shaped _ _ _ _ _ _ Hchain Hblk).
  - apply Hn. apply list_elem_of_lookup. exists j. exact Hblk.
Qed.

(** X8: for a consistent model, the renormalisation of a column leaves a
    column whose quaternions all have the norm 1 as it is; hence
    renormalising twice is renormalising once. *)
Theorem renormalisation_idempotent (model : Model) :
  wf_model model ->
  (forall c : vec,
     (forall blk, blk ∈ build_quat_idx model -> block_norm c blk = Some 1) ->
     normalize_col (build_quat_idx model) (seq 0 (nbQuat model)) c = Ok c)
  /\ (forall c c' : vec,
        normalize_col (build_quat_idx model) (seq 0 (nbQuat model)) c = Ok c' ->
        normalize_col (build_quat_idx model) (seq 0 (nbQuat model)) c' = Ok c').
Proof.
  intros Hwf. split.
  - intros c Hn. apply normalize_col_model_unit; assumption.
  - intros c c' H. apply normalize_col_model_unit; [exact Hwf|].
    apply (normalize_col_model model c c' Hwf H).
Qed.

Lemma renormalisation_idempotent_witness :
  (forall c : vec,
     (forall blk, blk ∈ build_quat_idx quaternion_model -> block_norm c blk = Some 1) ->
     normalize_col (build_quat_idx quaternion_model) (seq 0 (nbQuat quaternion_model)) c
     = Ok c)
  /\ (forall c c' : vec,
        normalize_col (build_quat_idx quaternion_model)
          (seq 0 (nbQuat quaternion_model)) c = Ok c' ->
        normalize_col (build_quat_idx quaternion_model)
          (seq 0 (nbQuat quaternion_model)) c' = Ok c').
Proof.
  apply (renormalisation_idempotent quaternion_model). apply quaternion_model_wf.
Defined.

(** The renormalisation of the blocks [js] of a column that holds all their
    rows: it fails exactly when one of their quaternions is zero, and then
    with the division by zero. *)
Lemma normalize_col_total quat_idx js : forall c : vec,
  (forall j blk, quat_idx !! j = Some blk -> block_shaped blk) ->
  blocks_disjoint quat_idx ->
  NoDup js ->
  (forall j, j ∈ js ->
     exists q0 q1 q2 q3, quat_idx !! j = Some (q0, q1, q2, q3) /\ (q3 < length c)%nat) ->
  ((exists c', normalize_col quat_idx js c = Ok c' /\ length c' = length c)
   /\ forall j blk, j ∈ js -> quat_idx !! j = Some blk -> block_norm c blk <> Some 0)
  \/ (normalize_col quat_idx js c = Raise NotANumber
      /\ exists j blk, j ∈ js /\ quat_idx !! j = Some blk /\ block_norm c blk = Some 0).
Proof.
  induction js as [|j js IH]; intros c Hshape Hdisj Hnd Hin.
  - left. split; [exists c; split; reflexivity|].
    intros j blk Hj. apply elem_of_nil in Hj. contradiction.
  - apply NoDup_cons in Hnd. destruct Hnd as [Hj Hnd].
    destruct (Hin j) as (q0 & q1 & q2 & q3 & Hblk & Hq3);
      [apply elem_of_cons; left; reflexivity|].
    pose proof (Hshape _ _ Hblk) as (E1 & E2 & Hq).
    destruct (lookup_lt_is_Some_2 c q3) as [a3 H3]; [lia|].
    destruct (lookup_lt_is_Some_2 c q0) as [a0 H0]; [lia|].
    destruct (lookup_lt_is_Some_2 c q1) as [a1 H1]; [lia|].
    destruct (lookup_lt_is_Some_2 c q2) as [a2 H2]; [lia|].
    assert (Hnorm : block_norm c (q0, q1, q2, q3) = Some (norm_fro [a3; a0; a1; a2])).
    { unfold block_norm. rewrite H3, H0, H1, H2. reflexivity. }
    cbn [normalize_col]. rewrite (lookup_or_raise_Some _ _ _ Hblk). cbn [rbind].
    destruct (Req_dec_T (norm_fro [a3; a0; a1; a2]) 0) as [En|En].
    + right. split.
      * apply norm_fro_zero_iff in En. destruct En as (-> & -> & -> & ->).
        rewrite normalize_block_zero by assumption. reflexivity.
      * exists j, (q0, q1, q2, q3). split; [apply elem_of_cons; left; reflexivity|].
        split; [exact Hblk|]. rewrite Hnorm, En. reflexivity.
    + destruct (normalize_block c (q0, q1, q2, q3)) as [c1|e] eqn:Hc1.
      2:{ exfalso. subst q1 q2.
          rewrite (normalize_block_nonzero c q0 q3 a3 a0 a1 a2) in Hc1 by assumption.
          discriminate. }
      destruct (normalize_block_spec c c1 _ (Hshape _ _ Hblk) Hc1) as (L1 & K1 & _).
      cbn [rbind].
      assert (Hext : forall j' blk', j' ∈ js -> quat_idx !! j' = Some blk' ->
                block_norm c1 blk' = block_norm c blk').
      { intros j' blk' Hj' Hblk'. apply block_norm_ext. intros k Hk. apply K1.
        apply (Hdisj j' j blk' (q0, q1, q2, q3) k); try assumption.
        intros ->. contradiction. }
      destruct (IH c1 Hshape Hdisj Hnd) as [[(c' & Hc' & L') Hall]|[Hr (j' & blk' & Hj' & Hblk' & Hz)]].
      * intros j' Hj'. destruct (Hin j') as (r0 & r1 & r2 & r3 & Hr & Hlt);
          [apply elem_of_cons; right; exact Hj'|].
        exists r0, r1, r2, r3. split; [exact Hr|]. rewrite L1. exact Hlt.
      * left. split; [exists c'; split; [exact Hc'|congruence]|].
        intros j' blk' Hj' Hblk'. apply elem_of_cons in Hj'. destruct Hj' as [->|Hj'].
        -- assert (blk' = (q0, q1, q2, q3)) by congruence. subst blk'.
           rewrite Hnorm. intros Hz. inversion Hz. contradiction.
        -- rewrite <- (Hext j' blk' Hj' Hblk'). apply (Hall j' blk' Hj' Hblk').
      * right. split; [exact Hr|]. exists j', blk'.
        split; [apply elem_of_cons; right; exact Hj'|]. split; [exact Hblk'|].
        rewrite <- (Hext j' blk' Hj' Hblk'). exact Hz.
Qed.

(** X9: for a consistent model and a column of at least [nbDof + nbQuat]
    rows, no index of a block is out of the column: the renormalisation
    returns a column of the same length when no quaternion of the column is
    zero, and fails on the division by zero when one is. *)
Theorem renormalisation_indices_in_range (model : Model) (c : vec) :
  wf_model model ->
  (nbDof model + nbQuat model <= length c)%nat ->
  ((exists c', normalize_col (build_quat_idx model) (seq 0 (nbQuat model)) c = Ok c'
               /\ length c' = length c)
   /\ forall blk, blk ∈ build_quat_idx model -> block_norm c blk <> Some 0)
  \/ (normalize_col (build_quat_idx model) (seq 0 (nbQuat model)) c = Raise NotANumber
      /\ exists blk, blk ∈ build_quat_idx model /\ block_norm c blk = Some 0).
Proof.
  intros Hwf Hlen. pose proof (build_quat_idx_chain model Hwf) as Hchain.
  pose proof (build_quat_idx_length model Hwf) as Hl.
  destruct (normalize_col_total (build_quat_idx model) (seq 0 (nbQuat model)) c)
    as [[Hok Hall]|[Hr (j & blk & Hj & Hblk & Hz)]].
  - intros j blk. apply (blocks_chain_shaped _ _ _ _ _ _ Hchain).
  - apply (blocks_chain_disjoint _ _ _ _ Hchain).
  - apply NoDup_seq.
  - intros j Hj. apply elem_of_seq in Hj.
    destruct (lookup_lt_is_Some_2 (build_quat_idx model) j) as [[[[q0 q1] q2] q3] Hblk];
      [lia|].
    exists q0, q1, q2, q3. split; [exact Hblk|].
    destruct (blocks_chain_lookup _ _ _ _ _ _ _ _ _ Hchain Hblk) as (_ & _ & _ & _ & E3). lia.
  - left. split; [exact Hok|]. intros blk Hin.
    apply list_elem_of_lookup in Hin. destruct Hin as [j Hj].
    apply (Hall j blk); [|exact Hj]. apply elem_of_seq.
    apply lookup_lt_Some in Hj. lia.
  - right. split; [exact Hr|]. exists blk. split; [|exact Hz].
    apply list_elem_of_lookup. exists j. exact Hblk.
Qed.

Lemma renormalisation_indices_in_range_witness :
  ((exists c', normalize_col (build_quat_idx quaternion_model)
                 (seq 0 (nbQuat quaternion_model)) [0; 3; 0; 4; 7] = Ok c'
               /\ length c' = length [0; 3; 0; 4; 7])
   /\ forall blk, blk ∈ build_quat_idx quaternion_model ->
        block_norm [0; 3; 0; 4; 7] blk <> Some 0)
  \/ (normalize_col (build_quat_idx quaternion_model)
        (seq 0 (nbQuat quaternion_model)) [0; 3; 0; 4; 7] = Raise NotANumber
      /\ exists blk, blk ∈ build_quat_idx quaternion_model
                     /\ block_norm [0; 3; 0; 4; 7] blk = Some 0).
Proof.
  apply (renormalisation_indices_in_range quaternion_model [0; 3; 0; 4; 7]).
  - apply quaternion_model_wf.
  - cbn. lia.
Defined.

(** ** The implicit integrator of degree 1 *)

(** The tableau of the degree 1 on the points 0 and [c]: the derivatives of
    the two Lagrange polynomials, constant, and their values at 1. *)
Lemma build_tableau_degree_1 (c : R) :
  c <> 0 ->
  build_tableau [0; c] 1
  = Ok ([[-1 / c; 1 / c]; [-1 / c; 1 / c]], [(c - 1) / c; 1 / c]).
Proof.
  intros Hc. unfold build_tableau, tableau_loop, tableau_row_loop, lfcn, tfcn, lagrange.
  cbn [seq Nat.add lagrange_loop lookup_or_raise lookup list_lookup rbind].
  repeat (match goal with |- context [decide ?P] => destruct (decide P); [|try lia; try congruence] end; try lia; try congruence).
  all: cbn [rbind lookup_or_raise lookup list_lookup].
  all: unfold dual_div_const, dual_sub_const, dual_mul, dual_const, cdiv; cbn [fst snd].
  all: repeat (match goal with |- context [Req_dec_T ?a ?b] => destruct (Req_dec_T a b); [exfalso; lra|] end).
  all: cbn [rbind fst snd].
  unfold cx_zeros, zeros. cbn [replicate].
  repeat first
    [ progress cbn [rbind insert list_insert lookup list_lookup length]
    | progress unfold mset, vset
    | match goal with
      | |- context [decide ?P] => destruct (decide P); [|exfalso; simpl in *; lia]
      end ].
  repeat f_equal; field; lra.
Qed.

Lemma weighted_sum_two_lookup nx w0 w1 (a b : vec) i x y :
  length a = nx -> length b = nx ->
  a !! i = Some x -> b !! i = Some y ->
  weighted_sum nx [w0; w1] [a; b] !! i = Some (0 + w0 * x + w1 * y).
Proof.
  intros Ha Hb Hx Hy. unfold weighted_sum. cbn [zip zip_with foldl].
  unfold weighted_step, vplus, smul, zeros. cbn [fst snd].
  apply lookup_lt_Some in Hx as Hi.
  rewrite !lookup_zip_with, lookup_replicate_2 by lia. cbn [mbind option_bind].
  rewrite !list_lookup_fmap, Hx, Hy. reflexivity.
Qed.

Lemma irk_points_degree_1 (X : vec) : irk_points (length X) 1 X = [X].
Proof.
  unfold irk_points, slice. cbn [seq map Nat.sub Nat.mul drop].
  rewrite Nat.add_0_r, Nat.sub_0_r, firstn_all. reflexivity.
Qed.

Lemma vfcn_degree_1 ode_fun idx (_c : matrix) h params u (x0 X f1 cj : vec) :
  _c !! 1%nat = Some cj -> length cj = 2%nat ->
  length X = length x0 ->
  dyn_value ode_fun idx X u params = Ok f1 -> length f1 = length x0 ->
  result_of (vfcn 1 [equation ode_fun idx 1 _c h params 1 u] (length x0) x0 X)
  = Ok (vminus (smul h f1) (weighted_sum (length x0) cj [x0; X])).
Proof.
  intros Hcj Hlc HX Hf Hf1.
  assert (Hlen : length X = (1 * length x0)%nat) by lia.
  unfold vfcn. rewrite (split_points_ok _ 1 X Hlen).
  rewrite (bind_lift_ok _ _ _ eq_refl).
  rewrite <- HX at 1. rewrite irk_points_degree_1. cbn [eval_equations].
  rewrite (equation_run ode_fun idx 1 _c h params 1 u [x0; X] cj X f1 (length x0));
    try assumption; try reflexivity.
  - unfold result_of, bind, ret. cbn [fst snd]. rewrite app_nil_r. reflexivity.
  - repeat apply Forall_cons_2; [reflexivity|exact HX|apply Forall_nil_2].
Qed.

(** X10: the implicit integrator of degree 1 on the collocation point [c]
    is the one-stage collocation rule.  When the answer [X] of the
    root-finder is a root of the residual that the integrator forms, [X] is
    the state at the collocation point, [x0 + c * h * f(X)], and the
    integrator returns [x0 + h * f(X)] (the implicit midpoint rule for the
    Legendre point 1/2). *)
Theorem IRK_degree_1_collocation
    (ode_fun : vec -> matrix -> vec -> result matrix) (idx : Z)
    (collocation_points : nat -> list R)
    (rootfinder : (vec -> result vec) -> vec -> result vec)
    (h c : R) (x0 : vec) (u : matrix) (params : vec)
    (_c : matrix) (_d : vec) (X f1 : vec) :
  let nx := length x0 in
  let eqs := [equation ode_fun idx 1 _c h params 1 u] in
  collocation_points 1%nat = [c] -> c <> 0 ->
  build_tableau (0 :: collocation_points 1%nat) 1 = Ok (_c, _d) ->
  rootfinder (fun X' => result_of (vfcn 1 eqs nx x0 X')) [] = Ok X ->
  length X = nx ->
  result_of (vfcn 1 eqs nx x0 X) = Ok (zeros nx) ->
  dyn_value ode_fun idx X u params = Ok f1 -> length f1 = nx ->
  X = vplus x0 (smul (c * h) f1)
  /\ result_of (IRK_dxdt ode_fun idx CONSTANT 1 collocation_points rootfinder
                  h x0 u params)
     = Ok (vplus x0 (smul h f1), [x0; vplus x0 (smul h f1)]).
Proof.
  intros nx eqs Hpts Hc Htab Hsolved HX Hroot Hf Hf1.
  assert (Hlen : length X = (1 * nx)%nat) by lia.
  pose proof (IRK_dxdt_constant ode_fun idx 1 collocation_points rootfinder
                h x0 u params _c _d X Htab Hsolved Hlen) as Hrun.
  rewrite Hpts, (build_tableau_degree_1 c Hc) in Htab.
  inversion Htab as [[Ec Ed]]. clear Htab.
  assert (Hirk : irk_points nx 1 X = [X]) by (rewrite <- HX; apply irk_points_degree_1).
  fold nx in Hrun. rewrite Hirk in Hrun.
  assert (Hall : Forall (fun v : vec => length v = nx) [x0; X]).
  { repeat apply Forall_cons_2; [reflexivity|exact HX|apply Forall_nil_2]. }
  unfold eqs, nx in Hroot.
  rewrite (vfcn_degree_1 ode_fun idx _c h params u x0 X f1 [-1 / c; 1 / c]) in Hroot;
    try assumption; try reflexivity; [|subst _c; reflexivity].
  fold nx in Hroot. inversion Hroot as [Hzero]. clear Hroot.
  assert (Hpoint : forall i a b f,
            x0 !! i = Some a -> X !! i = Some b -> f1 !! i = Some f ->
            b = a + c * h * f).
  { intros i a b f Ha Hb Hf'.
    apply (f_equal (fun l => l !! i)) in Hzero.
    apply lookup_lt_Some in Ha as Hi.
    unfold vminus, zeros in Hzero.
    rewrite lookup_zip_with, lookup_replicate_2 in Hzero by exact Hi.
    unfold smul in Hzero at 1. rewrite list_lookup_fmap, Hf' in Hzero.
    rewrite (weighted_sum_two_lookup nx _ _ x0 X i a b eq_refl HX Ha Hb) in Hzero.
    cbn [fmap option_fmap option_map mbind option_bind] in Hzero.
    inversion Hzero as [E].
    assert (E' : (h * f - (0 + -1 / c * a + 1 / c * b)) * c = h * f * c - (b - a))
      by (field; exact Hc).
    rewrite E in E'. lra. }
  assert (HXeq : X = vplus x0 (smul (c * h) f1)).
  { apply list_eq. intros i. unfold vplus, smul.
    rewrite lookup_zip_with, list_lookup_fmap.
    destruct (decide (i < nx)%nat) as [Hi|Hi].
    - destruct (lookup_lt_is_Some_2 x0 i) as [a Ha]; [exact Hi|].
      destruct (lookup_lt_is_Some_2 X i) as [b Hb]; [lia|].
      destruct (lookup_lt_is_Some_2 f1 i) as [f Hf']; [lia|].
      rewrite Ha, Hb, Hf'. cbn [fmap option_fmap option_map mbind option_bind].
      f_equal. apply (Hpoint i a b f Ha Hb Hf').
    - rewrite (lookup_ge_None_2 X) by lia. rewrite (lookup_ge_None_2 x0) by (fold nx; lia).
      reflexivity. }
  split; [exact HXeq|].
  rewrite Hrun. unfold result_of. cbn [snd].
  assert (Hxf : weighted_sum nx _d [x0; X] = vplus x0 (smul h f1)).
  { subst _d. apply list_eq. intros i. unfold vplus at 1, smul at 1.
    rewrite lookup_zip_with, list_lookup_fmap.
    destruct (decide (i < nx)%nat) as [Hi|Hi].
    - destruct (lookup_lt_is_Some_2 x0 i) as [a Ha]; [exact Hi|].
      destruct (lookup_lt_is_Some_2 X i) as [b Hb]; [lia|].
      destruct (lookup_lt_is_Some_2 f1 i) as [f Hf']; [lia|].
      rewrite (weighted_sum_two_lookup nx _ _ x0 X i a b eq_refl HX Ha Hb).
      rewrite Ha, Hf'. cbn [fmap option_fmap option_map mbind option_bind].
      f_equal. rewrite (Hpoint i a b f Ha Hb Hf'). field. exact Hc.
    - rewrite (lookup_ge_None_2 x0) by (fold nx; lia).
      apply lookup_ge_None_2. rewrite length_weighted_sum by exact Hall. lia. }
  rewrite Hxf. reflexivity.
Qed.

Lemma IRK_degree_1_collocation_witness :
  [6] = vplus [3] (smul (1 / 2 * 1) [1 * 6])
  /\ result_of (IRK_dxdt (linear_ode 1) 0 CONSTANT 1 (fun _ => [1 / 2])
                  (fun _ _ => Ok [6]) 1 [3] [[0]] [])
     = Ok (vplus [3] (smul 1 [1 * 6]), [[3]; vplus [3] (smul 1 [1 * 6])]).
Proof.
  apply (IRK_degree_1_collocation (linear_ode 1) 0 (fun _ => [1 / 2]) (fun _ _ => Ok [6])
           1 (1 / 2) [3] [[0]] []
           [[-1 / (1 / 2); 1 / (1 / 2)]; [-1 / (1 / 2); 1 / (1 / 2)]]
           [(1 / 2 - 1) / (1 / 2); 1 / (1 / 2)] [6] [1 * 6]);
    try reflexivity.
  - lra.
  - apply build_tableau_degree_1. lra.
  - rewrite (vfcn_degree_1 (linear_ode 1) 0 _ 1 [] [[0]] [3] [6] [1 * 6]
               [-1 / (1 / 2); 1 / (1 / 2)]); try reflexivity.
    unfold vminus, weighted_sum, weighted_step, vplus, smul, zeros. cbn.
    do 2 f_equal. field.
Defined.

(** ** The events of a run of the explicit integrators *)


Lemma trace_of_bind {A B} (m : M A) (f : A -> M B) :
  trace_of (bind m f)
  = trace_of m ++ match result_of m with Ok a => trace_of (f a) | Raise _ => [] end.
Proof.
  unfold trace_of, result_of, bind. destruct (snd m); cbn [fst]; [reflexivity|].
  rewrite app_nil_r. reflexivity.
Qed.

Lemma trace_bind_Forall {A B} (P : event -> Prop) (m : M A) (f : A -> M B) :
  Forall P (trace_of m) -> (forall a, Forall P (trace_of (f a))) ->
  Forall P (trace_of (bind m f)).
Proof.
  intros Hm Hf. rewrite trace_of_bind. apply Forall_app. split; [exact Hm|].
  destruct (result_of m); [apply Hf|apply Forall_nil_2].
Qed.

Lemma trace_lift_Forall {A} (P : event -> Prop) (r : result A) :
  Forall P (trace_of (lift r)).
Proof. apply Forall_nil_2. Qed.

Lemma trace_get_u_Forall (P : event -> Prop) ct u t :
  P (EvGetU t) -> Forall P (trace_of (get_u ct u t)).
Proof. intros H. rewrite get_u_run. apply Forall_cons_2; [exact H|apply Forall_nil_2]. Qed.

Lemma trace_dyn_Forall (P : event -> Prop) ode_fun idx x u p :
  P (EvDyn x u p) -> Forall P (trace_of (dyn ode_fun idx x u p)).
Proof. intros H. rewrite dyn_run. apply Forall_cons_2; [exact H|apply Forall_nil_2]. Qed.

Ltac trace_steps :=
  repeat first
    [ apply trace_lift_Forall
    | apply trace_get_u_Forall
    | apply trace_dyn_Forall
    | apply trace_bind_Forall; [|intros ?] ].

Lemma scheme_next_x_events s ode_fun idx control_type h_norm h t (x : vec) u p :
  0 <= h_norm ->
  Forall (sub_step_event t h_norm p)
    (trace_of (scheme_next_x s ode_fun idx control_type h_norm h t x u p)).
Proof.
  intros Hh. destruct s; unfold scheme_next_x, RK4_next_x, RK8_next_x.
  - trace_steps; cbn [sub_step_event]; try reflexivity; lra.
  - trace_steps; cbn [sub_step_event]; try reflexivity; lra.
Qed.

Lemma RK_loop_events (P : event -> Prop) model n_step next_x quat_idx h u p steps :
  (forall i (x : vec), i ∈ steps ->
     Forall P (trace_of (next_x h (INR (i - 1) / INR n_step) x u p))) ->
  forall x : matrix,
    Forall P (trace_of (RK_loop model n_step next_x quat_idx h u p steps x)).
Proof.
  induction steps as [|i steps IH]; intros Hstep x.
  - apply Forall_nil_2.
  - cbn [RK_loop]. apply trace_bind_Forall; [apply trace_lift_Forall|]. intros x_prev.
    apply trace_bind_Forall; [apply Hstep; apply elem_of_cons; left; reflexivity|].
    intros x_i. apply trace_bind_Forall; [apply trace_lift_Forall|]. intros x1.
    apply trace_bind_Forall; [apply trace_lift_Forall|]. intros x2.
    apply IH. intros j y Hj. apply Hstep. apply elem_of_cons. right. exact Hj.
Qed.

Lemma RK_dxdt_events (P : event -> Prop) model n_step next_x h (states : vec) u p :
  (forall i (x : vec), (1 <= i <= n_step)%nat ->
     Forall P (trace_of (next_x h (INR (i - 1) / INR n_step) x u p))) ->
  Forall P (trace_of (RK_dxdt model n_step next_x h states u p)).
Proof.
  intros Hstep. unfold RK_dxdt.
  apply trace_bind_Forall; [apply trace_lift_Forall|]. intros x.
  apply trace_bind_Forall.
  - apply RK_loop_events. intros i y Hi. apply Hstep. apply elem_of_seq in Hi. lia.
  - intros x'. apply trace_bind_Forall; [apply trace_lift_Forall|]. intros x_last.
    apply Forall_nil_2.
Qed.

Lemma sub_step_event_explicit (n_step i : nat) (p : vec) e :
  (1 <= i <= n_step)%nat ->
  sub_step_event (INR (i - 1) / INR n_step) (1 / INR n_step) p e ->
  explicit_event (Ok p) e.
Proof.
  intros Hi. assert (Hn : 0 < INR n_step) by (apply lt_0_INR; lia).
  assert (H0 : 0 <= INR (i - 1)) by apply pos_INR.
  assert (H1 : INR (i - 1) + 1 <= INR n_step).
  { rewrite <- S_INR. apply le_INR. lia. }
  assert (Ha : 0 <= INR (i - 1) / INR n_step).
  { apply Rmult_le_pos; [exact H0|]. apply Rlt_le, Rinv_0_lt_compat, Hn. }
  assert (Hb : INR (i - 1) / INR n_step + 1 / INR n_step <= 1).
  { replace (INR (i - 1) / INR n_step + 1 / INR n_step)
      with ((INR (i - 1) + 1) / INR n_step) by (field; lra).
    apply (Rmult_le_reg_r (INR n_step)); [exact Hn|].
    replace ((INR (i - 1) + 1) / INR n_step * INR n_step) with (INR (i - 1) + 1)
      by (field; lra).
    lra. }
  destruct e as [s|x u p'|]; cbn [sub_step_event explicit_event].
  - intros [Hs1 Hs2]. lra.
  - intros ->. reflexivity.
  - intros [].
Qed.

(** X11: whatever its inputs, a run of the compiled explicit integrator
    samples the control at normalised times of [0, 1] only, so that the
    linear interpolation never extrapolates; it evaluates the dynamics on
    the scaled parameters only; and it never calls the root-finder. *)
Theorem explicit_integrator_events
    (s : Scheme) (model : Model)
    (ode_fun : vec -> matrix -> vec -> result matrix) (idx : Z)
    (control_type : ControlType) (t0 tf : R) (n_step : nat)
    (param_scaling x0 : vec) (p : matrix) (params : vec) :
  Forall (explicit_event (scale_params params param_scaling))
    (trace_of (RK_function s model ode_fun idx control_type t0 tf n_step
                 param_scaling x0 p params)).
Proof.
  unfold RK_function, RK_step_sizes, pydiv.
  destruct (Req_dec_T (INR n_step) 0) as [E|E]; [apply Forall_nil_2|].
  cbn [rbind]. rewrite (bind_lift_ok _ _ _ eq_refl). cbn [fst snd].
  destruct (scale_params params param_scaling) as [scaled|e]; [|apply Forall_nil_2].
  rewrite (bind_lift_ok _ _ _ eq_refl).
  assert (Hn : (1 <= n_step)%nat).
  { destruct n_step; [exfalso; apply E; reflexivity|lia]. }
  apply RK_dxdt_events. intros i x Hi.
  eapply Forall_impl; [apply scheme_next_x_events|].
  - apply Rlt_le. apply Rdiv_lt_0_compat; [lra|apply lt_0_INR; lia].
  - intros e. apply sub_step_event_explicit. exact Hi.
Qed.

(** ** The cost of a run *)

Lemma count_dyn_app tr tr' : count_dyn (tr ++ tr') = (count_dyn tr + count_dyn tr')%nat.
Proof. unfold count_dyn. rewrite filter_app, length_app. reflexivity. Qed.

Lemma sample_times_app tr tr' : sample_times (tr ++ tr') = sample_times tr ++ sample_times tr'.
Proof. unfold sample_times. apply omap_app. Qed.

Lemma bind_Ok_inv {A B} (m : M A) (f : A -> M B) b :
  result_of (bind m f) = Ok b ->
  exists a, result_of m = Ok a /\ result_of (f a) = Ok b
            /\ trace_of (bind m f) = trace_of m ++ trace_of (f a).
Proof.
  intros H. rewrite trace_of_bind. rewrite result_of_bind in H.
  destruct (result_of m) as [a|e]; [|discriminate].
  exists a. repeat split. exact H.
Qed.

Ltac invert_run H :=
  repeat (apply bind_Ok_inv in H;
          let a := fresh "a" in
          let Ha := fresh "Ha" in
          let Htr := fresh "Htr" in
          destruct H as (a & Ha & H & Htr); rewrite Htr; clear Htr Ha;
          cbn beta in H).

Lemma scheme_next_x_cost s ode_fun idx control_type h_norm h t (x y : vec) u p :
  result_of (scheme_next_x s ode_fun idx control_type h_norm h t x u p) = Ok y ->
  count_dyn (trace_of (scheme_next_x s ode_fun idx control_type h_norm h t x u p))
  = scheme_stages s
  /\ length (sample_times
               (trace_of (scheme_next_x s ode_fun idx control_type h_norm h t x u p)))
     = scheme_stages s.
Proof.
  intros H. destruct s; unfold scheme_next_x, RK4_next_x, RK8_next_x in *.
  - invert_run H. rewrite !get_u_run, !dyn_run. split; reflexivity.
  - invert_run H. rewrite !get_u_run, !dyn_run. split; reflexivity.
Qed.

Lemma RK_loop_cost model n_step next_x quat_idx h u p (k : nat) steps :
  (forall t (x y : vec),
     result_of (next_x h t x u p) = Ok y ->
     count_dyn (trace_of (next_x h t x u p)) = k
     /\ length (sample_times (trace_of (next_x h t x u p))) = k) ->
  forall x x' : matrix,
    result_of (RK_loop model n_step next_x quat_idx h u p steps x) = Ok x' ->
    count_dyn (trace_of (RK_loop model n_step next_x quat_idx h u p steps x))
    = (k * length steps)%nat
    /\ length (sample_times (trace_of (RK_loop model n_step next_x quat_idx h u p steps x)))
       = (k * length steps)%nat.
Proof.
  intros Hstep. induction steps as [|i steps IH]; intros x x' H.
  - cbn. split; lia.
  - cbn [RK_loop] in *.
    apply bind_Ok_inv in H. destruct H as (x_prev & _ & H & Htr). rewrite Htr. clear Htr.
    apply bind_Ok_inv in H. destruct H as (x_i & Hx & H & Htr). rewrite Htr. clear Htr.
    apply bind_Ok_inv in H. destruct H as (x1 & _ & H & Htr). rewrite Htr. clear Htr.
    apply bind_Ok_inv in H. destruct H as (x2 & _ & H & Htr). rewrite Htr. clear Htr.
    destruct (Hstep _ _ _ Hx) as [Hc Hs]. destruct (IH _ _ H) as [Hc' Hs'].
    rewrite !count_dyn_app, !sample_times_app, !length_app, Hc, Hs, Hc', Hs'.
    cbn [length]. unfold lift, trace_of. cbn [fst]. cbn. split; lia.
Qed.

Lemma RK_dxdt_cost model n_step next_x h (states : vec) u p (k : nat) r :
  (forall t (x y : vec),
     result_of (next_x h t x u p) = Ok y ->
     count_dyn (trace_of (next_x h t x u p)) = k
     /\ length (sample_times (trace_of (next_x h t x u p))) = k) ->
  result_of (RK_dxdt model n_step next_x h states u p) = Ok r ->
  count_dyn (trace_of (RK_dxdt model n_step next_x h states u p)) = (k * n_step)%nat
  /\ length (sample_times (trace_of (RK_dxdt model n_step next_x h states u p)))
     = (k * n_step)%nat.
Proof.
  intros Hstep H. unfold RK_dxdt in *.
  apply bind_Ok_inv in H. destruct H as (x & _ & H & Htr). rewrite Htr. clear Htr.
  apply bind_Ok_inv in H. destruct H as (x' & Hx & H & Htr). rewrite Htr. clear Htr.
  apply bind_Ok_inv in H. destruct H as (x_last & _ & H & Htr). rewrite Htr. clear Htr.
  destruct (RK_loop_cost _ _ _ _ _ _ _ k _ Hstep _ _ Hx) as [Hc Hs].
  rewrite !count_dyn_app, !sample_times_app, !length_app, Hc, Hs, length_seq.
  unfold lift, ret, trace_of. cbn. split; lia.
Qed.

(** X12: when the compiled explicit integrator returns, it has evaluated
    the dynamics, and sampled the control, once per stage of each of its
    [n_step] sub-steps: 4 [n_step] times for RK4, 10 [n_step] times for
    RK8; and [n_step] is not zero. *)
Theorem explicit_integrator_cost
    (s : Scheme) (model : Model)
    (ode_fun : vec -> matrix -> vec -> result matrix) (idx : Z)
    (control_type : ControlType) (t0 tf : R) (n_step : nat)
    (param_scaling x0 : vec) (p : matrix) (params : vec) (r : vec * matrix) :
  result_of (RK_function s model ode_fun idx control_type t0 tf n_step
               param_scaling x0 p params) = Ok r ->
  let tr := trace_of (RK_function s model ode_fun idx control_type t0 tf n_step
                        param_scaling x0 p params) in
  count_dyn tr = (scheme_stages s * n_step)%nat
  /\ length (sample_times tr) = (scheme_stages s * n_step)%nat
  /\ (1 <= n_step)%nat.
Proof.
  intros H tr. unfold tr, RK_function in *.
  apply bind_Ok_inv in H. destruct H as (sizes & Hsz & H & Htr). rewrite Htr. clear Htr.
  apply bind_Ok_inv in H. destruct H as (scaled & _ & H & Htr). rewrite Htr. clear Htr.
  destruct (RK_dxdt_cost _ _ _ _ _ _ _ (scheme_stages s) _
              (fun t x y => scheme_next_x_cost s _ _ _ _ _ t x y _ _) H) as [Hc Hs].
  rewrite !count_dyn_app, !sample_times_app, !length_app, Hc, Hs.
  unfold lift, trace_of. cbn [fst]. cbn. repeat split; try lia.
  destruct n_step; [|lia]. rewrite result_of_lift in Hsz.
  unfold RK_step_sizes, pydiv in Hsz. cbn [INR] in Hsz.
  destruct (Req_dec_T 0 0); [discriminate|contradiction].
Qed.

Lemma explicit_integrator_cost_witness :
  let tr := trace_of (RK_function RK8 {| segments := []; nbDof := 0; nbQuat := 0 |}
                        zero_ode 0 CONSTANT 0 1 3 [2] [1; 2] [[5]] [7]) in
  count_dyn tr = (scheme_stages RK8 * 3)%nat
  /\ length (sample_times tr) = (scheme_stages RK8 * 3)%nat
  /\ (1 <= 3)%nat.
Proof.
  apply (explicit_integrator_cost RK8 {| segments := []; nbDof := 0; nbQuat := 0 |}
           zero_ode 0 CONSTANT 0 1 3 [2] [1; 2] [[5]] [7]
           ([1; 2], replicate (3 + 1) [1; 2])).
  rewrite RK_function_dxdt by (try reflexivity; lia).
  apply RK_dxdt_fixed; [reflexivity|].
  intros t x. apply scheme_zero.
  - intros y u' p'. reflexivity.
  - intros t'. exists [[5]]. reflexivity.
Defined.

(** * Properties of the Ipopt interface *)


Lemma substring_0_0 s : String.substring 0 0 s = "".
Proof. destruct s; reflexivity. Qed.

Lemma ipopt_key_namespace key : ipopt_namespace (ipopt_key key).
Proof.
  unfold ipopt_namespace, ipopt_key.
  destruct (decide (String.substring 0 6 key <> "ipopt.")) as [H|H].
  - simpl. rewrite substring_0_0. reflexivity.
  - destruct (decide (String.substring 0 6 key = "ipopt.")); [assumption|contradiction].
Qed.

Lemma ipopt_key_idempotent key : ipopt_key (ipopt_key key) = ipopt_key key.
Proof.
  pose proof (ipopt_key_namespace key) as H. unfold ipopt_namespace in H.
  unfold ipopt_key at 1. rewrite H.
  destruct (decide ("ipopt." <> "ipopt.")); [contradiction|reflexivity].
Qed.

Lemma configure_loop_other so : forall options k,
  (forall key v, (key, v) ∈ so -> ipopt_key key <> k) ->
  configure_loop so options !! k = options !! k.
Proof.
  induction so as [|[key v] so IH]; intros options k H; [reflexivity|].
  cbn [configure_loop]. rewrite IH.
  - apply lookup_insert_ne. apply (H key v). apply elem_of_cons. left. reflexivity.
  - intros key' v' Hin. apply (H key' v'). apply elem_of_cons. right. exact Hin.
Qed.

Lemma configure_loop_last before key v after options :
  (forall key' v', (key', v') ∈ after -> ipopt_key key' <> ipopt_key key) ->
  configure_loop (before ++ (key, v) :: after) options !! ipopt_key key = Some v.
Proof.
  revert options. induction before as [|[k0 v0] before IH]; intros options H.
  - cbn [app configure_loop]. rewrite configure_loop_other by exact H.
    apply lookup_insert_eq.
  - cbn [app configure_loop]. apply IH. exact H.
Qed.

Lemma configure_loop_dom so : forall options k,
  is_Some (configure_loop so options !! k) ->
  is_Some (options !! k) \/ ipopt_namespace k.
Proof.
  induction so as [|[key v] so IH]; intros options k H; [left; exact H|].
  cbn [configure_loop] in H. destruct (IH _ _ H) as [H'|H']; [|right; exact H'].
  destruct (decide (ipopt_key key = k)) as [<-|Hne].
  - right. apply ipopt_key_namespace.
  - left. rewrite lookup_insert_ne in H' by exact Hne. exact H'.
Qed.

Lemma configure_loop_keeps so : forall options k,
  is_Some (options !! k) -> is_Some (configure_loop so options !! k).
Proof.
  induction so as [|[key v] so IH]; intros options k H; [exact H|].
  cbn [configure_loop]. apply IH.
  destruct (decide (ipopt_key key = k)) as [<-|Hne].
  - rewrite lookup_insert_eq. eexists. reflexivity.
  - rewrite lookup_insert_ne by exact Hne. exact H.
Qed.

Lemma default_options_namespace k :
  is_Some (default_options !! k) -> ipopt_namespace k.
Proof.
  unfold default_options. intros H.
  repeat (apply lookup_insert_is_Some in H; destruct H as [<-|[_ H]]; [reflexivity|]).
  rewrite lookup_empty in H. destruct H as [? H]. discriminate.
Qed.

(** X13: the options that [configure] leaves: a common option (the
    callback of the online graphics) wins over everything; otherwise the
    last item of [solver_options] whose key, prefixed when it is not, names
    the option gives its value, so that [tol] and [ipopt.tol] name one
    option; otherwise the default value stays. *)
Theorem configure_priorities
    (self : IpoptInterface) (solver_options : list (string * OptionValue)) :
  let opts' := opts (configure self (Some solver_options)) in
  (forall k v, options_common self !! k = Some v -> opts' !! k = Some v)
  /\ (forall before key v after,
        solver_options = before ++ (key, v) :: after ->
        (forall key' v', (key', v') ∈ after -> ipopt_key key' <> ipopt_key key) ->
        options_common self !! ipopt_key key = None ->
        opts' !! ipopt_key key = Some v)
  /\ (forall k,
        (forall key v, (key, v) ∈ solver_options -> ipopt_key key <> k) ->
        options_common self !! k = None ->
        opts' !! k = default_options !! k).
Proof.
  intros opts'. unfold opts', configure, configure_with. cbn [opts].
  split; [|split].
  - intros k v H. apply lookup_union_Some_l. exact H.
  - intros before key v after -> Hafter Hc.
    rewrite lookup_union_r by exact Hc. apply configure_loop_last. exact Hafter.
  - intros k Hso Hc. rewrite lookup_union_r by exact Hc.
    apply configure_loop_other. exact Hso.
Qed.

(** X14: when [configure] sets the options, every option that is not a
    common one is named in the namespace of Ipopt: its name starts with
    the prefix. *)
Theorem configure_namespace
    (self : IpoptInterface) (solver_options : option (list (string * OptionValue))) (k : string) :
  opts self = ∅ \/ solver_options <> None ->
  is_Some (opts (configure self solver_options) !! k) ->
  is_Some (options_common self !! k) \/ ipopt_namespace k.
Proof.
  intros Hcase H.
  assert (Hwith : forall so, is_Some (opts (configure_with self so) !! k) ->
            is_Some (options_common self !! k) \/ ipopt_namespace k).
  { intros so Hs. unfold configure_with in Hs. cbn [opts] in Hs.
    apply lookup_union_is_Some in Hs. destruct Hs as [Hs|Hs]; [left; exact Hs|].
    right. destruct (configure_loop_dom _ _ _ Hs) as [Hd|Hd]; [|exact Hd].
    apply default_options_namespace, Hd. }
  destruct solver_options as [so|]; cbn [configure] in H; [apply (Hwith so H)|].
  destruct (decide (opts self <> ∅)) as [Hne|_]; [|apply (Hwith [] H)].
  destruct Hcase as [He|Hn]; [contradiction|]. contradiction.
Qed.

Lemma configure_namespace_witness :
  is_Some (options_common IpoptInterface_init !! "ipopt.tol") \/ ipopt_namespace "ipopt.tol".
Proof.
  apply (configure_namespace IpoptInterface_init (Some [("tol", OptFloat 1)]) "ipopt.tol").
  - left. reflexivity.
  - exists (OptFloat 1). vm_compute. reflexivity.
Defined.

Lemma configure_with_nonempty self so : opts (configure_with self so) <> ∅.
Proof.
  intros H. apply (f_equal (fun m => m !! "ipopt.tol")) in H.
  rewrite lookup_empty in H. unfold configure_with in H. cbn [opts] in H.
  apply lookup_union_None in H. destruct H as [_ H].
  destruct (configure_loop_keeps so default_options "ipopt.tol") as [v Hv].
  - eexists. reflexivity.
  - rewrite Hv in H. discriminate.
Qed.

Lemma configure_nonempty self so : opts (configure self so) <> ∅.
Proof.
  destruct so as [so|]; cbn [configure]; [apply configure_with_nonempty|].
  destruct (decide (opts self <> ∅)) as [H|H]; [exact H|apply configure_with_nonempty].
Qed.

Lemma configure_None_nonempty self : opts self <> ∅ -> configure self None = self.
Proof.
  intros H. cbn [configure]. destruct (decide (opts self <> ∅)); [reflexivity|contradiction].
Qed.

(** X15: once configured, the options are never empty, and [configure]
    without options leaves the interface as it is, even when the online
    graphics were declared in between: their callback is stored in the
    common options but does not reach the options.  On a fresh interface
    it does. *)
Theorem configure_none_keeps_options
    (self : IpoptInterface) (solver_options : option (list (string * OptionValue)))
    (platform : string) (ocp : nat) :
  let self1 := configure self solver_options in
  opts self1 <> ∅
  /\ configure self1 None = self1
  /\ (forall self2,
        online_optim platform self1 ocp = Ok self2 ->
        options_common self2 !! "iteration_callback" = Some (OptCallback ocp)
        /\ configure self2 None = self2
        /\ opts self2 = opts self1)
  /\ (forall self2,
        online_optim platform IpoptInterface_init ocp = Ok self2 ->
        opts (configure self2 None) !! "iteration_callback" = Some (OptCallback ocp)).
Proof.
  intros self1. pose proof (configure_nonempty self solver_options) as Hne. fold self1 in Hne.
  split; [exact Hne|]. split; [apply configure_None_nonempty, Hne|]. split.
  - intros self2 H. unfold online_optim in H.
    destruct (decide (platform = "win32")); [discriminate|]. inversion H. clear H.
    cbn [options_common opts]. split; [apply lookup_insert_eq|]. split; [|reflexivity].
    apply configure_None_nonempty. exact Hne.
  - intros self2 H. unfold online_optim in H.
    destruct (decide (platform = "win32")); [discriminate|]. inversion H. clear H.
    reflexivity.
Qed.

Lemma configure_priorities_witness :
  opts (configure IpoptInterface_init (Some [("tol", OptFloat 1); ("ipopt.tol", OptFloat 2)]))
    !! ipopt_key "ipopt.tol" = Some (OptFloat 2).
Proof.
  apply (proj1 (proj2 (configure_priorities IpoptInterface_init
                         [("tol", OptFloat 1); ("ipopt.tol", OptFloat 2)]))
           [("tol", OptFloat 1)] "ipopt.tol" (OptFloat 2) []).
  - reflexivity.
  - intros key' v' H. apply elem_of_nil in H. contradiction.
  - reflexivity.
Defined.

Lemma configure_none_keeps_options_witness :
  options_common sample_interface !! "iteration_callback" = Some (OptCallback 7)
  /\ configure sample_interface None = sample_interface
  /\ opts sample_interface = opts (configure IpoptInterface_init None).
Proof.
  apply (proj1 (proj2 (proj2 (configure_none_keeps_options
                                IpoptInterface_init None "linux" 7)))
           sample_interface).
  vm_compute. reflexivity.
Defined.

(** * Properties of the plots *)


Section AddPlotProperties.

Variables CustomPlot Callable Any : Type.
Variable CustomPlot_init : Callable -> gmap string Any -> CustomPlot.
Variable set_combine_to : CustomPlot -> string -> CustomPlot.

Local Abbreviation add_plot := (add_plot CustomPlot_init set_combine_to).


Lemma numbered_plot_name_inj fig_name phase : Inj (=) (=) (numbered_plot_name fig_name phase).
Proof.
  intros c c' H. unfold numbered_plot_name in H.
  apply (inj (String.app fig_name)) in H.
  apply (inj (String.app "_phase")) in H.
  apply (inj (String.app (pretty phase))) in H.
  apply (inj (String.app "_")) in H.
  apply (inj pretty) in H. exact H.
Qed.

Lemma unique_plot_name_None fuel : forall (plot : gmap string CustomPlot) fig_name phase cmp,
  unique_plot_name fuel plot fig_name phase cmp = None ->
  forall c, (cmp <= c < cmp + fuel)%nat ->
    is_Some (plot !! numbered_plot_name fig_name phase c).
Proof.
  induction fuel as [|fuel IH]; intros plot fig_name phase cmp H c Hc; [lia|].
  cbn [unique_plot_name] in H.
  destruct (plot !! numbered_plot_name fig_name phase cmp) as [v|] eqn:E; [|discriminate].
  destruct (decide (c = cmp)) as [->|Hne]; [rewrite E; eexists; reflexivity|].
  apply (IH plot fig_name phase (cmp + 1)%nat H). lia.
Qed.

Lemma unique_plot_name_Some fuel : forall (plot : gmap string CustomPlot) fig_name phase cmp name,
  unique_plot_name fuel plot fig_name phase cmp = Some name ->
  plot !! name = None
  /\ exists c, (cmp <= c)%nat /\ name = numbered_plot_name fig_name phase c
     /\ forall c', (cmp <= c' < c)%nat ->
          is_Some (plot !! numbered_plot_name fig_name phase c').
Proof.
  induction fuel as [|fuel IH]; intros plot fig_name phase cmp name H; [discriminate|].
  cbn [unique_plot_name] in H.
  destruct (plot !! numbered_plot_name fig_name phase cmp) as [v|] eqn:E.
  - destruct (IH _ _ _ _ _ H) as (Hn & c & Hc & -> & Hbefore).
    split; [exact Hn|]. exists c. split; [lia|]. split; [reflexivity|].
    intros c' Hc'. destruct (decide (c' = cmp)) as [->|Hne]; [rewrite E; eexists; reflexivity|].
    apply Hbefore. lia.
  - inversion H; subst. split; [exact E|]. exists cmp. split; [lia|]. split; [reflexivity|].
    intros c' Hc'. lia.
Qed.

(** The search always ends: the names of the counters 0 to [size plot]
    are distinct, so that they are not all keys of [plot]. *)
Lemma unique_plot_name_found (plot : gmap string CustomPlot) fig_name phase :
  is_Some (unique_plot_name (S (size plot)) plot fig_name phase 0).
Proof.
  destruct (unique_plot_name (S (size plot)) plot fig_name phase 0) as [name|] eqn:E;
    [eexists; reflexivity|].
  exfalso. pose proof (unique_plot_name_None _ _ _ _ _ E) as Hall.
  set (names := numbered_plot_name fig_name phase <$> seq 0 (S (size plot))).
  assert (Hnd : NoDup names).
  { apply (NoDup_fmap_2 _). apply NoDup_seq. }
  assert (Hsub : (list_to_set names : gset string) ⊆ dom plot).
  { intros s Hs. apply elem_of_list_to_set in Hs. apply list_elem_of_fmap in Hs.
    destruct Hs as (c & -> & Hc). apply elem_of_seq in Hc.
    apply elem_of_dom. apply Hall. lia. }
  apply subseteq_size in Hsub.
  rewrite size_list_to_set, size_dom in Hsub by exact Hnd.
  unfold names in Hsub. rewrite length_fmap, length_seq in Hsub. lia.
Qed.

Lemma add_plot_phase (nlp : list (gmap string CustomPlot)) (phase : Z) :
  let phase' := if Nat.eqb (length nlp) 1 then Ok 0%Z
                else if (phase <? 0)%Z then Raise RuntimeError else Ok phase in
  (length nlp = 1%nat \/ (0 <= phase < Z.of_nat (length nlp))%Z ->
   exists ph i plot,
     (phase <~ phase' ;; i <~ py_index (length nlp) phase ;;
      plot <~ lookup_or_raise nlp i ;; Ok (phase, i, plot)) = Ok (ph, i, plot)
     /\ nlp !! i = Some plot)
  /\ (~ (length nlp = 1%nat \/ (0 <= phase < Z.of_nat (length nlp))%Z) ->
      exists e,
        (phase <~ phase' ;; i <~ py_index (length nlp) phase ;;
         plot <~ lookup_or_raise nlp i ;; Ok (phase, i, plot)) = Raise e).
Proof.
  intros phase'. unfold phase'. split.
  - intros H. destruct (Nat.eqb_spec (length nlp) 1) as [E|E].
    + destruct nlp as [|plot [|]]; try discriminate.
      exists 0%Z, 0%nat, plot. split; reflexivity.
    + destruct H as [H|H]; [contradiction|].
      destruct (Z.ltb_spec phase 0) as [Hneg|_]; [lia|]. cbn [rbind].
      assert (Hi : py_index (length nlp) phase = Ok (Z.to_nat phase)).
      { rewrite <- (Z2Nat.id phase) at 1 by lia. apply py_index_nat. lia. }
      rewrite Hi. cbn [rbind].
      destruct (lookup_lt_is_Some_2 nlp (Z.to_nat phase)) as [plot Hp]; [lia|].
      rewrite (lookup_or_raise_Some _ _ _ Hp). cbn [rbind].
      exists phase, (Z.to_nat phase), plot. split; [reflexivity|exact Hp].
  - intros H. destruct (Nat.eqb_spec (length nlp) 1) as [E|E]; [tauto|].
    destruct (Z.ltb_spec phase 0) as [Hneg|Hpos]; [eexists; reflexivity|].
    cbn [rbind]. unfold py_index.
    destruct (Z.leb_spec 0 phase) as [_|?]; [|lia].
    destruct (Z.ltb_spec phase (Z.of_nat (length nlp))) as [?|_]; [lia|].
    eexists. reflexivity.
Qed.

(** X16: [add_plot] always returns: the search of a unique name ends.  It
    stores the plot exactly when [combine_to] is not among the parameters
    and the program has one phase, the phase given being then ignored, or
    the phase given is one of its phases; otherwise it raises. *)
Theorem add_plot_returns
    (nlp : list (gmap string CustomPlot)) (fig_name : string)
    (update_function : Callable) (phase : Z) (parameters : gmap string Any) :
  exists r,
    add_plot nlp fig_name update_function phase parameters = Some r
    /\ ((exists nlp', r = Ok nlp')
        <-> parameters !! "combine_to" = None
            /\ (length nlp = 1%nat \/ (0 <= phase < Z.of_nat (length nlp))%Z)).
Proof.
  unfold add_plot.
  destruct (parameters !! "combine_to") as [v|] eqn:Hc.
  { eexists. split; [reflexivity|]. split; [intros [? H]; discriminate|intros [H _]; discriminate]. }
  destruct (add_plot_phase nlp phase) as [Hok Hraise]. cbv zeta in Hok, Hraise.
  destruct (decide (length nlp = 1%nat \/ (0 <= phase < Z.of_nat (length nlp))%Z)) as [H|H].
  - destruct (Hok H) as (ph & i & plot & -> & Hp).
    destruct (plot !! fig_name) as [old|].
    + destruct (decide (fig_name <> "")) as [Hne|He].
      * destruct (unique_plot_name_found plot fig_name ph) as [name ->].
        eexists. split; [reflexivity|]. split; [intros _; tauto|intros _; eexists; reflexivity].
      * eexists. split; [reflexivity|]. split; [intros _; tauto|intros _; eexists; reflexivity].
    + eexists. split; [reflexivity|]. split; [intros _; tauto|intros _; eexists; reflexivity].
  - destruct (Hraise H) as [e ->].
    eexists. split; [reflexivity|]. split; [intros [? H']; discriminate|intros [_ H']; contradiction].
Qed.

Lemma add_plot_inv (nlp nlp' : list (gmap string CustomPlot)) fig_name update_function
    phase parameters :
  add_plot nlp fig_name update_function phase parameters = Some (Ok nlp') ->
  let ph := if Nat.eqb (length nlp) 1 then 0%Z else phase in
  let new_plot := CustomPlot_init update_function parameters in
  exists plot plot_name custom_plot,
    nlp !! Z.to_nat ph = Some plot
    /\ nlp' = <[Z.to_nat ph := <[plot_name := custom_plot]> plot]> nlp
    /\ match plot !! fig_name with
       | None => plot_name = fig_name /\ custom_plot = new_plot
       | Some _ =>
           custom_plot = set_combine_to new_plot fig_name
           /\ if decide (fig_name <> "") then
                unique_plot_name (S (size plot)) plot fig_name ph 0 = Some plot_name
              else plot_name = "no_name"
       end.
Proof.
  intros H ph new_plot. unfold add_plot in H.
  destruct (parameters !! "combine_to"); [discriminate|].
  assert (Hph : (if Nat.eqb (length nlp) 1 then Ok 0%Z
                 else if (phase <? 0)%Z then Raise RuntimeError else Ok phase)
                = Ok ph \/ exists e,
                (if Nat.eqb (length nlp) 1 then Ok 0%Z
                 else if (phase <? 0)%Z then Raise RuntimeError else Ok phase)
                = Raise e).
  { unfold ph. destruct (Nat.eqb (length nlp) 1); [left; reflexivity|].
    destruct (phase <? 0)%Z; [right; eexists; reflexivity|left; reflexivity]. }
  destruct Hph as [Hph|[e Hph]]; rewrite Hph in H; cbn [rbind] in H; [|discriminate].
  assert (Hpos : (0 <= ph)%Z).
  { unfold ph in *. destruct (Nat.eqb (length nlp) 1); [lia|].
    destruct (Z.ltb_spec phase 0); [discriminate|lia]. }
  unfold py_index in H. destruct (Z.leb_spec 0 ph) as [_|?]; [|lia].
  destruct (ph <? Z.of_nat (length nlp))%Z; cbn [rbind] in H; [|discriminate].
  unfold lookup_or_raise in H.
  destruct (nlp !! Z.to_nat ph) as [plot|] eqn:Hp; cbn [rbind] in H; [|discriminate].
  destruct (plot !! fig_name) as [old|] eqn:Hf.
  - destruct (decide (fig_name <> "")) as [Hne|He].
    + destruct (unique_plot_name (S (size plot)) plot fig_name ph 0) as [name|] eqn:Hu;
        [|discriminate].
      inversion H. exists plot, name, (set_combine_to new_plot fig_name).
      rewrite Hf. destruct (decide (fig_name <> "")); [|contradiction]. auto.
    + inversion H. exists plot, "no_name", (set_combine_to new_plot fig_name).
      rewrite Hf. destruct (decide (fig_name <> "")); [contradiction|]. auto.
  - inversion H. exists plot, fig_name, new_plot. rewrite Hf. auto.
Qed.

(** X17: with a name that is not empty, [add_plot] never replaces a plot:
    the new plot is stored under a key that was free, the name itself or a
    numbered one, every plot of every phase stays under its key, and a plot
    that takes a numbered key is combined to the name. *)
Theorem add_plot_keeps_plots
    (nlp nlp' : list (gmap string CustomPlot)) (fig_name : string)
    (update_function : Callable) (phase : Z) (parameters : gmap string Any) :
  fig_name <> "" ->
  add_plot nlp fig_name update_function phase parameters = Some (Ok nlp') ->
  length nlp' = length nlp
  /\ (forall j plot k v,
        nlp !! j = Some plot -> plot !! k = Some v ->
        exists plot', nlp' !! j = Some plot' /\ plot' !! k = Some v)
  /\ exists i plot plot_name custom_plot,
       nlp !! i = Some plot /\ plot !! plot_name = None
       /\ nlp' = <[i := <[plot_name := custom_plot]> plot]> nlp
       /\ (plot !! fig_name = None ->
           plot_name = fig_name /\ custom_plot = CustomPlot_init update_function parameters)
       /\ (is_Some (plot !! fig_name) ->
           custom_plot
           = set_combine_to (CustomPlot_init update_function parameters) fig_name).
Proof.
  intros Hne H. destruct (add_plot_inv _ _ _ _ _ _ H) as (plot & name & cp & Hp & -> & Hcase).
  cbv zeta in Hcase.
  set (i := Z.to_nat (if Nat.eqb (length nlp) 1 then 0%Z else phase)) in *.
  assert (Hfresh : plot !! name = None).
  { destruct (plot !! fig_name) as [old|] eqn:Hf.
    - destruct Hcase as [_ Hcase]. destruct (decide (fig_name <> "")); [|contradiction].
      apply (unique_plot_name_Some _ _ _ _ _ _ Hcase).
    - destruct Hcase as [-> _]. exact Hf. }
  split; [apply length_insert|]. split.
  - intros j plot_j k v Hj Hk. destruct (decide (j = i)) as [->|Hji].
    + assert (plot_j = plot) by congruence. subst plot_j.
      exists (<[name := cp]> plot). split.
      * apply list_lookup_insert_eq. apply lookup_lt_Some in Hp. exact Hp.
      * rewrite lookup_insert_ne; [exact Hk|]. intros ->. congruence.
    + exists plot_j. split; [|exact Hk]. rewrite list_lookup_insert_ne by auto. exact Hj.
  - exists i, plot, name, cp. split; [exact Hp|]. split; [exact Hfresh|].
    split; [reflexivity|]. split.
    + intros Hf. rewrite Hf in Hcase. exact Hcase.
    + intros [old Hf]. rewrite Hf in Hcase. apply Hcase.
Qed.

(** X18: with the empty name, once a plot of empty name is stored, the
    next one goes under the key [no_name] and replaces the plot that key
    may hold: the number of plots of the phase is then unchanged. *)
Theorem add_plot_empty_name
    (nlp nlp' : list (gmap string CustomPlot))
    (update_function : Callable) (phase : Z) (parameters : gmap string Any) :
  add_plot nlp "" update_function phase parameters = Some (Ok nlp') ->
  exists i plot,
    nlp !! i = Some plot
    /\ (plot !! "" = None ->
        nlp' = <[i := <["" := CustomPlot_init update_function parameters]> plot]> nlp)
    /\ (is_Some (plot !! "") ->
        nlp' = <[i := <["no_name" := set_combine_to
                                       (CustomPlot_init update_function parameters) ""]> plot]>
                 nlp
        /\ forall old, plot !! "no_name" = Some old ->
             forall plot', nlp' !! i = Some plot' ->
               plot' !! "no_name"
               = Some (set_combine_to (CustomPlot_init update_function parameters) "")
               /\ size plot' = size plot).
Proof.
  intros H. destruct (add_plot_inv _ _ _ _ _ _ H) as (plot & name & cp & Hp & -> & Hcase).
  cbv zeta in Hcase.
  set (i := Z.to_nat (if Nat.eqb (length nlp) 1 then 0%Z else phase)) in *.
  exists i, plot. split; [exact Hp|]. split.
  - intros Hf. rewrite Hf in Hcase. destruct Hcase as [-> ->]. reflexivity.
  - intros [old Hf]. rewrite Hf in Hcase. destruct Hcase as [-> Hname].
    destruct (decide ("" <> "")) as [Hne|_]; [contradiction|]. subst name.
    split; [reflexivity|]. intros old' Hold plot' Hp'.
    rewrite list_lookup_insert_eq in Hp' by (apply lookup_lt_Some in Hp; exact Hp).
    injection Hp' as <-. split; [apply lookup_insert_eq|].
    rewrite <- !(size_dom (D := gset string)). f_equal.
    rewrite dom_insert_L. apply elem_of_dom_2 in Hold.
    apply subseteq_union_1_L. apply singleton_subseteq_l. exact Hold.
Qed.

End AddPlotProperties.

Lemma add_plot_returns_witness :
  exists r,
    add_plot (fun f (_ : gmap string nat) => (f, None)) (fun cp s => (fst cp, Some s))
      sample_plots "q" 1%nat (-1) ∅ = Some r
    /\ ((exists nlp', r = Ok nlp')
        <-> (∅ : gmap string nat) !! "combine_to" = None
            /\ (length sample_plots = 1%nat
                \/ (0 <= -1 < Z.of_nat (length sample_plots))%Z)).
Proof.
  apply (add_plot_returns (nat * option string) nat nat).
Defined.

Lemma add_plot_keeps_plots_witness :
  length sample_plots_added = length sample_plots.
Proof.
  apply (proj1 (add_plot_keeps_plots (nat * option string) nat nat
                  (fun f _ => (f, None)) (fun cp s => (fst cp, Some s))
                  sample_plots sample_plots_added "q" 1%nat (-1) ∅
                  ltac:(discriminate) ltac:(vm_compute; reflexivity))).
Defined.

Lemma add_plot_empty_name_witness :
  exists i plot,
    unnamed_plots !! i = Some plot
    /\ (plot !! "" = None ->
        unnamed_plots_added = <[i := <["" := (2%nat, None)]> plot]> unnamed_plots)
    /\ (is_Some (plot !! "") ->
        unnamed_plots_added
        = <[i := <["no_name" := (2%nat, Some "")]> plot]> unnamed_plots
        /\ forall old, plot !! "no_name" = Some old ->
             forall plot' : gmap string (nat * option string),
               unnamed_plots_added !! i = Some plot' ->
               plot' !! "no_name" = Some (2%nat, Some "") /\ size plot' = size plot).
Proof.
  apply (add_plot_empty_name (nat * option string) nat nat
           (fun f _ => (f, None)) (fun cp s => (fst cp, Some s))
           unnamed_plots unnamed_plots_added 2%nat 0 ∅).
  vm_compute. reflexivity.
Defined.

(** * Properties of the time of the phases *)


Section DefineTimeProperties.

Variable is_constraint_function : PenaltyType -> bool.

Local Abbreviation time_penalty := (time_penalty is_constraint_function).
Local Abbreviation phase_loop := (phase_loop is_constraint_function).
Local Abbreviation phases_loop := (phases_loop is_constraint_function).
Local Abbreviation penalty_time_min := (penalty_time_min is_constraint_function).
Local Abbreviation penalty_time_max := (penalty_time_max is_constraint_function).

Local Abbreviation found_step := (found_step is_constraint_function).

Lemma time_penalty_false i pen st t_i :
  has_penalty st !! i = Some false -> phase_time st !! i = Some t_i ->
  time_penalty i pen st = Ok (found_step st (i, pen)).
Proof.
  intros Hf Ht. unfold time_penalty, lookup_or_raise, found_step.
  rewrite Hf. cbn [rbind fst snd]. rewrite Ht. reflexivity.
Qed.

Lemma time_penalty_true i pen st :
  has_penalty st !! i = Some true -> time_penalty i pen st = Raise RuntimeError.
Proof. intros Hf. unfold time_penalty, lookup_or_raise. rewrite Hf. reflexivity. Qed.

Lemma phase_loop_declared i pens : forall st,
  has_penalty st !! i = Some true ->
  phase_loop i pens st
  = match time_penalties pens with [] => Ok st | _ :: _ => Raise RuntimeError end.
Proof.
  induction pens as [|[pen|] pens IH]; intros st Hf; cbn [phase_loop]; [reflexivity| |].
  - unfold time_penalties. cbn [omap list_omap].
    destruct (is_time_penalty (penalty_type pen)); [|apply IH, Hf].
    rewrite time_penalty_true by exact Hf. reflexivity.
  - apply IH, Hf.
Qed.

Lemma phase_loop_free i pens : forall st t_i,
  has_penalty st !! i = Some false -> phase_time st !! i = Some t_i ->
  phase_loop i pens st
  = match time_penalties pens with
    | [] => Ok st
    | [pen] => Ok (found_step st (i, pen))
    | _ :: _ :: _ => Raise RuntimeError
    end.
Proof.
  induction pens as [|[pen|] pens IH]; intros st t_i Hf Ht; cbn [phase_loop]; [reflexivity| |].
  - unfold time_penalties. cbn [omap list_omap].
    destruct (is_time_penalty (penalty_type pen)); [|apply (IH _ _ Hf Ht)].
    rewrite (time_penalty_false _ _ _ _ Hf Ht). cbn [rbind].
    rewrite phase_loop_declared.
    + fold (time_penalties pens). destruct (time_penalties pens); reflexivity.
    + cbn [found_step has_penalty fst]. apply list_lookup_insert_eq.
      apply lookup_lt_Some in Hf. exact Hf.
  - apply (IH _ _ Hf Ht).
Qed.

Lemma discovered_ge l : forall i ip, ip ∈ discovered i l -> (i <= fst ip)%nat.
Proof.
  induction l as [|pens l IH]; intros i ip H; cbn [discovered] in H.
  - apply elem_of_nil in H. contradiction.
  - apply elem_of_app in H. destruct H as [H|H].
    + apply list_elem_of_fmap in H. destruct H as (p & -> & _). cbn. lia.
    + apply IH in H. lia.
Qed.

Lemma found_step_lengths st ip :
  length (has_penalty (found_step st ip)) = length (has_penalty st)
  /\ length (phase_time (found_step st ip)) = length (phase_time st).
Proof. unfold found_step. cbn. rewrite !length_insert. split; reflexivity. Qed.

(** The loop over the phases, when it returns. *)
Lemma phases_loop_ok l : forall i st,
  (i + length l <= length (has_penalty st))%nat ->
  (i + length l <= length (phase_time st))%nat ->
  (forall j pens, l !! j = Some pens ->
     (length (time_penalties pens) <= 1)%nat
     /\ (time_penalties pens <> [] -> has_penalty st !! (i + j)%nat = Some false)) ->
  phases_loop i l st = Ok (foldl found_step st (discovered i l)).
Proof.
  induction l as [|pens l IH]; intros i st Hh Hp Hall; [reflexivity|].
  cbn [phases_loop discovered length] in *.
  destruct (Hall 0%nat pens eq_refl) as [Hlen Hfree]. rewrite Nat.add_0_r in Hfree.
  assert (Hrest : forall st1,
            length (has_penalty st1) = length (has_penalty st) ->
            length (phase_time st1) = length (phase_time st) ->
            (forall k, (i < k)%nat -> has_penalty st1 !! k = has_penalty st !! k) ->
            phases_loop (i + 1) l st1 = Ok (foldl found_step st1 (discovered (i + 1) l))).
  { intros st1 L1 L2 Hsame. apply IH; [lia|lia|].
    intros j pens' Hj. destruct (Hall (S j) pens' Hj) as [Hl' Hf'].
    split; [exact Hl'|]. intros Hne. rewrite Hsame by lia.
    replace (i + 1 + j)%nat with (i + S j)%nat by lia. apply Hf', Hne. }
  destruct (lookup_lt_is_Some_2 (phase_time st) i) as [t_i Ht]; [lia|].
  destruct (time_penalties pens) as [|pen [|pen' tps]] eqn:Etp; [| |simpl in Hlen; lia].
  - destruct (lookup_lt_is_Some_2 (has_penalty st) i) as [[|] Hf]; [lia| |].
    + rewrite phase_loop_declared, Etp by exact Hf. cbn [rbind map app].
      apply Hrest; reflexivity.
    + rewrite (phase_loop_free _ _ _ _ Hf Ht), Etp. cbn [rbind map app].
      apply Hrest; reflexivity.
  - rewrite (phase_loop_free _ _ _ t_i (Hfree ltac:(discriminate)) Ht), Etp.
    cbn [rbind map app foldl]. destruct (found_step_lengths st (i, pen)) as [L1 L2].
    apply Hrest; [exact L1|exact L2|].
    intros k Hk. cbn [found_step has_penalty fst]. apply list_lookup_insert_ne. lia.
Qed.

(** The loop over the phases, when a phase declares its time again. *)
Lemma phases_loop_fail l : forall i st,
  (i + length l <= length (has_penalty st))%nat ->
  (i + length l <= length (phase_time st))%nat ->
  (exists j pens, l !! j = Some pens
     /\ ((1 < length (time_penalties pens))%nat
         \/ (time_penalties pens <> [] /\ has_penalty st !! (i + j)%nat = Some true))) ->
  phases_loop i l st = Raise RuntimeError.
Proof.
  induction l as [|pens l IH]; intros i st Hh Hp (j & pens' & Hj & Hbad);
    [discriminate|].
  cbn [phases_loop length] in *.
  destruct (lookup_lt_is_Some_2 (phase_time st) i) as [t_i Ht]; [lia|].
  destruct (lookup_lt_is_Some_2 (has_penalty st) i) as [b Hf]; [lia|].
  assert (Hrest : forall st1,
            length (has_penalty st1) = length (has_penalty st) ->
            length (phase_time st1) = length (phase_time st) ->
            (forall k, (i < k)%nat -> has_penalty st1 !! k = has_penalty st !! k) ->
            j <> 0%nat ->
            phases_loop (i + 1) l st1 = Raise RuntimeError).
  { intros st1 L1 L2 Hsame Hj0. apply IH; [lia|lia|].
    destruct j as [|j]; [contradiction|]. exists j, pens'. split; [exact Hj|].
    destruct Hbad as [Hbad|[Hne Hbad]]; [left; exact Hbad|right].
    split; [exact Hne|]. rewrite Hsame by lia.
    replace (i + 1 + j)%nat with (i + S j)%nat by lia. exact Hbad. }
  destruct (decide (j = 0%nat)) as [->|Hj0].
  - injection Hj as ->. rewrite Nat.add_0_r in Hbad. destruct b.
    + rewrite phase_loop_declared by exact Hf.
      destruct (time_penalties pens') as [|pen tps]; [|reflexivity].
      destruct Hbad as [Hbad|[Hne _]]; [simpl in Hbad; lia|contradiction].
    + rewrite (phase_loop_free _ _ _ _ Hf Ht).
      destruct (time_penalties pens') as [|pen [|pen' tps]]; [| |reflexivity].
      * destruct Hbad as [Hbad|[Hne _]]; [simpl in Hbad; lia|contradiction].
      * destruct Hbad as [Hbad|[_ Hbad]]; [simpl in Hbad; lia|congruence].
  - destruct b.
    + rewrite phase_loop_declared by exact Hf.
      destruct (time_penalties pens) as [|pen tps]; [|reflexivity].
      cbn [rbind]. apply Hrest; auto.
    + rewrite (phase_loop_free _ _ _ _ Hf Ht).
      destruct (time_penalties pens) as [|pen [|pen' tps]]; [| |reflexivity].
      * cbn [rbind]. apply Hrest; auto.
      * cbn [rbind]. destruct (found_step_lengths st (i, pen)) as [L1 L2].
        apply Hrest; [exact L1|exact L2| |exact Hj0].
        intros k Hk. cbn [found_step has_penalty fst]. apply list_lookup_insert_ne. lia.
Qed.


Lemma phase_loop_none i pens : forall st,
  time_penalties pens = [] -> phase_loop i pens st = Ok st.
Proof.
  induction pens as [|[pen|] pens IH]; intros st H; cbn [phase_loop]; [reflexivity| |].
  - unfold time_penalties in H. cbn [omap list_omap] in H.
    destruct (is_time_penalty (penalty_type pen)); [discriminate|]. apply IH, H.
  - apply IH, H.
Qed.

Lemma phase_loop_first i pens : forall st st',
  time_penalties pens <> [] -> phase_loop i pens st = Ok st' ->
  has_penalty st !! i = Some false /\ is_Some (phase_time st !! i).
Proof.
  induction pens as [|[pen|] pens IH]; intros st st' Hne H; cbn [phase_loop] in H.
  - contradiction.
  - unfold time_penalties in Hne. cbn [omap list_omap] in Hne.
    destruct (is_time_penalty (penalty_type pen)); [|apply (IH _ _ Hne H)].
    unfold time_penalty, lookup_or_raise in H.
    destruct (has_penalty st !! i) as [[|]|]; cbn [rbind] in H; try discriminate.
    destruct (phase_time st !! i) as [t_i|]; cbn [rbind] in H; [|discriminate].
    split; [reflexivity|]. eexists. reflexivity.
  - apply (IH _ _ Hne H).
Qed.

(** One phase, when its loop returns: at most one of its penalties is a
    time penalty, and the phase had none before. *)
Lemma phase_loop_inv i pens st st' :
  phase_loop i pens st = Ok st' ->
  (time_penalties pens = [] /\ st' = st)
  \/ (exists pen, time_penalties pens = [pen]
        /\ has_penalty st !! i = Some false /\ is_Some (phase_time st !! i)
        /\ st' = found_step st (i, pen)).
Proof.
  intros H. destruct (time_penalties pens) as [|pen tps] eqn:Etp.
  - left. split; [reflexivity|]. rewrite phase_loop_none in H by exact Etp. congruence.
  - right. destruct (phase_loop_first i pens st st') as [Hf [t_i Ht]];
      [rewrite Etp; discriminate|exact H|].
    rewrite (phase_loop_free _ _ _ _ Hf Ht), Etp in H.
    destruct tps as [|pen' tps]; [|discriminate].
    exists pen. repeat split; try assumption; [eexists; exact Ht|congruence].
Qed.

Lemma phases_loop_inv l : forall i st st',
  phases_loop i l st = Ok st' ->
  st' = foldl found_step st (discovered i l)
  /\ NoDup (map fst (discovered i l))
  /\ forall k, k ∈ map fst (discovered i l) ->
       has_penalty st !! k = Some false /\ is_Some (phase_time st !! k).
Proof.
  induction l as [|pens l IH]; intros i st st' H; cbn [phases_loop discovered] in *.
  - inversion H. split; [reflexivity|]. split; [apply NoDup_nil_2|].
    intros k Hk. apply elem_of_nil in Hk. contradiction.
  - destruct (phase_loop i pens st) as [st1|e] eqn:E1; cbn [rbind] in H; [|discriminate].
    destruct (IH _ _ _ H) as (-> & Hnd & Hall).
    assert (Hge : forall k, k ∈ map fst (discovered (i + 1) l) -> (i < k)%nat).
    { intros k Hk. apply list_elem_of_fmap in Hk. destruct Hk as (ip & -> & Hip).
      apply discovered_ge in Hip. lia. }
    destruct (phase_loop_inv _ _ _ _ E1) as [[-> ->]|(pen & -> & Hf & Ht & ->)].
    + cbn [map app]. split; [reflexivity|]. split; [exact Hnd|exact Hall].
    + cbn [map app foldl fst]. split; [reflexivity|]. split.
      * apply NoDup_cons. split; [|exact Hnd]. intros Hk. apply Hge in Hk. lia.
      * intros k Hk. apply elem_of_cons in Hk. destruct Hk as [->|Hk]; [split; assumption|].
        destruct (Hall k Hk) as [Hf' Ht']. pose proof (Hge k Hk) as Hlt.
        cbn [found_step has_penalty phase_time fst] in Hf', Ht'.
        rewrite list_lookup_insert_ne in Hf' by lia.
        rewrite list_lookup_insert_ne in Ht' by lia. split; assumption.
Qed.

(** ** The lists after the time penalties [found] *)

Lemma foldl_found_step_bounds found : forall st,
  time_min (foldl found_step st found)
  = time_min st ++ map (fun ip => penalty_time_min (snd ip)) found
  /\ time_max (foldl found_step st found)
     = time_max st ++ map (fun ip => penalty_time_max (snd ip)) found.
Proof.
  induction found as [|ip found IH]; intros st; cbn [foldl map].
  - rewrite !app_nil_r. split; reflexivity.
  - destruct (IH (found_step st ip)) as [-> ->]. cbn [found_step time_min time_max].
    rewrite <- !app_assoc. split; reflexivity.
Qed.

Lemma foldl_found_step_lengths found : forall st,
  length (has_penalty (foldl found_step st found)) = length (has_penalty st)
  /\ length (phase_time (foldl found_step st found)) = length (phase_time st).
Proof.
  induction found as [|ip found IH]; intros st; cbn [foldl]; [split; reflexivity|].
  destruct (IH (found_step st ip)) as [-> ->]. apply found_step_lengths.
Qed.

Lemma foldl_found_step_lookup found : forall st i,
  (forall k, k ∈ map fst found ->
     (k < length (has_penalty st))%nat /\ (k < length (phase_time st))%nat) ->
  has_penalty (foldl found_step st found) !! i
  = (if bool_decide (i ∈ map fst found) then Some true else has_penalty st !! i)
  /\ phase_time (foldl found_step st found) !! i
     = (if bool_decide (i ∈ map fst found) then Some (TimeSymbol i) else phase_time st !! i).
Proof.
  induction found as [|[k pen] found IH]; intros st i Hin; cbn [foldl map fst].
  - split; reflexivity.
  - destruct (Hin k) as [Hk1 Hk2]; [apply elem_of_cons; left; reflexivity|].
    destruct (IH (found_step st (k, pen)) i) as [-> ->].
    { intros k' Hk'. destruct (found_step_lengths st (k, pen)) as [-> ->].
      apply Hin. apply elem_of_cons. right. exact Hk'. }
    cbn [found_step has_penalty phase_time fst].
    destruct (decide (i ∈ map fst found)) as [Hi|Hi].
    + rewrite !bool_decide_eq_true_2; [split; reflexivity| |exact Hi].
      apply elem_of_cons. right. exact Hi.
    + rewrite (bool_decide_eq_false_2 _ Hi).
      destruct (decide (i = k)) as [->|Hne].
      * rewrite bool_decide_eq_true_2 by (apply elem_of_cons; left; reflexivity).
        rewrite !list_lookup_insert_eq by assumption. split; reflexivity.
      * rewrite bool_decide_eq_false_2.
        -- rewrite !list_lookup_insert_ne by auto. split; reflexivity.
        -- intros Hc. apply elem_of_cons in Hc. destruct Hc; contradiction.
Qed.

Lemma foldl_found_step_guess found : forall st,
  NoDup (map fst found) ->
  initial_time_guess (foldl found_step st found)
  = initial_time_guess st
    ++ map (fun ip => default (TimeSymbol (fst ip)) (phase_time st !! fst ip)) found.
Proof.
  induction found as [|[k pen] found IH]; intros st Hnd; cbn [foldl map fst].
  - rewrite app_nil_r. reflexivity.
  - apply NoDup_cons in Hnd. destruct Hnd as [Hk Hnd].
    rewrite IH by exact Hnd. cbn [found_step initial_time_guess phase_time fst].
    rewrite <- app_assoc. cbn [app]. do 2 f_equal.
    apply map_ext_in. intros [k' pen'] Hin. cbn [fst].
    rewrite list_lookup_insert_ne; [reflexivity|].
    intros ->. apply Hk. apply list_elem_of_fmap. exists (k', pen'). split; [reflexivity|].
    apply list_elem_of_In. exact Hin.
Qed.


Local Abbreviation define_time_lists := (define_time_lists is_constraint_function).

Lemma define_time_lists_inv n_phases phase_time0 objective_functions constraints st :
  define_time_lists n_phases phase_time0 objective_functions constraints = Ok st ->
  let found := discovered 0 objective_functions ++ discovered 0 constraints in
  let st0 := {| initial_time_guess := []; phase_time := phase_time0;
                time_min := []; time_max := [];
                has_penalty := replicate n_phases false |} in
  st = foldl found_step st0 found
  /\ NoDup (map fst found)
  /\ forall k, k ∈ map fst found -> (k < n_phases)%nat /\ (k < length phase_time0)%nat.
Proof.
  intros H found st0. unfold define_time_lists, define_parameters_phase_time in H.
  fold st0 in H.
  destruct (phases_loop 0 objective_functions st0) as [st1|e] eqn:E1; cbn [rbind] in H;
    [|discriminate].
  destruct (phases_loop_inv _ _ _ _ E1) as (-> & Hnd1 & Hall1).
  replace {| initial_time_guess := initial_time_guess (foldl found_step st0 (discovered 0 objective_functions));
             phase_time := phase_time (foldl found_step st0 (discovered 0 objective_functions));
             time_min := time_min (foldl found_step st0 (discovered 0 objective_functions));
             time_max := time_max (foldl found_step st0 (discovered 0 objective_functions));
             has_penalty := has_penalty (foldl found_step st0 (discovered 0 objective_functions)) |}
    with (foldl found_step st0 (discovered 0 objective_functions)) in H
    by (destruct (foldl found_step st0 (discovered 0 objective_functions)); reflexivity).
  destruct (phases_loop_inv _ _ _ _ H) as (-> & Hnd2 & Hall2).
  assert (Hin1 : forall k, k ∈ map fst (discovered 0 objective_functions) ->
             (k < length (has_penalty st0))%nat /\ (k < length (phase_time st0))%nat).
  { intros k Hk. destruct (Hall1 k Hk) as [Hf Ht].
    apply lookup_lt_Some in Hf. apply lookup_lt_is_Some in Ht. split; assumption. }
  split; [unfold found; rewrite foldl_app; reflexivity|]. split.
  - unfold found. rewrite map_app. apply NoDup_app. split; [exact Hnd1|]. split; [|exact Hnd2].
    intros k Hk1 Hk2. destruct (Hall2 k Hk2) as [Hf _].
    destruct (foldl_found_step_lookup _ st0 k Hin1) as [Hh _].
    rewrite Hh, bool_decide_eq_true_2 in Hf by exact Hk1. discriminate.
  - intros k Hk. unfold found in Hk. rewrite map_app in Hk. apply elem_of_app in Hk.
    destruct (foldl_found_step_lengths (discovered 0 objective_functions) st0) as [L1 L2].
    cbn [st0 has_penalty phase_time] in *. rewrite length_replicate in *.
    destruct Hk as [Hk|Hk].
    + destruct (Hin1 k Hk) as [H1 H2]. split; assumption.
    + destruct (Hall2 k Hk) as [Hf Ht].
      apply lookup_lt_Some in Hf. apply lookup_lt_is_Some in Ht. split; lia.
Qed.

(** X19: when the two scans return, no phase has declared its time twice;
    the bounds and the initial guesses of the time parameters are listed in
    the order in which the time penalties are met, the objectives of all
    the phases before the constraints, which need not be the order of the
    phases; each guess is the time that the user gave for the phase; and
    exactly the phases met have their flag set and their time replaced by
    a symbol. *)
Theorem define_time_discovery_order
    (n_phases : nat) (phase_time0 : list PhaseTime)
    (objective_functions constraints : list (list (option Penalty))) (st : TimeLists) :
  define_time_lists n_phases phase_time0 objective_functions constraints = Ok st ->
  let found := discovered 0 objective_functions ++ discovered 0 constraints in
  NoDup (map fst found)
  /\ time_min st = map (fun ip => penalty_time_min (snd ip)) found
  /\ time_max st = map (fun ip => penalty_time_max (snd ip)) found
  /\ Forall2 (fun t_i ip => phase_time0 !! fst ip = Some t_i) (initial_time_guess st) found
  /\ (forall i, (i < n_phases)%nat ->
        has_penalty st !! i = Some (bool_decide (i ∈ map fst found)))
  /\ (forall i,
        phase_time st !! i
        = if bool_decide (i ∈ map fst found) then Some (TimeSymbol i) else phase_time0 !! i).
Proof.
  intros H found. destruct (define_time_lists_inv _ _ _ _ _ H) as (-> & Hnd & Hin).
  fold found in Hnd, Hin |- *.
  set (st0 := {| initial_time_guess := []; phase_time := phase_time0;
                 time_min := []; time_max := [];
                 has_penalty := replicate n_phases false |}).
  assert (Hin' : forall k, k ∈ map fst found ->
             (k < length (has_penalty st0))%nat /\ (k < length (phase_time st0))%nat).
  { intros k Hk. cbn [st0 has_penalty phase_time]. rewrite length_replicate. apply Hin, Hk. }
  destruct (foldl_found_step_bounds found st0) as [Hmin Hmax].
  split; [exact Hnd|]. split; [exact Hmin|]. split; [exact Hmax|]. split; [|split].
  - rewrite foldl_found_step_guess by exact Hnd. cbn [st0 initial_time_guess phase_time app].
    apply Forall2_fmap_l. apply Forall2_same_length_lookup_2; [reflexivity|].
    intros j ip ip' Hj Hj'. assert (ip' = ip) by congruence. subst ip'.
    destruct (Hin (fst ip)) as [_ Hlt].
    { apply list_elem_of_fmap. exists ip. split; [reflexivity|].
      apply list_elem_of_lookup. exists j. exact Hj. }
    destruct (lookup_lt_is_Some_2 phase_time0 (fst ip) Hlt) as [t Ht].
    unfold compose. rewrite Ht. reflexivity.
  - intros i Hi. destruct (foldl_found_step_lookup found st0 i Hin') as [-> _].
    cbn [st0 has_penalty]. rewrite lookup_replicate_2 by exact Hi.
    destruct (bool_decide (i ∈ map fst found)); reflexivity.
  - intros i. destruct (foldl_found_step_lookup found st0 i Hin') as [_ ->]. reflexivity.
Qed.


Lemma discovered_elem l : forall i k,
  k ∈ map fst (discovered i l)
  <-> (i <= k)%nat /\ phase_penalties l (k - i) <> [].
Proof.
  unfold phase_penalties.
  induction l as [|pens l IH]; intros i k; cbn [discovered map].
  - split; [intros H; apply elem_of_nil in H; contradiction|].
    intros [_ H]. rewrite lookup_nil in H. contradiction.
  - rewrite map_app, elem_of_app, IH, map_map. cbn [fst]. split.
    + intros [H|[Hle H]].
      * apply list_elem_of_fmap in H. destruct H as (pen & -> & Hpen).
        split; [lia|]. rewrite Nat.sub_diag. cbn [lookup list_lookup default from_option]. unfold id.
        intros E. change (time_penalties pens = []) in E.
        rewrite E in Hpen. apply elem_of_nil in Hpen. contradiction.
      * split; [lia|]. replace (k - i)%nat with (S (k - (i + 1))) by lia. exact H.
    + intros [Hle H]. destruct (decide (k = i)) as [->|Hne].
      * left. rewrite Nat.sub_diag in H. cbn [lookup list_lookup default from_option] in H.
        change (time_penalties pens <> []) in H.
        destruct (time_penalties pens) as [|pen tps]; [contradiction|].
        apply list_elem_of_fmap. exists pen. split; [reflexivity|].
        apply elem_of_cons. left. reflexivity.
      * right. split; [lia|].
        replace (k - i)%nat with (S (k - (i + 1))) in H by lia. exact H.
Qed.

Lemma phases_loop_total l : forall i st,
  (i + length l <= length (has_penalty st))%nat ->
  (i + length l <= length (phase_time st))%nat ->
  (exists st', phases_loop i l st = Ok st') \/ phases_loop i l st = Raise RuntimeError.
Proof.
  induction l as [|pens l IH]; intros i st Hh Hp; cbn [phases_loop length] in *.
  - left. eexists. reflexivity.
  - destruct (lookup_lt_is_Some_2 (phase_time st) i) as [t_i Ht]; [lia|].
    destruct (lookup_lt_is_Some_2 (has_penalty st) i) as [[|] Hf]; [lia| |].
    + rewrite phase_loop_declared by exact Hf.
      destruct (time_penalties pens); [|right; reflexivity].
      cbn [rbind]. apply IH; lia.
    + rewrite (phase_loop_free _ _ _ _ Hf Ht).
      destruct (time_penalties pens) as [|pen [|pen' tps]]; [| |right; reflexivity].
      * cbn [rbind]. apply IH; lia.
      * cbn [rbind]. destruct (found_step_lengths st (i, pen)) as [L1 L2].
        apply IH; lia.
Qed.

Lemma phases_loop_once l : forall i st st' j pens,
  phases_loop i l st = Ok st' -> l !! j = Some pens ->
  (length (time_penalties pens) <= 1)%nat.
Proof.
  induction l as [|pens0 l IH]; intros i st st' j pens H Hj; [discriminate|].
  cbn [phases_loop] in H.
  destruct (phase_loop i pens0 st) as [st1|e] eqn:E1; cbn [rbind] in H; [|discriminate].
  destruct j as [|j].
  - injection Hj as ->.
    destruct (phase_loop_inv _ _ _ _ E1) as [[-> _]|(pen & -> & _)]; simpl; lia.
  - apply (IH _ _ _ _ _ H Hj).
Qed.

Lemma TimeLists_eta (st : TimeLists) :
  {| initial_time_guess := initial_time_guess st; phase_time := phase_time st;
     time_min := time_min st; time_max := time_max st; has_penalty := has_penalty st |}
  = st.
Proof. destruct st. reflexivity. Qed.

(** X20: when the lists of penalties have no more phases than the program
    and a time is given for every phase, the two scans return if no phase
    declares its time more than once, objectives and constraints together,
    and raise the runtime error if one does. *)
Theorem define_time_declared_once
    (n_phases : nat) (phase_time0 : list PhaseTime)
    (objective_functions constraints : list (list (option Penalty))) :
  (length objective_functions <= n_phases)%nat ->
  (length constraints <= n_phases)%nat ->
  (n_phases <= length phase_time0)%nat ->
  let declared i :=
    (length (phase_penalties objective_functions i)
     + length (phase_penalties constraints i))%nat in
  ((forall i, (declared i <= 1)%nat) ->
   exists st,
     define_time_lists n_phases phase_time0 objective_functions constraints = Ok st)
  /\ ((exists i, (1 < declared i)%nat) ->
      define_time_lists n_phases phase_time0 objective_functions constraints
      = Raise RuntimeError).
Proof.
  intros Ho Hc Hn declared.
  set (st0 := {| initial_time_guess := []; phase_time := phase_time0;
                 time_min := []; time_max := [];
                 has_penalty := replicate n_phases false |}).
  assert (L0 : length (has_penalty st0) = n_phases) by apply length_replicate.
  assert (Hrun : define_time_lists n_phases phase_time0 objective_functions constraints
                 = (st <~ phases_loop 0 objective_functions st0 ;;
                    phases_loop 0 constraints st)).
  { unfold define_time_lists, define_parameters_phase_time. fold st0.
    destruct (phases_loop 0 objective_functions st0) as [st1|e]; [|reflexivity].
    cbn [rbind]. rewrite TimeLists_eta. reflexivity. }
  assert (Hpp : forall l j pens, l !! j = Some pens ->
            phase_penalties l j = time_penalties pens).
  { intros l j pens Hj. unfold phase_penalties. rewrite Hj. reflexivity. }
  assert (Hpp' : forall l j, phase_penalties l j <> [] ->
            exists pens, l !! j = Some pens /\ time_penalties pens <> []).
  { intros l j. unfold phase_penalties. destruct (l !! j) as [pens|]; [|contradiction].
    intros H. exists pens. split; [reflexivity|exact H]. }
  assert (Hfound : forall k, k ∈ map fst (discovered 0 objective_functions) ->
             (k < length (has_penalty st0))%nat /\ (k < length (phase_time st0))%nat).
  { intros k Hk. apply discovered_elem in Hk. destruct Hk as [_ Hk].
    rewrite Nat.sub_0_r in Hk. destruct (Hpp' _ _ Hk) as (pens & Hl & _).
    apply lookup_lt_Some in Hl. cbn [st0 phase_time]. lia. }
  rewrite Hrun. split.
  - intros Hall.
    rewrite (phases_loop_ok objective_functions 0 st0); [|lia|cbn; lia|].
    2:{ intros j pens Hj. pose proof (Hall j) as Hd. unfold declared in Hd.
        rewrite (Hpp _ _ _ Hj) in Hd. split; [lia|]. intros _.
        apply lookup_lt_Some in Hj. cbn [Nat.add st0 has_penalty].
        apply lookup_replicate_2. lia. }
    cbn [rbind].
    destruct (foldl_found_step_lengths (discovered 0 objective_functions) st0) as [L1 L2].
    rewrite (phases_loop_ok constraints 0); [eexists; reflexivity|lia|cbn [st0 phase_time] in L2; lia|].
    intros j pens Hj. pose proof (Hall j) as Hd. unfold declared in Hd.
    rewrite (Hpp constraints _ _ Hj) in Hd. split; [lia|]. intros Hne.
    cbn [Nat.add]. destruct (foldl_found_step_lookup _ st0 j Hfound) as [-> _].
    rewrite bool_decide_eq_false_2.
    + cbn [st0 has_penalty]. apply lookup_replicate_2. apply lookup_lt_Some in Hj. lia.
    + intros Hin. apply discovered_elem in Hin. destruct Hin as [_ Hin].
      rewrite Nat.sub_0_r in Hin.
      destruct (phase_penalties objective_functions j); [contradiction|].
      destruct (time_penalties pens); [contradiction|]. simpl in Hd. lia.
  - intros [i Hi]. unfold declared in Hi.
    destruct (phases_loop_total objective_functions 0 st0) as [[st1 E1]|E1];
      [lia|cbn; lia| |rewrite E1; reflexivity].
    rewrite E1. cbn [rbind].
    destruct (phases_loop_inv _ _ _ _ E1) as (-> & _ & _).
    destruct (foldl_found_step_lengths (discovered 0 objective_functions) st0) as [L1 L2].
    assert (Ho1 : (length (phase_penalties objective_functions i) <= 1)%nat).
    { unfold phase_penalties. destruct (objective_functions !! i) as [pens|] eqn:Hl;
        [|simpl; lia].
      apply (phases_loop_once _ _ _ _ _ _ E1 Hl). }
    destruct (Hpp' constraints i) as (pens & Hl & Hne).
    { intros E. rewrite E in Hi. simpl in Hi. lia. }
    apply phases_loop_fail; [lia|cbn [st0 phase_time] in L2; lia|].
    exists i, pens. split; [exact Hl|]. rewrite (Hpp _ _ _ Hl) in Hi.
    destruct (decide (1 < length (time_penalties pens))%nat) as [Hgt|Hle]; [left; exact Hgt|].
    right. split; [exact Hne|]. cbn [Nat.add].
    destruct (foldl_found_step_lookup _ st0 i Hfound) as [-> _].
    rewrite bool_decide_eq_true_2; [reflexivity|].
    apply discovered_elem. split; [lia|]. rewrite Nat.sub_0_r.
    intros E. rewrite E in Hi. simpl in Hi. lia.
Qed.

End DefineTimeProperties.

Lemma define_time_discovery_order_witness :
  Forall2 (fun t_i ip => [TimeValue 1; TimeValue 2] !! fst ip = Some t_i)
    (initial_time_guess sample_time_lists)
    (discovered 0 sample_objectives ++ discovered 0 sample_constraints).
Proof.
  apply (proj1 (proj2 (proj2 (proj2
           (define_time_discovery_order sample_is_constraint 2
              [TimeValue 1; TimeValue 2] sample_objectives sample_constraints
              sample_time_lists ltac:(vm_compute; reflexivity)))))).
Defined.

Lemma define_time_declared_once_witness :
  exists st,
    define_time_lists sample_is_constraint 2 [TimeValue 1; TimeValue 2]
      sample_objectives sample_constraints = Ok st.
Proof.
  apply (proj1 (define_time_declared_once sample_is_constraint 2
                  [TimeValue 1; TimeValue 2] sample_objectives sample_constraints
                  ltac:(simpl; lia) ltac:(simpl; lia) ltac:(simpl; lia))).
  intros [|[|i]]; vm_compute; lia.
Defined.
